(** * PGExplainer: a shallow embedding of
      [ExplanationEvaluation/explainers/PGExplainer.py]

    The embedding covers [_create_explainer_input], [_sample_graph], [_loss],
    [_connectivity_loss], [train], [explain], [save_model], [load_model] and
    [prepare] with the mask predictor it builds.

    - Tensors of floats are read as lists of real numbers (Stdlib [R]):
      sums are exact, and [ln] and division are the total functions of the
      Standard Library, so this reading is exact only where every logarithm
      has a positive argument and no division is by zero.  On top of it the
      float32 rounding of [torch.sigmoid], which reaches 0 and 1, and the
      special values of IEEE 754 in [_loss] are modelled ([sigmoid32],
      [_loss_ieee]).
    - The Python exceptions the code can raise are kept as an explicit
      error result, and the shape of a squeezed mask (0-d or 1-d) is kept
      where the code indexes it.
    - The global random generator is threaded through explicitly; the
      explained model, [k_hop_subgraph], [index_edge], autograd and the
      optimizer are parameters; what [train] does to the optimizer and to
      the tensorboard writers is recorded as a trace of events. *)

From Stdlib Require Import Reals Lra Lia ZArith String.
From stdpp Require Import base list strings pretty gmap.

Open Scope R_scope.

(** ** Python exceptions and the error monad *)

Inductive exn : Type :=
| IndexError
| ZeroDivisionError
| RuntimeError
| ValueError.

Inductive result (A : Type) : Type :=
| Ok (a : A)
| Raise (e : exn).

Arguments Ok {A} a.
Arguments Raise {A} e.

Definition bind {A B : Type} (m : result A) (k : A -> result B) : result B :=
  match m with
  | Ok a => k a
  | Raise e => Raise e
  end.

Declare Scope py_scope.
Delimit Scope py_scope with py.
Notation "'let*' p ':=' m 'in' k" := (bind m (fun p => k))
  (at level 10, p pattern, m at level 100, k at level 200) : py_scope.
Open Scope py_scope.

Fixpoint mapM {A B : Type} (f : A -> result B) (l : list A) : result (list B) :=
  match l with
  | [] => Ok []
  | a :: l' => let* b := f a in let* bs := mapM f l' in Ok (b :: bs)
  end.

(** [l[i]] on a Python sequence or a 1-d tensor, for a non-negative [i]. *)
Definition getitem {A : Type} (l : list A) (i : nat) : result A :=
  match l !! i with
  | Some a => Ok a
  | None => Raise IndexError
  end.

(** ** Real-valued tensor primitives *)

Definition rsum (l : list R) : R := foldr Rplus 0 l.

(** [torch.mean]: the sum divided by the number of elements. *)
Definition rmean (l : list R) : R := rsum l / INR (length l).

(** [torch.sigmoid] *)
Definition sigmoid (x : R) : R := 1 / (1 + exp (- x)).

(** [torch.relu] *)
Definition relu (x : R) : R := Rmax 0 x.

Abbreviation matrix := (list (list R)).

(** What [.squeeze()] leaves of a tensor of shape (1, E, 1): a 0-d tensor
    when E = 1 and a 1-d tensor of length E otherwise. *)
Inductive tensor : Type :=
| Scalar (x : R)
| Vector (xs : list R).

Definition squeeze (xs : list R) : tensor :=
  match xs with
  | [x] => Scalar x
  | _ => Vector xs
  end.

(** The elements of a tensor, for the shape-agnostic reductions and
    elementwise operations. *)
Definition elems (m : tensor) : list R :=
  match m with
  | Scalar x => [x]
  | Vector xs => xs
  end.

(** [mask.size(0)]: a 0-d tensor has no dimension 0. *)
Definition tensor_size0 (m : tensor) : result nat :=
  match m with
  | Scalar _ => Raise IndexError
  | Vector xs => Ok (length xs)
  end.

(** [mask[idx]]: a 0-d tensor cannot be indexed. *)
Definition tensor_getitem (m : tensor) (idx : nat) : result R :=
  match m with
  | Scalar _ => Raise IndexError
  | Vector xs => getitem xs idx
  end.

(** ** Graphs and task kinds *)

(** An edge index of shape (2, E), kept as the list of its columns. *)
Abbreviation Graph := (list (nat * nat)).

(** [graph[0]] and [graph[1]] *)
Definition graph_row0 (graph : Graph) : list nat := map fst graph.
Definition graph_row1 (graph : Graph) : list nat := map snd graph.

Inductive task : Type := node | graph_task.

(** ** The temperature schedule of [train] (line 189) *)

(** [temp[0] * ((temp[1] / temp[0]) ** (e / epochs))].  [Rpower] is the
    float power for a positive base, which is the case of every positive
    pair of temperatures. *)
Definition temp_schedule (temp : R * R) (epochs : nat) (e : nat) : R :=
  fst temp * Rpower (snd temp / fst temp) (INR e / INR epochs).

(** ** [_create_explainer_input] *)

(** [embeds[rows]]: one row of [embeds] per index. *)
Definition index_select (embeds : matrix) (rows : list nat) : result matrix :=
  mapM (getitem embeds) rows.

(** [torch.cat([a, b], 1)] on matrices with the same number of rows. *)
Definition cat1 (a b : matrix) : matrix := zip_with (@app R) a b.

Definition _create_explainer_input (type : task) (pair : Graph)
    (embeds : matrix) (node_id : nat) : result matrix :=
  let rows := graph_row0 pair in
  let cols := graph_row1 pair in
  let* row_embeds := index_select embeds rows in
  let* col_embeds := index_select embeds cols in
  match type with
  | node =>
      let* e := getitem embeds node_id in
      let node_embed := replicate (length rows) e in
      Ok (cat1 (cat1 row_embeds col_embeds) node_embed)
  | graph_task =>
      Ok (cat1 row_embeds col_embeds)
  end.

(** [expl_embedding] as [__init__] sets it. *)
Definition expl_embedding (type : task) (embedding_size : nat) : nat :=
  match type with
  | graph_task => embedding_size * 2
  | node => embedding_size * 3
  end.

(** ** The mask predictor built by [prepare]

    [nn.Sequential(nn.Linear(expl_embedding, 64), nn.ReLU(), nn.Linear(64, 1))].
    A linear layer is the list of its output neurons, each a weight row and a
    bias; applying a row to an input of another width is torch's shape
    error. *)

Abbreviation neuron := (list R * R)%type.

Definition dot (w x : list R) : result R :=
  if (length w =? length x)%nat then Ok (rsum (zip_with Rmult w x))
  else Raise RuntimeError.

Definition neuron_apply (x : list R) (nb : neuron) : result R :=
  let* d := dot (fst nb) x in Ok (d + snd nb).

Definition linear (layer : list neuron) (x : list R) : result (list R) :=
  mapM (neuron_apply x) layer.

Record MLP : Type := {
  fc1 : list neuron;   (* nn.Linear(expl_embedding, 64) *)
  fc2 : neuron         (* nn.Linear(64, 1) *)
}.

Definition mlp_row (P : MLP) (x : list R) : result R :=
  let* h := linear (fc1 P) x in
  neuron_apply (map relu h) (fc2 P).

(** [self.explainer_model(input_expl)]: one logit per row (per edge). *)
Definition explainer_model_apply (P : MLP) (input_expl : matrix) : result (list R) :=
  mapM (mlp_row P) input_expl.

(** ** External collaborators *)

(** The model to explain: [embedding], the forward pass with optional
    [edge_weights], and [embedding_size]. *)
Record ExplainedModel : Type := {
  embedding_size : nat;
  embedding : matrix -> Graph -> matrix;
  forward : matrix -> Graph -> option tensor -> matrix
}.

(** [self.features] and [self.graphs]: one shared graph for a node task, one
    graph with its features per index for a graph task. *)
Inductive dataset : Type :=
| NodeData (features : matrix) (graphs : Graph)
| GraphData (samples : list (matrix * Graph)).

Record PGExplainer : Type := {
  model_to_explain : ExplainedModel;
  data : dataset;
  epochs : nat;
  lr : R;
  temp : R * R;
  reg_coefs : list R;
  sample_bias : R
}.

Definition type (self : PGExplainer) : task :=
  match data self with
  | NodeData _ _ => node
  | GraphData _ => graph_task
  end.

(** The defaults of [__init__]. *)
Definition default_epochs : nat := 30.
Definition default_lr : R := 3 / 1000.
Definition default_temp : R * R := (5, 2).
Definition default_reg_coefs : list R := [5 / 100; 1].
Definition default_sample_bias : R := 0.

(** What the code takes from torch, torch_geometric and the rest of the
    repository: the global random generator behind [torch.rand] (values in
    [0, 1)), [k_hop_subgraph], the helper [index_edge] of
    [ExplanationEvaluation/utils/graph.py], reverse-mode differentiation and
    the Adam optimizer. *)
Class Collaborators : Type := {
  Rng : Type;
  torch_rand : Rng -> nat -> list R * Rng;
  k_hop_subgraph : nat -> nat -> Graph -> Graph;
  index_edge : Graph -> nat * nat -> list nat;
  OptState : Type;
  Grad : Type;
  adam_init : R -> MLP -> OptState;
  autograd : (MLP -> result R) -> MLP -> Grad;
  adam_step : OptState -> MLP -> Grad -> OptState * MLP
}.

(** ** [_sample_graph] *)

(** Line 84: [(bias - (1-bias)) * torch.rand(...) + (1-bias)], per element. *)
Definition noise_eps (bias r : R) : R := (bias - (1 - bias)) * r + (1 - bias).

(** Over the real numbers the training branch is exact where the
    temperature is not 0 and the noise lies strictly between 0 and 1. *)
Definition _sample_graph `{Collaborators} (sampling_weights : list R)
    (temperature bias : R) (training : bool) (g : Rng) : list R * Rng :=
  if training then
    let bias := bias + 1 / 10000 in
    let (u, g') := torch_rand g (length sampling_weights) in
    let eps := map (noise_eps bias) u in
    let gate_inputs := map (fun e => ln e - ln (1 - e)) eps in
    let gate_inputs :=
      zip_with (fun gi w => (gi + w) / temperature) gate_inputs sampling_weights in
    (map sigmoid gate_inputs, g')
  else
    (map sigmoid sampling_weights, g).

(** ** [_loss] *)

(** [torch.argmax] of a non-empty tensor: the first position of the largest
    element. *)
Fixpoint argmax_from (best : R) (besti i : nat) (l : list R) : nat :=
  match l with
  | [] => besti
  | x :: l' =>
      if Rlt_dec best x then argmax_from x i (S i) l'
      else argmax_from best besti (S i) l'
  end.

Definition argmax (l : list R) : result nat :=
  match l with
  | [] => Raise RuntimeError
  | x :: l' => Ok (argmax_from x 0 1 l')
  end.

(** [torch.nn.functional.cross_entropy(input, target)] for an input of shape
    (N, C) and class indices of shape (N): the mean over the batch of
    [log (sum_j exp input[i][j]) - input[i][target[i]]]. *)
Definition nll_row (rc : list R * nat) : result R :=
  let* x := getitem (fst rc) (snd rc) in
  Ok (ln (rsum (map exp (fst rc))) - x).

Definition cross_entropy (input : matrix) (target : list nat) : result R :=
  if (length input =? length target)%nat then
    let* ls := mapM nll_row (zip input target) in Ok (rmean ls)
  else Raise ValueError.

(** Line 107, for one mask entry: exact for an entry strictly between 0 and
    1; [binary_entropy_ieee] below has the special values. *)
Definition binary_entropy (m : R) : R := - m * ln m - (1 - m) * ln (1 - m).

Definition _loss (masked_pred : matrix) (original_pred : list nat)
    (mask : tensor) (reg_coefs : list R) : result (R * R * R) :=
  let* size_reg := getitem reg_coefs 0 in
  let* entropy_reg := getitem reg_coefs 1 in
  let size_loss := rsum (elems mask) * size_reg in
  let mask_ent_reg := map binary_entropy (elems mask) in
  let mask_ent_loss := entropy_reg * rmean mask_ent_reg in
  let* cce_loss := cross_entropy masked_pred original_pred in
  Ok (cce_loss, size_loss, mask_ent_loss).

(** ** [_connectivity_loss] *)

(** The first loop (lines 121-128): [adjacent_masks] is pushed onto
    [total_mask_score] whenever the source node changes; nothing is pushed
    after the loop, so the masks of the last run of sources stay out. *)
Fixpoint collect_adjacent (starts : list nat) (idx : nat) (mask : tensor)
    (start_node : nat) (adjacent_masks : list R)
    (total_mask_score : list (list R)) : result (list (list R)) :=
  match starts with
  | [] => Ok total_mask_score
  | start :: rest =>
      let '(total_mask_score, adjacent_masks, start_node) :=
        if (start_node =? start)%nat
        then (total_mask_score, adjacent_masks, start_node)
        else (total_mask_score ++ [adjacent_masks], [], start) in
      let* m := tensor_getitem mask idx in
      collect_adjacent rest (S idx) mask start_node (adjacent_masks ++ [m])
        total_mask_score
  end.

(** [torch.combinations(v, r=2)]: the pairs (v[i], v[j]) with i < j, in
    lexicographic order of (i, j). *)
Fixpoint combinations2 {A : Type} (l : list A) : list (A * A) :=
  match l with
  | [] => []
  | x :: l' => map (pair x) l' ++ combinations2 l'
  end.

(** [torch.stack(masks)] of 0-d tensors; an empty list is refused. *)
Definition stack (masks : list R) : result (list R) :=
  match masks with
  | [] => Raise RuntimeError
  | _ => Ok masks
  end.

(** Line 137, for one pair: exact for entries strictly between 0 and 1;
    [pair_loss_ieee] below has the special values. *)
Definition pair_loss (p : R * R) : R :=
  - fst p * ln (snd p) - (1 - fst p) * ln (1 - fst p).

(** [mean_all_starts] and [sum_loss] start as the Python integer 0 and become
    tensors once a tensor is added. *)
Inductive pynum : Type :=
| PyInt (z : Z)
| PyTensor (x : R).

Definition pynum_val (v : pynum) : R :=
  match v with
  | PyInt z => IZR z
  | PyTensor x => x
  end.

(** [v + x] for a tensor [x]. *)
Definition pynum_add (v : pynum) (x : R) : pynum := PyTensor (pynum_val v + x).

(** [v / n] for a length [n]: integer division by zero raises; a tensor
    divided by zero does not raise. *)
Definition pynum_div_len (v : pynum) (n : nat) : result R :=
  match v with
  | PyInt z => if (n =? 0)%nat then Raise ZeroDivisionError else Ok (IZR z / INR n)
  | PyTensor x => Ok (x / INR n)
  end.

(** The second loop (lines 132-140). *)
Fixpoint sum_group_means (total_mask_score : list (list R))
    (mean_all_starts : pynum) : result pynum :=
  match total_mask_score with
  | [] => Ok mean_all_starts
  | masks :: rest =>
      let* v := stack masks in
      let pair_order_list := combinations2 v in
      let sum_loss := foldl (fun s p => pynum_add s (pair_loss p)) (PyInt 0) pair_order_list in
      let mean_all_starts :=
        if (0 <? length pair_order_list)%nat
        then pynum_add mean_all_starts (pynum_val sum_loss / INR (length pair_order_list))
        else mean_all_starts in
      sum_group_means rest mean_all_starts
  end.

Definition _connectivity_loss (reg_coefs : list R) (graph : Graph)
    (mask : tensor) : result R :=
  let* conn_reg := getitem reg_coefs 2 in
  let* start_node := getitem (graph_row0 graph) 0 in
  let* total_mask_score :=
    collect_adjacent (graph_row0 graph) 0 mask start_node [] [] in
  let* mean_all_starts := sum_group_means total_mask_score (PyInt 0) in
  let* mean_conn_loss := pynum_div_len mean_all_starts (length total_mask_score) in
  Ok (conn_reg * mean_conn_loss).

(** ** [train] *)

(** The four terms of one example, in the order
    (cce_loss, size_loss, mask_ent_loss, connectivity_loss). *)
Abbreviation terms := (R * R * R * R)%type.

Definition terms_total (l : terms) : R :=
  let '(cce_loss, size_loss, mask_ent_loss, connectivity_loss) := l in
  cce_loss + size_loss + mask_ent_loss + connectivity_loss.

(** Lines 213-235 of the loop over [indices], for one index [n]: the graph,
    the sampled mask and the three terms of [_loss].  [node_embeds] is the
    embedding computed before the loop for a node task. *)
Definition example_forward `{Collaborators} (self : PGExplainer) (P : MLP)
    (node_embeds : matrix) (t : R) (n : nat) (g : Rng)
    : result (Graph * tensor * (R * R * R) * Rng) :=
  let M := model_to_explain self in
  let* (feats, graph, embeds) :=
    match data self with
    | NodeData features graphs =>
        Ok (features, k_hop_subgraph n 3 graphs, node_embeds)
    | GraphData samples =>
        let* fg := getitem samples n in
        Ok (fst fg, snd fg, embedding M (fst fg) (snd fg))
    end in
  let* input_expl := _create_explainer_input (type self) graph embeds n in
  let* sampling_weights := explainer_model_apply P input_expl in
  let (m, g') := _sample_graph sampling_weights t (sample_bias self) true g in
  let mask := squeeze m in
  let masked_pred := forward M feats graph (Some mask) in
  let original_pred := forward M feats graph None in
  let* (masked_pred, original_pred) :=
    match type self with
    | node =>
        let* mp := getitem masked_pred n in
        let* op := getitem original_pred n in
        Ok ([mp], op)
    | graph_task => Ok (masked_pred, concat original_pred)
    end in
  let* target := argmax original_pred in
  let* l := _loss masked_pred [target] mask (reg_coefs self) in
  Ok (graph, mask, l, g').

(** The whole body (lines 213-237): the connectivity loss comes last. *)
Definition example_terms `{Collaborators} (self : PGExplainer) (P : MLP)
    (node_embeds : matrix) (t : R) (n : nat) (g : Rng) : result (terms * Rng) :=
  let* (graph, mask, l, g') := example_forward self P node_embeds t n g in
  let '(cce_loss, size_loss, mask_ent_loss) := l in
  let* connectivity_loss := _connectivity_loss (reg_coefs self) graph mask in
  Ok ((cce_loss, size_loss, mask_ent_loss, connectivity_loss), g').

(** The running totals of one epoch (lines 205-209).  They start as detached
    constants; [requires_grad] records whether a term that depends on the
    mask predictor has been added, which [loss.backward()] needs. *)
Record totals : Type := {
  loss : R;
  total_pred_loss : R;
  total_size_loss : R;
  total_ent_loss : R;
  total_conn_loss : R;
  requires_grad : bool
}.

Definition zero_totals : totals :=
  {| loss := 0; total_pred_loss := 0; total_size_loss := 0;
     total_ent_loss := 0; total_conn_loss := 0; requires_grad := false |}.

(** Lines 239-244. *)
Definition accumulate (acc : totals) (l : terms) : totals :=
  let '(cce_loss, size_loss, mask_ent_loss, connectivity_loss) := l in
  {| total_pred_loss := total_pred_loss acc + cce_loss;
     total_size_loss := total_size_loss acc + size_loss;
     total_ent_loss := total_ent_loss acc + mask_ent_loss;
     total_conn_loss := total_conn_loss acc + connectivity_loss;
     loss := loss acc + (cce_loss + size_loss + mask_ent_loss + connectivity_loss);
     requires_grad := true |}.

(** The loop over [indices] of one epoch. *)
Fixpoint sweep `{Collaborators} (self : PGExplainer) (P : MLP)
    (node_embeds : matrix) (t : R) (indices : list nat) (acc : totals)
    (g : Rng) : result (totals * Rng) :=
  match indices with
  | [] => Ok (acc, g)
  | n :: rest =>
      let* (l, g') := example_terms self P node_embeds t n g in
      sweep self P node_embeds t rest (accumulate acc l) g'
  end.

(** What an epoch does to the world outside the mask predictor. *)
Inductive event : Type :=
| ZeroGrad
| Backward (loss : R)
| OptimizerStep
| AddScalar (tag : string) (value : R) (e : nat).

Record TrainState `{Collaborators} : Type := {
  explainer_model : MLP;
  optimizer : OptState;
  rng : Rng;
  trace : list event
}.

(** [loss.backward()]: refused on a tensor that does not require grad. *)
Definition backward `{Collaborators} (self : PGExplainer)
    (node_embeds : matrix) (t : R) (indices : list nat) (P : MLP) (g : Rng)
    (acc : totals) : result Grad :=
  if requires_grad acc then
    Ok (autograd
          (fun P' =>
             let* (acc', _) := sweep self P' node_embeds t indices zero_totals g in
             Ok (loss acc'))
          P)
  else Raise RuntimeError.

(** One iteration of the loop over epochs (lines 204-254). *)
Definition train_epoch `{Collaborators} (self : PGExplainer)
    (node_embeds : matrix) (indices : list nat) (st : TrainState) (e : nat)
    : result TrainState :=
  let P := explainer_model st in
  let t := temp_schedule (temp self) (epochs self) e in
  let* (acc, g') := sweep self P node_embeds t indices zero_totals (rng st) in
  let* grads := backward self node_embeds t indices P (rng st) acc in
  let (opt', P') := adam_step (optimizer st) P grads in
  let count := INR (length indices) in
  Ok {| explainer_model := P';
        optimizer := opt';
        rng := g';
        trace := trace st ++
          [ ZeroGrad; Backward (loss acc); OptimizerStep;
            AddScalar "norm loss" (loss acc / count) e;
            AddScalar "size loss" (total_size_loss acc / count) e;
            AddScalar "conn loss" (total_conn_loss acc / count) e;
            AddScalar "pred loss" (total_pred_loss acc / count) e;
            AddScalar "ent loss" (total_ent_loss acc / count) e ] |}.

Fixpoint train_epochs `{Collaborators} (self : PGExplainer)
    (node_embeds : matrix) (indices : list nat) (es : list nat)
    (st : TrainState) : result TrainState :=
  match es with
  | [] => Ok st
  | e :: rest =>
      let* st' := train_epoch self node_embeds indices st e in
      train_epochs self node_embeds indices rest st'
  end.

(** Lines 192-193: the embeddings of a node task are computed once, before
    the loop over epochs. *)
Definition precomputed_embeds (self : PGExplainer) : matrix :=
  match data self with
  | NodeData features graphs => embedding (model_to_explain self) features graphs
  | GraphData _ => []
  end.

(** [train].  Of the five [SummaryWriter]s (lines 196-200 and 255-259) only
    the scalars they log are kept: the log directories they create under
    [runs/] are not modelled, and neither are [seed] and [folder], which
    only name them. *)
Definition train `{Collaborators} (self : PGExplainer) (P : MLP) (g : Rng)
    (indices : list nat) : result TrainState :=
  let optimizer := adam_init (lr self) P in
  let node_embeds := precomputed_embeds self in
  train_epochs self node_embeds indices (seq 0 (epochs self))
    {| explainer_model := P; optimizer := optimizer; rng := g; trace := [] |}.

(** ** [explain] *)

(** [expl_graph_weights[t] = m] for a tensor [t] of positions. *)
Fixpoint index_put (w : list R) (t : list nat) (m : R) : result (list R) :=
  match t with
  | [] => Ok w
  | j :: t' =>
      if (j <? length w)%nat then index_put (<[j := m]> w) t' m
      else Raise IndexError
  end.

(** Lines 285-288. *)
Fixpoint scatter `{Collaborators} (graph : Graph) (mask : tensor)
    (range : list nat) (expl_graph_weights : list R) : result (list R) :=
  match range with
  | [] => Ok expl_graph_weights
  | i :: rest =>
      let* edge := getitem graph i in   (* pair = graph.T[i] *)
      let t := index_edge graph edge in
      let* m := tensor_getitem mask i in
      let* w := index_put expl_graph_weights t m in
      scatter graph mask rest w
  end.

(** Lines 269-281: the graph of [index] and its logits. *)
Definition explain_logits `{Collaborators} (self : PGExplainer) (P : MLP)
    (index : nat) : result (Graph * list R) :=
  let M := model_to_explain self in
  let* (graph, embeds) :=
    match data self with
    | NodeData features graphs =>
        Ok (k_hop_subgraph index 3 graphs, embedding M features graphs)
    | GraphData samples =>
        let* fg := getitem samples index in
        Ok (snd fg, embedding M (fst fg) (snd fg))
    end in
  let* input_expl := _create_explainer_input (type self) graph embeds index in
  let* sampling_weights := explainer_model_apply P input_expl in
  Ok (graph, sampling_weights).

(** [explain] reads the mask predictor and goes through the sampler, which
    owns the random generator: the generator is threaded through and
    returned. *)
Definition explain `{Collaborators} (self : PGExplainer) (P : MLP)
    (index : nat) (g : Rng) : result (Graph * list R) * Rng :=
  match explain_logits self P index with
  | Raise e => (Raise e, g)
  | Ok (graph, sampling_weights) =>
      let (m, g') := _sample_graph sampling_weights 1 0 false g in
      let mask := squeeze m in
      let expl_graph_weights := replicate (length graph) 0 in
      (let* n := tensor_size0 mask in
       let* w := scatter graph mask (seq 0 n) expl_graph_weights in
       Ok (graph, w), g')
  end.

(** ** Reference formulas and concrete collaborators *)

(** The formula of the specification for one edge in training mode, with [u]
    the noise: [sigmoid ((log u - log (1 - u) + logit) / temperature)]. *)
Definition training_gate (temperature u w : R) : R :=
  sigmoid ((ln u - ln (1 - u) + w) / temperature).

(** Modelled from the spec: [index_edge] is defined in
    [ExplanationEvaluation/utils/graph.py], which is not among the sources.
    The specification has each weight "positioned by each edge's index within
    the edge-list ordering": the positions at which the edge occurs. *)
Definition edge_positions (graph : Graph) (edge : nat * nat) : list nat :=
  filter (fun i => graph !! i = Some edge) (seq 0 (length graph)).

(** [torch.rand] replaying a tape of draws fixed in advance (zeros once the
    tape is used up). *)
Definition replay_rand (tape : list R) (n : nat) : list R * list R :=
  (take n (tape ++ replicate n 0), drop n tape).

(** Collaborators for closed examples: a replayed random tape, the identity
    for [k_hop_subgraph], [edge_positions] for [index_edge], and an optimizer
    that leaves the parameters alone. *)
Definition replay : Collaborators :=
  {| Rng := list R;
     torch_rand := replay_rand;
     k_hop_subgraph := fun _ _ graph => graph;
     index_edge := edge_positions;
     OptState := unit;
     Grad := unit;
     adam_init := fun _ _ => tt;
     autograd := fun _ _ => tt;
     adam_step := fun o P _ => (o, P) |}.

(** A small graph task for closed examples: node features serve as
    embeddings of width 1, the classifier has two classes, and the mask
    predictor has the layout built by [prepare] for [expl_embedding] = 2. *)
Definition toy_model : ExplainedModel :=
  {| embedding_size := 1;
     embedding := fun feats _ => feats;
     forward := fun _ _ edge_weights =>
       match edge_weights with
       | None => [[0; 1]]
       | Some mask => [[0; rsum (elems mask)]]
       end |}.

Definition toy_mlp : MLP :=
  {| fc1 := replicate 64 ([1; 1], 0);
     fc2 := (replicate 64 (1 / 64), 0) |}.

(** Two nodes joined by an edge in each direction. *)
Definition two_cycle : Graph := [(0, 1); (1, 0)]%nat.

(** Two nodes and one edge. *)
Definition one_edge : Graph := [(0, 1)]%nat.

Definition toy_explainer (graphs : list Graph) (epochs : nat)
    (reg_coefs : list R) : PGExplainer :=
  {| model_to_explain := toy_model;
     data := GraphData (map (fun graph => ([[1]; [2]], graph)) graphs);
     epochs := epochs;
     lr := default_lr;
     temp := default_temp;
     reg_coefs := reg_coefs;
     sample_bias := default_sample_bias |}.

(** ** Reference descriptions of an epoch *)

(** The terms of the examples of one sweep, listed in the order of the
    indices, with the generator left by the last draw. *)
Fixpoint sweep_terms `{Collaborators} (self : PGExplainer) (P : MLP)
    (node_embeds : matrix) (t : R) (indices : list nat) (g : Rng)
    : result (list terms * Rng) :=
  match indices with
  | [] => Ok ([], g)
  | n :: rest =>
      let* (l, g') := example_terms self P node_embeds t n g in
      let* (ls, g'') := sweep_terms self P node_embeds t rest g' in
      Ok (l :: ls, g'')
  end.

Definition cce_of (l : terms) : R := fst (fst (fst l)).
Definition size_of (l : terms) : R := snd (fst (fst l)).
Definition ent_of (l : terms) : R := snd (fst l).
Definition conn_of (l : terms) : R := snd l.

(** What the specification lets one epoch do, given the terms [ls] of its
    examples: one backward pass on the plain sum of the per-example totals,
    one optimizer step after it, and five logged scalars divided by the
    number of indices. *)
Definition epoch_events (e : nat) (ls : list terms) : list event :=
  let count := INR (length ls) in
  [ ZeroGrad;
    Backward (rsum (map terms_total ls));
    OptimizerStep;
    AddScalar "norm loss" (rsum (map terms_total ls) / count) e;
    AddScalar "size loss" (rsum (map size_of ls) / count) e;
    AddScalar "conn loss" (rsum (map conn_of ls) / count) e;
    AddScalar "pred loss" (rsum (map cce_of ls) / count) e;
    AddScalar "ent loss" (rsum (map ent_of ls) / count) e ].

Definition is_backward (ev : event) : bool :=
  match ev with Backward _ => true | _ => false end.

Definition is_step (ev : event) : bool :=
  match ev with OptimizerStep => true | _ => false end.

Definition count_events (p : event -> bool) (tr : list event) : nat :=
  length (List.filter p tr).

(** ** [save_model], [load_model] and [prepare] *)

(** The directory [./explainer_model]: absent, or present with the state
    dict stored under each path.  The tensorboard logs, which the
    [SummaryWriter]s of [train] create under [runs/], are not part of it. *)
Abbreviation ModelDir := (option (gmap string MLP)).

(** [torch.load] of a missing file raises an [OSError] that the training
    code never raises. *)
Inductive pyexn : Type :=
| Torch (e : exn)
| FileNotFoundError.

Inductive outcome (A : Type) : Type :=
| Return (a : A)
| Throw (e : pyexn).

Arguments Return {A} a.
Arguments Throw {A} e.

(** ["./explainer_model/model" + str(seed) + ".pt"] *)
Definition model_path (seed : Z) : string :=
  "./explainer_model/model" +:+ pretty seed +:+ ".pt".

(** [os.path.exists(path)] *)
Definition path_exists (path : string) (fs : ModelDir) : bool :=
  match fs with
  | Some stored => bool_decide (is_Some (stored !! path))
  | None => false
  end.

(** [torch.save(self.explainer_model.state_dict(), path)]: the file is
    created or overwritten; without the parent directory torch refuses. *)
Definition save_model (P : MLP) (seed : Z) (fs : ModelDir) : outcome ModelDir :=
  match fs with
  | Some stored => Return (Some (<[model_path seed := P]> stored))
  | None => Throw (Torch RuntimeError)
  end.

(** The shapes of the tensors of a state dict: the width of every weight
    row of the first layer, and the width of the weight of the second. *)
Definition mlp_shape (P : MLP) : list nat * nat :=
  (map (fun nb => length (fst nb)) (fc1 P), length (fst (fc2 P))).

(** [self.explainer_model.load_state_dict(torch.load(path))]: the stored
    tensors replace those of the current model, which must have the same
    shapes. *)
Definition load_model (current : MLP) (seed : Z) (fs : ModelDir) : outcome MLP :=
  match fs ≫= (fun stored => stored !! model_path seed) with
  | None => Throw FileNotFoundError
  | Some P =>
      if bool_decide (mlp_shape current = mlp_shape P) then Return P
      else Throw (Torch RuntimeError)
  end.

(** [nn.Sequential(nn.Linear(d, 64), nn.ReLU(), nn.Linear(64, 1))] with
    torch's default initialisation, which draws from the global generator. *)
Class Initializer `{Collaborators} : Type := {
  new_mask_predictor : nat -> Rng -> MLP * Rng
}.

(** [self.graphs.size(0)] for graphs held in one tensor: an edge index of
    shape (2, E) for a node task, a batch of shape (N, 2, E) for a graph
    task. *)
Definition graphs_size0 (d : dataset) : nat :=
  match d with
  | NodeData _ _ => 2
  | GraphData samples => length samples
  end.

(** [prepare]: what it leaves in [self.explainer_model], the generator and
    the events of the training run if there was one, and the directory of
    saved models. *)
Definition prepare `{Initializer} (self : PGExplainer) (seed : Z)
    (indices : option (list nat)) (g : Rng) (fs : ModelDir)
    : outcome (MLP * Rng * list event) * ModelDir :=
  let (P0, g0) :=
    new_mask_predictor
      (expl_embedding (type self) (embedding_size (model_to_explain self))) g in
  let indices :=
    match indices with
    | None => seq 0 (graphs_size0 (data self))
    | Some l => l
    end in
  if path_exists (model_path seed) fs then
    match load_model P0 seed fs with
    | Return P => (Return (P, g0, []), fs)
    | Throw e => (Throw e, fs)
    end
  else
    match train self P0 g0 indices with
    | Raise e => (Throw (Torch e), fs)
    | Ok st =>
        match save_model (explainer_model st) seed fs with
        | Return fs' => (Return (explainer_model st, rng st, trace st), fs')
        | Throw e => (Throw e, fs)
        end
    end.

(** An initializer for closed examples: every weight is the next draw of the
    replayed tape scaled into [-1/8, 1/8), every bias is 0. *)
Definition replay_neurons (d n : nat) (tape : list R) : list neuron * list R :=
  foldr (fun _ acc =>
           let (u, tape') := replay_rand (snd acc) d in
           ((map (fun r => (2 * r - 1) / 8) u, 0) :: fst acc, tape'))
        ([], tape) (seq 0 n).

Definition replay_predictor (d : nat) (tape : list R) : MLP * list R :=
  let (l1, tape1) := replay_neurons d 64 tape in
  let (u, tape2) := replay_rand tape1 64 in
  ({| fc1 := l1; fc2 := (map (fun r => (2 * r - 1) / 8) u, 0) |}, tape2).

Definition replay_init : @Initializer replay :=
  @Build_Initializer replay replay_predictor.

(** ** Reference descriptions of the connectivity loss *)

(** The maximal runs of consecutive edges with the same source, each as the
    list of the mask entries of its edges. *)
Fixpoint group_runs (l : list (nat * R)) : list (list R) :=
  match l with
  | [] => []
  | sm :: l' =>
      match l' with
      | [] => [[snd sm]]
      | sm' :: _ =>
          match group_runs l' with
          | grp :: rest =>
              if (fst sm =? fst sm')%nat then (snd sm :: grp) :: rest
              else [snd sm] :: grp :: rest
          | [] => [[snd sm]]
          end
      end
  end.

(** The same runs when a run with source [start_node] and masks
    [adjacent_masks] is already open. *)
Fixpoint open_runs (start_node : nat) (adjacent_masks : list R)
    (l : list (nat * R)) : list (list R) :=
  match l with
  | [] => [adjacent_masks]
  | sm :: l' =>
      if (start_node =? fst sm)%nat
      then open_runs start_node (adjacent_masks ++ [snd sm]) l'
      else adjacent_masks :: open_runs (fst sm) [snd sm] l'
  end.

(** The mean of [pair_loss] over the pairs of one group, 0 for a group
    without pairs. *)
Definition group_mean (masks : list R) : R :=
  match combinations2 masks with
  | [] => 0
  | pairs => rsum (map pair_loss pairs) / INR (length pairs)
  end.

(** The groups that enter the loss: every run but the last. *)
Definition scored_groups (graph : Graph) (xs : list R) : list (list R) :=
  removelast (group_runs (zip (graph_row0 graph) xs)).

(** ** Reference descriptions of the explainer input *)

(** The embedding matrix has a row for every endpoint of the edge list and,
    for a node task, for the explained node. *)
Definition covered (ty : task) (pair : Graph) (embeds : matrix)
    (node_id : nat) : Prop :=
  Forall (fun e => (fst e < length embeds)%nat /\ (snd e < length embeds)%nat)
    pair
  /\ (ty = node -> (node_id < length embeds)%nat).

(** ** Floats: special values and float32 rounding

    Where the real-number reading above is not exact.  [torch.sigmoid] on a
    float32 tensor is rounded and reaches 0 and 1; a logarithm of 0 is an
    infinity, and 0 times an infinity is NaN, which every later operation
    passes on. *)

(** A float: a real number or one of the special values of IEEE 754. *)
Inductive ieee : Type :=
| Finite (r : R)
| PInf
| NInf
| NaN.

(** The binary exponent of a non-zero real: the [e] with
    [2^e <= |x| < 2^(e+1)]. *)
Definition mag2 (x : R) : Z := Int_part (ln (Rabs x) / ln 2).

(** Rounding to the nearest integer, ties to even. *)
Definition nearest_even (x : R) : Z :=
  let f := Int_part x in
  if Rlt_dec (x - IZR f) (1 / 2) then f
  else if Rlt_dec (1 / 2) (x - IZR f) then (f + 1)%Z
  else if Z.even f then f else (f + 1)%Z.

(** The spacing of the float32 numbers around [x]: 24 bits of precision,
    smallest normal exponent -126, subnormal numbers below. *)
Definition ulp32 (x : R) : R := powerRZ 2 (Z.max (mag2 x) (-126) - 23).

(** Rounding to the nearest float32, before overflow is looked at. *)
Definition rnd32 (x : R) : R := IZR (nearest_even (x / ulp32 x)) * ulp32 x.

(** The largest finite float32. *)
Definition max32 : R := (2 - powerRZ 2 (-23)) * powerRZ 2 127.

(** Rounding to float32: what rounds beyond the largest finite number becomes an
    infinity. *)
Definition round32 (x : R) : ieee :=
  let y := rnd32 x in
  if Rlt_dec max32 y then PInf
  else if Rlt_dec y (- max32) then NInf
  else Finite y.

(** [exp] on float32, taken correctly rounded (the kernels of torch are
    accurate to a unit in the last place). *)
Definition expf32 (x : R) : ieee := round32 (exp x).

(** [torch.sigmoid] on a float32 tensor, per element: the kernel computes
    [1 / (1 + exp (-x))] in float32, each operation rounded; an infinite
    denominator gives 0. *)
Definition sigmoid32 (x : R) : R :=
  match expf32 (- x) with
  | Finite y =>
      match round32 (1 + y) with
      | Finite z => rnd32 (1 / z)
      | _ => 0
      end
  | _ => 0
  end.

(** *** The sampler on float32 tensors *)

(** [_sample_graph] with the implementation of [torch.sigmoid] as a
    parameter.  At the real function [sigmoid] it is [_sample_graph]; at
    [sigmoid32] it is the float32 reading of the inference branch, whose
    only arithmetic operation is the sigmoid. *)
Definition _sample_graph_with `{Collaborators} (torch_sigmoid : R -> R)
    (sampling_weights : list R) (temperature bias : R) (training : bool)
    (g : Rng) : list R * Rng :=
  if training then
    let bias := bias + 1 / 10000 in
    let (u, g') := torch_rand g (length sampling_weights) in
    let eps := map (noise_eps bias) u in
    let gate_inputs := map (fun e => ln e - ln (1 - e)) eps in
    let gate_inputs :=
      zip_with (fun gi w => (gi + w) / temperature) gate_inputs sampling_weights in
    (map torch_sigmoid gate_inputs, g')
  else
    (map torch_sigmoid sampling_weights, g).

(** *** Arithmetic with the special values

    Finite results are left unrounded: these operations add the special
    values of IEEE 754 to the real-number reading. *)

Definition ieee_neg (a : ieee) : ieee :=
  match a with
  | Finite x => Finite (- x)
  | PInf => NInf
  | NInf => PInf
  | NaN => NaN
  end.

Definition ieee_add (a b : ieee) : ieee :=
  match a, b with
  | NaN, _ | _, NaN => NaN
  | Finite x, Finite y => Finite (x + y)
  | PInf, NInf | NInf, PInf => NaN
  | PInf, _ | _, PInf => PInf
  | NInf, _ | _, NInf => NInf
  end.

Definition ieee_sub (a b : ieee) : ieee := ieee_add a (ieee_neg b).

(** A finite number times an infinity of the given sign: 0 times an infinity
    is NaN. *)
Definition ieee_mul_inf (x : R) (positive : bool) : ieee :=
  if Req_dec_T x 0 then NaN
  else if Rlt_dec 0 x then (if positive then PInf else NInf)
  else (if positive then NInf else PInf).

Definition ieee_mul (a b : ieee) : ieee :=
  match a, b with
  | NaN, _ | _, NaN => NaN
  | Finite x, Finite y => Finite (x * y)
  | Finite x, PInf | PInf, Finite x => ieee_mul_inf x true
  | Finite x, NInf | NInf, Finite x => ieee_mul_inf x false
  | PInf, PInf | NInf, NInf => PInf
  | PInf, NInf | NInf, PInf => NInf
  end.

(** [torch.log]: minus infinity at 0, NaN below. *)
Definition ieee_log (a : ieee) : ieee :=
  match a with
  | Finite x =>
      if Rlt_dec 0 x then Finite (ln x)
      else if Req_dec_T x 0 then NInf else NaN
  | PInf => PInf
  | NInf | NaN => NaN
  end.

Definition ieee_sum (l : list ieee) : ieee := foldr ieee_add (Finite 0) l.

(** Division by a number of elements; 0 / 0 is NaN. *)
Definition ieee_div_count (a : ieee) (n : nat) : ieee :=
  match a with
  | Finite x =>
      if (n =? 0)%nat then
        (if Req_dec_T x 0 then NaN else if Rlt_dec 0 x then PInf else NInf)
      else Finite (x / INR n)
  | _ => a
  end.

(** [torch.mean] *)
Definition ieee_mean (l : list ieee) : ieee := ieee_div_count (ieee_sum l) (length l).

(** *** [_loss] with the special values *)

(** Line 107, for one mask entry, with the special values. *)
Definition binary_entropy_ieee (m : R) : ieee :=
  ieee_sub (ieee_mul (ieee_neg (Finite m)) (ieee_log (Finite m)))
           (ieee_mul (ieee_sub (Finite 1) (Finite m))
                     (ieee_log (ieee_sub (Finite 1) (Finite m)))).

(** Line 137, for one pair, with the special values. *)
Definition pair_loss_ieee (p : R * R) : ieee :=
  ieee_sub (ieee_mul (ieee_neg (Finite (fst p))) (ieee_log (Finite (snd p))))
           (ieee_mul (ieee_sub (Finite 1) (Finite (fst p)))
                     (ieee_log (ieee_sub (Finite 1) (Finite (fst p))))).

(** [_loss] (lines 102-113) on a mask of float entries; the predictions are
    taken finite. *)
Definition _loss_ieee (masked_pred : matrix) (original_pred : list nat)
    (mask : tensor) (reg_coefs : list R) : result (ieee * ieee * ieee) :=
  let* size_reg := getitem reg_coefs 0 in
  let* entropy_reg := getitem reg_coefs 1 in
  let size_loss := ieee_mul (ieee_sum (map Finite (elems mask))) (Finite size_reg) in
  let mask_ent_reg := map binary_entropy_ieee (elems mask) in
  let mask_ent_loss := ieee_mul (Finite entropy_reg) (ieee_mean mask_ent_reg) in
  let* cce_loss := cross_entropy masked_pred original_pred in
  Ok (Finite cce_loss, size_loss, mask_ent_loss).

(** Line 244: [cce_loss + size_loss + mask_ent_loss + connectivity_loss]. *)
Definition terms_total_ieee (l : ieee * ieee * ieee * ieee) : ieee :=
  let '(cce_loss, size_loss, mask_ent_loss, connectivity_loss) := l in
  ieee_add (ieee_add (ieee_add cce_loss size_loss) mask_ent_loss)
    connectivity_loss.

(** ** The loss of one example as a function of its mask *)

(** Lines 213-226 for one index [n]: the features, the graph and the
    sampled mask. *)
Definition example_mask `{Collaborators} (self : PGExplainer) (P : MLP)
    (node_embeds : matrix) (t : R) (n : nat) (g : Rng)
    : result (matrix * Graph * tensor * Rng) :=
  let M := model_to_explain self in
  let* (feats, graph, embeds) :=
    match data self with
    | NodeData features graphs =>
        Ok (features, k_hop_subgraph n 3 graphs, node_embeds)
    | GraphData samples =>
        let* fg := getitem samples n in
        Ok (fst fg, snd fg, embedding M (fst fg) (snd fg))
    end in
  let* input_expl := _create_explainer_input (type self) graph embeds n in
  let* sampling_weights := explainer_model_apply P input_expl in
  let (m, g') := _sample_graph sampling_weights t (sample_bias self) true g in
  Ok (feats, graph, squeeze m, g').

(** The masked and the original prediction that enter [_loss] (lines
    228-233), for a given mask. *)
Definition predictions (self : PGExplainer) (feats : matrix) (graph : Graph)
    (n : nat) (mask : tensor) : result (matrix * list R) :=
  let M := model_to_explain self in
  let masked_pred := forward M feats graph (Some mask) in
  let original_pred := forward M feats graph None in
  match type self with
  | node =>
      let* mp := getitem masked_pred n in
      let* op := getitem original_pred n in
      Ok ([mp], op)
  | graph_task => Ok (masked_pred, concat original_pred)
  end.

(** Lines 228-237 for a given mask: the four terms of the example. *)
Definition masked_terms (self : PGExplainer) (feats : matrix) (graph : Graph)
    (n : nat) (mask : tensor) : result terms :=
  let* (masked_pred, original_pred) := predictions self feats graph n mask in
  let* target := argmax original_pred in
  let* l := _loss masked_pred [target] mask (reg_coefs self) in
  let '(cce_loss, size_loss, mask_ent_loss) := l in
  let* connectivity_loss := _connectivity_loss (reg_coefs self) graph mask in
  Ok (cce_loss, size_loss, mask_ent_loss, connectivity_loss).

(** * Properties *)

(** ** The sampler *)

Lemma sigmoid_bounds (x : R) : 0 < sigmoid x < 1.
Proof.
  unfold sigmoid.
  pose proof (exp_pos (- x)) as He.
  split.
  - apply Rdiv_lt_0_compat; lra.
  - apply Rmult_lt_reg_r with (1 + exp (- x)); [lra|].
    field_simplify; lra.
Qed.

Lemma Forall_map_sigmoid (l : list R) :
  Forall (fun m => 0 < m < 1) (map sigmoid l).
Proof.
  induction l as [|x l IH]; simpl; constructor; auto using sigmoid_bounds.
Qed.



Lemma training_mode_unfold `{Collaborators}
    (sampling_weights : list R) (temperature bias : R) (g : Rng) :
  _sample_graph sampling_weights temperature bias true g
    = (zip_with (training_gate temperature)
         (map (noise_eps (bias + 1 / 10000))
            (fst (torch_rand g (length sampling_weights))))
         sampling_weights,
       snd (torch_rand g (length sampling_weights))).
Proof.
  unfold _sample_graph.
  destruct (torch_rand g (length sampling_weights)) as [u g'] eqn:Hu; simpl.
  f_equal.
  clear Hu. revert sampling_weights.
  induction u as [|r u IH]; intros [|w ws]; simpl; try reflexivity.
  f_equal. apply IH.
Qed.






(** ** The temperature schedule *)

Lemma temp_schedule_ratio (s f : R) (n e : nat) :
  (0 < n)%nat ->
  temp_schedule (s, f) n (S e)
    = temp_schedule (s, f) n e * Rpower (f / s) (1 / INR n).
Proof.
  intros Hn. unfold temp_schedule; simpl fst; simpl snd.
  rewrite Rmult_assoc, <- Rpower_plus. do 2 f_equal.
  rewrite S_INR.
  assert (INR n <> 0) by (apply not_0_INR; lia).
  field. assumption.
Qed.

Lemma temp_schedule_decreasing (s f : R) (n e e' : nat) :
  0 < f < s -> (0 < n)%nat -> (e < e')%nat ->
  temp_schedule (s, f) n e' < temp_schedule (s, f) n e.
Proof.
  intros [Hf Hs] Hn He. unfold temp_schedule; simpl fst; simpl snd.
  apply Rmult_lt_compat_l; [lra|].
  unfold Rpower. apply exp_increasing.
  assert (Hln : ln (f / s) < 0).
  { rewrite <- ln_1. apply ln_increasing.
    - apply Rdiv_lt_0_compat; lra.
    - apply Rmult_lt_reg_r with s; [lra|]. unfold Rdiv.
      rewrite Rmult_assoc, Rinv_l by lra. lra. }
  assert (Hn' : 0 < INR n) by (apply lt_0_INR; lia).
  assert (Hee : INR e / INR n < INR e' / INR n).
  { apply Rmult_lt_compat_r; [apply Rinv_0_lt_compat; assumption|].
    apply lt_INR; assumption. }
  nra.
Qed.

Lemma temp_schedule_start (s f : R) (n : nat) :
  0 < f / s -> temp_schedule (s, f) n 0 = s.
Proof.
  intros Hpos. unfold temp_schedule; simpl.
  unfold Rdiv at 2. rewrite Rmult_0_l, Rpower_O by assumption. lra.
Qed.

Lemma temp_schedule_end (s f : R) (n : nat) :
  0 < s -> 0 < f -> (0 < n)%nat -> temp_schedule (s, f) n n = f.
Proof.
  intros Hs Hf Hn. unfold temp_schedule; simpl fst; simpl snd.
  assert (INR n <> 0) by (apply not_0_INR; lia).
  replace (INR n / INR n) with 1 by (field; assumption).
  rewrite Rpower_1 by (apply Rdiv_lt_0_compat; lra).
  field. lra.
Qed.

(** C10. The schedule is [start * (end / start) ^ (e / epochs)], a geometric
    sequence in the epoch; with start 5, end 2 and 10 epochs it is 5 at
    epoch 0, strictly decreasing from each epoch to the next, above 2 at the
    epochs 0..9, and would reach 2 at epoch 10. *)
Theorem temp_schedule_5_2_10 :
  (forall s f n e,
     temp_schedule (s, f) n e = s * Rpower (f / s) (INR e / INR n))
  /\ (forall e,
        temp_schedule (5, 2) 10 (S e)
          = temp_schedule (5, 2) 10 e * Rpower (2 / 5) (1 / 10))
  /\ temp_schedule (5, 2) 10 0 = 5
  /\ (forall e, temp_schedule (5, 2) 10 (S e) < temp_schedule (5, 2) 10 e)
  /\ Forall (fun e => 2 < temp_schedule (5, 2) 10 e) (seq 0 10)
  /\ temp_schedule (5, 2) 10 10 = 2.
Proof.
  assert (Hend : temp_schedule (5, 2) 10 10 = 2)
    by (apply temp_schedule_end; [lra | lra | lia]).
  split; [reflexivity|].
  split.
  { intros e. rewrite temp_schedule_ratio by lia. do 2 f_equal.
    simpl. lra. }
  split; [apply temp_schedule_start; lra|].
  split; [intros e; apply temp_schedule_decreasing; [lra | lia | lia]|].
  split; [|exact Hend].
  apply Forall_forall. intros e He.
  apply elem_of_seq in He.
  assert (Hlt : temp_schedule (5, 2) 10 10 < temp_schedule (5, 2) 10 e)
    by (apply temp_schedule_decreasing; [lra | lia | lia]).
  rewrite Hend in Hlt. exact Hlt.
Qed.

(** ** The error monad on lists *)

Lemma getitem_Ok {A : Type} (l : list A) (i : nat) (a : A) :
  getitem l i = Ok a <-> l !! i = Some a.
Proof.
  unfold getitem. destruct (l !! i); split; intros Heq; congruence.
Qed.

Lemma getitem_lt {A : Type} (l : list A) (i : nat) :
  (i < length l)%nat -> exists a, getitem l i = Ok a /\ l !! i = Some a.
Proof.
  intros Hi. destruct (lookup_lt_is_Some_2 l i Hi) as [a Ha].
  exists a. split; [apply getitem_Ok|]; assumption.
Qed.

Lemma mapM_Ok_inv {A B : Type} (f : A -> result B) (l : list A) (out : list B) :
  mapM f l = Ok out ->
  length out = length l
  /\ forall i a, l !! i = Some a -> exists b, f a = Ok b /\ out !! i = Some b.
Proof.
  revert out. induction l as [|a l IH]; intros out Hm; simpl in Hm.
  - injection Hm as <-. split; [reflexivity|]. intros i a Hi. discriminate.
  - destruct (f a) as [b|e] eqn:Hfa; simpl in Hm; [|discriminate].
    destruct (mapM f l) as [bs|e] eqn:Hml; simpl in Hm; [|discriminate].
    injection Hm as <-.
    destruct (IH bs eq_refl) as [Hlen Hlk].
    split; [simpl; congruence|].
    intros [|i] a' Hi; simpl in Hi.
    + injection Hi as <-. exists b. split; [assumption|reflexivity].
    + apply Hlk. assumption.
Qed.

Lemma mapM_total {A B : Type} (f : A -> result B) (l : list A) :
  Forall (fun a => exists b, f a = Ok b) l -> exists out, mapM f l = Ok out.
Proof.
  induction 1 as [|a l [b Hb] _ [bs Hbs]]; simpl.
  - exists []. reflexivity.
  - exists (b :: bs). rewrite Hb; simpl. rewrite Hbs; simpl. reflexivity.
Qed.

(** ** The explainer input *)

Lemma index_select_covered (embeds : matrix) (rows : list nat) :
  Forall (fun r => (r < length embeds)%nat) rows ->
  exists out,
    index_select embeds rows = Ok out
    /\ length out = length rows
    /\ forall i r, rows !! i = Some r -> out !! i = embeds !! r.
Proof.
  intros Hcov. unfold index_select.
  destruct (mapM_total (getitem embeds) rows) as [out Hout].
  { eapply Forall_impl; [exact Hcov|]. intros r Hr.
    destruct (getitem_lt embeds r Hr) as (a & Ha & _). exists a. exact Ha. }
  exists out. split; [assumption|].
  destruct (mapM_Ok_inv _ _ _ Hout) as [Hlen Hlk].
  split; [assumption|].
  intros i r Hi. destruct (Hlk i r Hi) as (b & Hb & ->).
  symmetry. apply getitem_Ok. assumption.
Qed.

(** C6. For an edge list and an embedding matrix with rows of width [d] that
    covers every endpoint (and the explained node, for a node task), the
    input builder returns one row per edge; row i is the embedding of the
    source of edge i followed by that of its target (width 2 d) for a graph
    task, and followed by the embedding of the explained node as well
    (width 3 d, the same last block in every row) for a node task: the width
    is the [expl_embedding] of [__init__]. *)
Theorem create_explainer_input_shape (ty : task) (pair : Graph)
    (embeds : matrix) (node_id d : nat) :
  Forall (fun row => length row = d) embeds ->
  Forall (fun e => (fst e < length embeds)%nat /\ (snd e < length embeds)%nat) pair ->
  (ty = node -> (node_id < length embeds)%nat) ->
  exists input_expl,
    _create_explainer_input ty pair embeds node_id = Ok input_expl
    /\ length input_expl = length pair
    /\ Forall (fun row => length row = expl_embedding ty d) input_expl
    /\ forall i u v, pair !! i = Some (u, v) ->
         exists eu ev,
           embeds !! u = Some eu /\ embeds !! v = Some ev
           /\ match ty with
              | graph_task => input_expl !! i = Some (eu ++ ev)
              | node =>
                  exists en, embeds !! node_id = Some en
                             /\ input_expl !! i = Some ((eu ++ ev) ++ en)
              end.
Proof.
  intros Hwidth Hcov Hnode.
  destruct (index_select_covered embeds (graph_row0 pair))
    as (re & Hre & Hrlen & Hrlk).
  { unfold graph_row0. apply Forall_fmap.
    eapply Forall_impl; [exact Hcov|]. intros e [He _]. exact He. }
  destruct (index_select_covered embeds (graph_row1 pair))
    as (ce & Hce & Hclen & Hclk).
  { unfold graph_row1. apply Forall_fmap.
    eapply Forall_impl; [exact Hcov|]. intros e [_ He]. exact He. }
  unfold graph_row0 in Hrlen, Hrlk. unfold graph_row1 in Hclen, Hclk.
  rewrite length_map in Hrlen, Hclen.
  assert (Hrow : forall i u v, pair !! i = Some (u, v) ->
            exists eu ev, embeds !! u = Some eu /\ embeds !! v = Some ev
              /\ re !! i = Some eu /\ ce !! i = Some ev
              /\ cat1 re ce !! i = Some (eu ++ ev)).
  { intros i u v Hi.
    assert (Hu : map fst pair !! i = Some u)
      by (rewrite list_lookup_fmap, Hi; reflexivity).
    assert (Hv : map snd pair !! i = Some v)
      by (rewrite list_lookup_fmap, Hi; reflexivity).
    apply Hrlk in Hu. apply Hclk in Hv.
    apply (Forall_lookup_1 _ _ _ _ Hcov) in Hi as [Hlu Hlv]; simpl in Hlu, Hlv.
    destruct (lookup_lt_is_Some_2 embeds u Hlu) as [eu Heu].
    destruct (lookup_lt_is_Some_2 embeds v Hlv) as [ev Hev].
    exists eu, ev. rewrite Heu in Hu. rewrite Hev in Hv.
    repeat split; try assumption.
    unfold cat1. rewrite lookup_zip_with, Hu, Hv. reflexivity. }
  assert (Hlen2 : length (cat1 re ce) = length pair).
  { unfold cat1. rewrite length_zip_with. lia. }
  unfold _create_explainer_input. rewrite Hre, Hce; simpl.
  destruct ty.
  - destruct (getitem_lt embeds node_id (Hnode eq_refl)) as (en & Hen & Hen').
    rewrite Hen; simpl.
    assert (Hlk3 : forall i u v, pair !! i = Some (u, v) ->
              exists eu ev, embeds !! u = Some eu /\ embeds !! v = Some ev
                /\ exists en0, embeds !! node_id = Some en0
                   /\ cat1 (cat1 re ce)
                        (replicate (length (graph_row0 pair)) en) !! i
                      = Some ((eu ++ ev) ++ en0)).
    { intros i u v Hi.
      destruct (Hrow i u v Hi) as (eu & ev & Heu & Hev & _ & _ & Hcat).
      exists eu, ev. repeat split; try assumption.
      exists en. split; [assumption|].
      unfold cat1 at 1. rewrite lookup_zip_with, Hcat; simpl.
      rewrite lookup_replicate_2; [reflexivity|].
      unfold graph_row0. rewrite length_map.
      apply lookup_lt_Some in Hi. exact Hi. }
    eexists. split; [reflexivity|].
    split.
    { unfold cat1 at 1. rewrite length_zip_with, Hlen2, length_replicate.
      unfold graph_row0. rewrite length_map. lia. }
    split; [|exact Hlk3].
    apply Forall_lookup_2. intros i row Hi.
    assert (Hip : (i < length pair)%nat).
    { apply lookup_lt_Some in Hi. unfold cat1 at 1 in Hi.
      rewrite length_zip_with, Hlen2 in Hi. lia. }
    destruct (lookup_lt_is_Some_2 pair i Hip) as [[u v] Huv].
    destruct (Hlk3 i u v Huv) as (eu & ev & Heu & Hev & en0 & Hen0 & Hrowi).
    rewrite Hrowi in Hi. injection Hi as <-.
    rewrite !length_app.
    rewrite (Forall_lookup_1 _ _ _ _ Hwidth Heu).
    rewrite (Forall_lookup_1 _ _ _ _ Hwidth Hev).
    rewrite (Forall_lookup_1 _ _ _ _ Hwidth Hen0).
    simpl. lia.
  - eexists. split; [reflexivity|].
    split; [exact Hlen2|].
    split.
    + apply Forall_lookup_2. intros i row Hi.
      assert (Hip : (i < length pair)%nat).
      { apply lookup_lt_Some in Hi. rewrite Hlen2 in Hi. exact Hi. }
      destruct (lookup_lt_is_Some_2 pair i Hip) as [[u v] Huv].
      destruct (Hrow i u v Huv) as (eu & ev & Heu & Hev & _ & _ & Hrowi).
      rewrite Hrowi in Hi. injection Hi as <-.
      rewrite length_app.
      rewrite (Forall_lookup_1 _ _ _ _ Hwidth Heu).
      rewrite (Forall_lookup_1 _ _ _ _ Hwidth Hev).
      simpl. lia.
    + intros i u v Hi.
      destruct (Hrow i u v Hi) as (eu & ev & Heu & Hev & _ & _ & Hcat).
      exists eu, ev. repeat split; assumption.
Qed.

Lemma create_explainer_input_shape_witness :
  exists input_expl,
    _create_explainer_input node [(0, 1); (1, 0)]%nat [[1; 2]; [3; 4]] 0
      = Ok input_expl
    /\ length input_expl = 2%nat
    /\ Forall (fun row => length row = expl_embedding node 2) input_expl
    /\ forall i u v, [(0, 1); (1, 0)]%nat !! i = Some (u, v) ->
         exists eu ev,
           [[1; 2]; [3; 4]] !! u = Some eu /\ [[1; 2]; [3; 4]] !! v = Some ev
           /\ exists en, [[1; 2]; [3; 4]] !! 0%nat = Some en
                         /\ input_expl !! i = Some ((eu ++ ev) ++ en).
Proof.
  apply (create_explainer_input_shape node [(0, 1); (1, 0)]%nat
           [[1; 2]; [3; 4]] 0 2).
  - repeat constructor.
  - repeat constructor.
  - intros _. simpl. lia.
Defined.

(** ** The connectivity loss *)

(** Groups of a single mask have no pair and leave [mean_all_starts] the
    Python integer 0. *)
Lemma sum_group_means_singletons (total_mask_score : list (list R)) :
  Forall (fun masks => length masks = 1%nat) total_mask_score ->
  sum_group_means total_mask_score (PyInt 0) = Ok (PyInt 0).
Proof.
  induction 1 as [|masks rest Hone _ IH]; simpl; [reflexivity|].
  destruct masks as [|x [|y masks]]; simpl in Hone; try discriminate.
  simpl. exact IH.
Qed.

(** When no two sources are equal, every change of source closes a group of
    one mask: the loop ends with one singleton group per edge seen, except
    the group still open. *)
Lemma collect_adjacent_distinct (starts : list nat) :
  forall (idx : nat) (xs : list R) (start_node : nat)
         (adjacent_masks : list R) (total_mask_score : list (list R)),
    NoDup (start_node :: starts) ->
    (idx + length starts <= length xs)%nat ->
    length adjacent_masks = 1%nat ->
    Forall (fun masks => length masks = 1%nat) total_mask_score ->
    exists total,
      collect_adjacent starts idx (Vector xs) start_node adjacent_masks
        total_mask_score = Ok total
      /\ Forall (fun masks => length masks = 1%nat) total
      /\ length total = (length total_mask_score + length starts)%nat.
Proof.
  induction starts as [|start rest IH];
    intros idx xs start_node adjacent_masks total_mask_score Hnd Hlen Hadj Hall.
  - exists total_mask_score. simpl. repeat split; [assumption | lia].
  - simpl in Hlen. simpl.
    assert (Hne : start_node <> start).
    { apply NoDup_cons in Hnd as [Hnotin _]. intros ->.
      apply Hnotin. left. }
    apply Nat.eqb_neq in Hne. rewrite Hne.
    destruct (getitem_lt xs idx ltac:(lia)) as (m & Hm & _).
    rewrite Hm; simpl.
    destruct (IH (S idx) xs start ([] ++ [m])
                (total_mask_score ++ [adjacent_masks]))
      as (total & Htotal & Hsingle & Hcount).
    + apply NoDup_cons in Hnd as [_ Hnd]. exact Hnd.
    + lia.
    + reflexivity.
    + apply Forall_app. split; [assumption|]. repeat constructor. assumption.
    + exists total. split; [exact Htotal|]. split; [exact Hsingle|].
      rewrite Hcount, length_app. simpl. lia.
Qed.

(** With at least two edges, pairwise distinct sources (every node has one
    outgoing edge), a coefficient at position 2 and a mask entry per edge,
    the connectivity loss is defined and is 0. *)
Lemma connectivity_loss_distinct_sources (reg_coefs : list R)
    (graph : Graph) (xs : list R) :
  (3 <= length reg_coefs)%nat ->
  NoDup (graph_row0 graph) ->
  (2 <= length graph)%nat ->
  (length graph <= length xs)%nat ->
  exists v, _connectivity_loss reg_coefs graph (Vector xs) = Ok v /\ v = 0.
Proof.
  intros Hrc Hnd Hge Hxs.
  destruct graph as [|[s0 d0] rest]; [simpl in Hge; lia|].
  simpl in Hge, Hxs.
  destruct (getitem_lt reg_coefs 2 ltac:(lia)) as (conn_reg & Hconn & _).
  destruct (getitem_lt xs 0 ltac:(lia)) as (m0 & Hm0 & _).
  unfold _connectivity_loss. rewrite Hconn. simpl.
  rewrite Nat.eqb_refl, Hm0. simpl.
  destruct (collect_adjacent_distinct (map fst rest) 1 xs s0 [m0] [])
    as (total & Htotal & Hsingle & Hcount).
  - exact Hnd.
  - rewrite length_map. lia.
  - reflexivity.
  - constructor.
  - fold (graph_row0 rest) in Htotal. rewrite Htotal. simpl.
    rewrite (sum_group_means_singletons total Hsingle). simpl.
    rewrite length_map in Hcount. simpl in Hcount.
    destruct (length total) as [|k] eqn:Hk; [lia|].
    simpl. eexists. split; [reflexivity|].
    unfold Rdiv. rewrite Rmult_0_l, Rmult_0_r. reflexivity.
Qed.

(** Only the integer 0 can meet an empty [total_mask_score]: a tensor is
    never divided by zero on line 142. *)
Lemma sum_group_means_tensor (total_mask_score : list (list R)) (x : R) :
  sum_group_means total_mask_score (PyInt 0) = Ok (PyTensor x) ->
  total_mask_score <> [].
Proof.
  intros Hs ->. simpl in Hs. discriminate.
Qed.

(** C1. On a graph with a single edge (a node with a self-loop is the graph
    in which every node has exactly one outgoing edge) the only group is
    still open when the first loop ends, [total_mask_score] is empty, and
    [mean_all_starts / len(total_mask_score)] divides the integer 0 by 0. *)
Theorem connectivity_loss_single_edge_raises :
  forall (size_reg entropy_reg conn_reg : R) (u v : nat) (m : R),
    _connectivity_loss [size_reg; entropy_reg; conn_reg] [(u, v)] (Vector [m])
      = Raise ZeroDivisionError.
Proof.
  intros size_reg entropy_reg conn_reg u v m.
  unfold _connectivity_loss. simpl.
  rewrite Nat.eqb_refl. reflexivity.
Qed.

(** The same holds for every graph whose edges all leave the same node. *)
Lemma collect_adjacent_one_run (starts : list nat) :
  forall (idx : nat) (xs : list R) (start_node : nat)
         (adjacent_masks : list R),
    Forall (fun s => s = start_node) starts ->
    (idx + length starts <= length xs)%nat ->
    collect_adjacent starts idx (Vector xs) start_node adjacent_masks [] = Ok [].
Proof.
  induction starts as [|start rest IH];
    intros idx xs start_node adjacent_masks Hall Hlen; simpl; [reflexivity|].
  apply Forall_cons in Hall as [-> Hall]. simpl in Hlen.
  rewrite Nat.eqb_refl.
  destruct (getitem_lt xs idx ltac:(lia)) as (m & Hm & _).
  rewrite Hm; simpl. apply IH; [assumption | lia].
Qed.

Lemma connectivity_loss_one_run_raises (reg_coefs : list R)
    (graph : Graph) (xs : list R) (s : nat) :
  (3 <= length reg_coefs)%nat ->
  graph <> [] ->
  Forall (fun e => fst e = s) graph ->
  (length graph <= length xs)%nat ->
  _connectivity_loss reg_coefs graph (Vector xs) = Raise ZeroDivisionError.
Proof.
  intros Hrc Hne Hall Hxs.
  destruct graph as [|[s0 d0] rest]; [congruence|].
  destruct (getitem_lt reg_coefs 2 ltac:(lia)) as (conn_reg & Hconn & _).
  unfold _connectivity_loss. rewrite Hconn.
  cbn [bind graph_row0 map fst getitem lookup list_lookup].
  rewrite collect_adjacent_one_run with (start_node := s0).
  - reflexivity.
  - apply Forall_cons in Hall as [Hs0 Hall]. simpl in Hs0. subst s.
    constructor; [reflexivity|]. apply Forall_fmap.
    eapply Forall_impl; [exact Hall|]. intros e He. exact He.
  - simpl. rewrite length_map. simpl in Hxs. lia.
Qed.

(** ** The loss of one example *)

Ltac inv_bind H :=
  match type of H with
  | bind ?m _ = Ok _ =>
      let E := fresh "E" in
      destruct m eqn:E; cbn [bind] in H; [|discriminate H]
  end.

Lemma loss_inv (masked_pred : matrix) (original_pred : list nat)
    (mask : tensor) (rc : list R) (cce_loss size_loss mask_ent_loss : R) :
  _loss masked_pred original_pred mask rc = Ok (cce_loss, size_loss, mask_ent_loss) ->
  exists size_reg entropy_reg,
    rc !! 0%nat = Some size_reg /\ rc !! 1%nat = Some entropy_reg
    /\ cross_entropy masked_pred original_pred = Ok cce_loss
    /\ size_loss = rsum (elems mask) * size_reg
    /\ mask_ent_loss = entropy_reg * rmean (map binary_entropy (elems mask)).
Proof.
  unfold _loss. intros Hl.
  inv_bind Hl. inv_bind Hl. inv_bind Hl.
  injection Hl as <- <- <-.
  apply getitem_Ok in E, E0.
  eexists _, _. repeat split; eassumption.
Qed.

Lemma connectivity_loss_inv (rc : list R) (graph : Graph) (mask : tensor)
    (connectivity_loss : R) :
  _connectivity_loss rc graph mask = Ok connectivity_loss ->
  exists conn_reg mean_conn_loss,
    rc !! 2%nat = Some conn_reg
    /\ connectivity_loss = conn_reg * mean_conn_loss.
Proof.
  unfold _connectivity_loss. intros Hc.
  inv_bind Hc. inv_bind Hc. inv_bind Hc. inv_bind Hc. inv_bind Hc.
  injection Hc as <-. apply getitem_Ok in E.
  eexists _, _. split; [eassumption | reflexivity].
Qed.

(** What a successful pass over one example has computed: the graph, the
    mask, the masked prediction and the class of the original prediction
    that went into [_loss] and [_connectivity_loss]. *)
Lemma example_terms_inv `{Collaborators} (self : PGExplainer) (P : MLP)
    (node_embeds : matrix) (t : R) (n : nat) (g g' : Rng)
    (cce_loss size_loss mask_ent_loss connectivity_loss : R) :
  example_terms self P node_embeds t n g
    = Ok ((cce_loss, size_loss, mask_ent_loss, connectivity_loss), g') ->
  exists (graph : Graph) (mask : tensor) (masked_pred : matrix)
         (original_pred : list R) (target : nat),
    argmax original_pred = Ok target
    /\ _loss masked_pred [target] mask (reg_coefs self)
         = Ok (cce_loss, size_loss, mask_ent_loss)
    /\ _connectivity_loss (reg_coefs self) graph mask = Ok connectivity_loss.
Proof.
  unfold example_terms. intros He.
  inv_bind He. destruct a as [[[graph mask] [[c s] en]] g0].
  inv_bind He. injection He as <- <- <- <- <-.
  rename E into Hf. unfold example_forward in Hf. cbv zeta in Hf.
  inv_bind Hf. destruct a0 as [[feats graph0] embeds].
  inv_bind Hf. inv_bind Hf.
  destruct (_sample_graph a1 t (sample_bias self) true g) as [m g1] eqn:Hs.
  inv_bind Hf. destruct a2 as [masked_pred original_pred].
  inv_bind Hf. inv_bind Hf. injection Hf as <- <- <- <-.
  exists graph0, (squeeze m), masked_pred, original_pred, a2.
  repeat split; assumption.
Qed.

(** ** A closed run: the toy graph task *)

Lemma toy_logits_ok :
  exists a b, explainer_model_apply toy_mlp [[1; 2]; [2; 1]] = Ok [a; b].
Proof.
  unfold explainer_model_apply, toy_mlp, mlp_row.
  cbn -[relu Rplus Rmult Rdiv IZR].
  eexists _, _. reflexivity.
Qed.

Lemma replay_sample_two (a b t bias : R) (tape : list R) :
  exists m1 m2,
    @_sample_graph replay [a; b] t bias true tape = ([m1; m2], drop 2 tape).
Proof.
  rewrite training_mode_unfold.
  destruct tape as [|x [|y tape]]; simpl; eexists _, _; reflexivity.
Qed.

Lemma argmax_0_1 : argmax [0; 1] = Ok 1%nat.
Proof.
  unfold argmax, argmax_from. destruct (Rlt_dec 0 1) as [_|Hn]; [reflexivity|].
  exfalso. apply Hn. lra.
Qed.

Lemma toy_example_forward_ok (rc : list R) (size_reg entropy_reg : R)
    (k : nat) (t : R) (tape : list R) :
  rc !! 0%nat = Some size_reg ->
  rc !! 1%nat = Some entropy_reg ->
  exists m1 m2 l,
    @example_forward replay (toy_explainer [two_cycle] k rc) toy_mlp [] t 0 tape
      = Ok (two_cycle, Vector [m1; m2], l, drop 2 tape).
Proof.
  intros H0 H1.
  destruct toy_logits_ok as (a & b & Hab).
  destruct (replay_sample_two a b t default_sample_bias tape)
    as (m1 & m2 & Hm).
  exists m1, m2.
  unfold example_forward, toy_explainer.
  cbn [data model_to_explain bind getitem lookup list_lookup map fst snd type
       reg_coefs sample_bias embedding forward toy_model].
  change (_create_explainer_input graph_task two_cycle [[1]; [2]] 0)
    with (Ok [[1; 2]; [2; 1]]).
  cbn [bind]. rewrite Hab. cbn [bind]. rewrite Hm.
  cbn [squeeze concat app]. rewrite argmax_0_1. cbn [bind].
  unfold _loss, getitem. rewrite H0, H1. cbn [bind].
  unfold cross_entropy, nll_row.
  cbn [length Nat.eqb zip zip_with mapM bind fst snd getitem lookup list_lookup].
  eexists. reflexivity.
Qed.

Lemma toy_example_terms_ok (rc : list R) (size_reg entropy_reg conn_reg : R)
    (k : nat) (t : R) (tape : list R) :
  rc !! 0%nat = Some size_reg ->
  rc !! 1%nat = Some entropy_reg ->
  rc !! 2%nat = Some conn_reg ->
  exists l, @example_terms replay (toy_explainer [two_cycle] k rc)
              toy_mlp [] t 0 tape = Ok (l, drop 2 tape).
Proof.
  intros H0 H1 H2.
  destruct (toy_example_forward_ok rc size_reg entropy_reg k t tape H0 H1)
    as (m1 & m2 & [[c s] en] & Hf).
  destruct (connectivity_loss_distinct_sources rc two_cycle [m1; m2])
    as (v & Hv & _).
  { apply lookup_lt_Some in H2. lia. }
  { apply (bool_decide_unpack _). reflexivity. }
  { simpl. lia. }
  { simpl. lia. }
  unfold example_terms. rewrite Hf. cbn [bind].
  change (reg_coefs (toy_explainer [two_cycle] k rc)) with rc.
  rewrite Hv. cbn [bind]. eexists. reflexivity.
Qed.

(** ** The training loop *)

Lemma rsum_cons (x : R) (l : list R) : rsum (x :: l) = x + rsum l.
Proof. reflexivity. Qed.

Lemma sweep_accumulates `{Collaborators} (self : PGExplainer) (P : MLP)
    (node_embeds : matrix) (t : R) (indices : list nat) :
  forall (acc acc' : totals) (g g' : Rng),
    sweep self P node_embeds t indices acc g = Ok (acc', g') ->
    exists ls,
      sweep_terms self P node_embeds t indices g = Ok (ls, g')
      /\ length ls = length indices
      /\ loss acc' = loss acc + rsum (map terms_total ls)
      /\ total_pred_loss acc' = total_pred_loss acc + rsum (map cce_of ls)
      /\ total_size_loss acc' = total_size_loss acc + rsum (map size_of ls)
      /\ total_ent_loss acc' = total_ent_loss acc + rsum (map ent_of ls)
      /\ total_conn_loss acc' = total_conn_loss acc + rsum (map conn_of ls)
      /\ requires_grad acc'
           = (requires_grad acc || negb (Nat.eqb (length indices) 0))%bool.
Proof.
  induction indices as [|n rest IH]; intros acc acc' g g' Hs; simpl in Hs.
  - injection Hs as <- <-. exists []. simpl.
    rewrite orb_false_r. repeat split; lra.
  - inv_bind Hs. destruct a as [l g1].
    apply IH in Hs
      as (ls & Hls & Hlen & Hloss & Hpred & Hsize & Hent & Hconn & Hgrad).
    exists (l :: ls). cbn [sweep_terms]. rewrite E; cbn [bind].
    rewrite Hls; cbn [bind].
    destruct l as [[[c s] en] k].
    simpl in Hloss, Hpred, Hsize, Hent, Hconn, Hgrad.
    rewrite !map_cons, !rsum_cons.
    cbn [terms_total cce_of size_of ent_of conn_of fst snd length Nat.eqb negb].
    rewrite orb_true_r.
    repeat split; try congruence; lra.
Qed.

Lemma train_epoch_events `{Collaborators} (self : PGExplainer)
    (node_embeds : matrix) (indices : list nat) (st st' : TrainState) (e : nat) :
  train_epoch self node_embeds indices st e = Ok st' ->
  exists ls,
    sweep_terms self (explainer_model st) node_embeds
      (temp_schedule (temp self) (epochs self) e) indices (rng st)
      = Ok (ls, rng st')
    /\ length ls = length indices
    /\ trace st' = trace st ++ epoch_events e ls.
Proof.
  unfold train_epoch. intros Ht. cbv zeta in Ht.
  inv_bind Ht. destruct a as [acc g']. inv_bind Ht.
  destruct (adam_step (optimizer st) (explainer_model st) a) as [opt' P'].
  injection Ht as <-.
  apply sweep_accumulates in E
    as (ls & Hls & Hlen & Hloss & Hpred & Hsize & Hent & Hconn & _).
  exists ls. simpl. split; [exact Hls|]. split; [exact Hlen|].
  unfold epoch_events. rewrite Hlen.
  simpl in Hloss, Hpred, Hsize, Hent, Hconn.
  rewrite Rplus_0_l in Hloss, Hpred, Hsize, Hent, Hconn.
  rewrite Hloss, Hpred, Hsize, Hent, Hconn. reflexivity.
Qed.

Lemma count_events_app (p : event -> bool) (tr1 tr2 : list event) :
  count_events p (tr1 ++ tr2) = (count_events p tr1 + count_events p tr2)%nat.
Proof.
  unfold count_events. rewrite List.filter_app, length_app. reflexivity.
Qed.

Lemma epoch_events_backward (e : nat) (ls : list terms) :
  count_events is_backward (epoch_events e ls) = 1%nat.
Proof. reflexivity. Qed.

Lemma epoch_events_step (e : nat) (ls : list terms) :
  count_events is_step (epoch_events e ls) = 1%nat.
Proof. reflexivity. Qed.

Lemma train_epochs_counts `{Collaborators} (self : PGExplainer)
    (node_embeds : matrix) (indices : list nat) (es : list nat) :
  forall st st',
    train_epochs self node_embeds indices es st = Ok st' ->
    count_events is_backward (trace st')
      = (count_events is_backward (trace st) + length es)%nat
    /\ count_events is_step (trace st')
         = (count_events is_step (trace st) + length es)%nat.
Proof.
  induction es as [|e rest IH]; intros st st' Ht; simpl in Ht.
  - injection Ht as <-. simpl. lia.
  - inv_bind Ht. apply IH in Ht as [Hb Hs].
    apply train_epoch_events in E as (ls & _ & _ & Htr).
    rewrite Htr, !count_events_app in Hb, Hs.
    rewrite epoch_events_backward in Hb. rewrite epoch_events_step in Hs.
    simpl. lia.
Qed.

Lemma train_epochs_trace `{Collaborators} (self : PGExplainer)
    (node_embeds : matrix) (indices : list nat) (es : list nat) :
  forall st st',
    train_epochs self node_embeds indices es st = Ok st' ->
    exists lss : list (list terms),
      length lss = length es
      /\ Forall (fun ls => length ls = length indices) lss
      /\ trace st' = trace st ++ concat (zip_with epoch_events es lss).
Proof.
  induction es as [|e rest IH]; intros st st' Ht; simpl in Ht.
  - injection Ht as <-. exists []. simpl. rewrite app_nil_r.
    repeat split. constructor.
  - inv_bind Ht. apply IH in Ht as (lss & Hlen & Hall & Htr).
    apply train_epoch_events in E as (ls & _ & Hls & Htr1).
    exists (ls :: lss). simpl. split; [congruence|].
    split; [constructor; assumption|].
    rewrite Htr, Htr1, <- app_assoc. reflexivity.
Qed.

(** The function that [loss.backward()] differentiates: for any parameters
    of the mask predictor, the plain sum of the per-example totals of the
    sweep, not divided by the number of indices. *)
Lemma sweep_loss_sum `{Collaborators} (self : PGExplainer) (P : MLP)
    (node_embeds : matrix) (t : R) (indices : list nat) :
  forall (acc : totals) (g : Rng),
    (let* (acc', _) := sweep self P node_embeds t indices acc g in
     Ok (loss acc'))
    = (let* (ls, _) := sweep_terms self P node_embeds t indices g in
       Ok (loss acc + rsum (map terms_total ls))).
Proof.
  induction indices as [|n rest IH]; intros acc g; cbn [sweep sweep_terms bind].
  - cbn [map rsum foldr]. rewrite Rplus_0_r. reflexivity.
  - destruct (example_terms self P node_embeds t n g) as [[l g1]|e];
      cbn [bind]; [|reflexivity].
    rewrite IH.
    destruct (sweep_terms self P node_embeds t rest g1) as [[ls g2]|e];
      cbn [bind]; [|reflexivity].
    destruct l as [[[c s] en] k].
    cbn [accumulate loss map terms_total]. rewrite rsum_cons.
    f_equal. lra.
Qed.

(** What one epoch does to the mask predictor and the optimizer. *)
Lemma train_epoch_update `{Collaborators} (self : PGExplainer)
    (node_embeds : matrix) (indices : list nat) (st st' : TrainState) (e : nat) :
  train_epoch self node_embeds indices st e = Ok st' ->
  exists f : MLP -> result R,
    (forall P',
        f P' = (let* (ls', _) :=
                  sweep_terms self P' node_embeds
                    (temp_schedule (temp self) (epochs self) e) indices (rng st) in
                Ok (rsum (map terms_total ls'))))
    /\ (optimizer st', explainer_model st')
       = adam_step (optimizer st) (explainer_model st)
           (autograd f (explainer_model st)).
Proof.
  unfold train_epoch. intros Ht. cbv zeta in Ht.
  inv_bind Ht. destruct a as [acc g']. inv_bind Ht.
  rename E0 into Hb. unfold backward in Hb.
  destruct (requires_grad acc); [|discriminate Hb].
  injection Hb as <-.
  match type of Ht with
  | context [autograd ?f0 _] => exists f0
  end.
  split.
  - intros P'. rewrite sweep_loss_sum.
    destruct (sweep_terms self P' node_embeds _ indices (rng st))
      as [[ls' g2]|e']; cbn [bind]; [|reflexivity].
    cbn [zero_totals loss]. rewrite Rplus_0_l. reflexivity.
  - destruct (adam_step _ _ _) as [opt' P'] eqn:Hstep.
    injection Ht as <-. reflexivity.
Qed.

(** A run is the chain of its epochs: the states between the epochs, from
    the initial one to the final one. *)
Lemma train_epochs_states `{Collaborators} (self : PGExplainer)
    (node_embeds : matrix) (indices : list nat) (es : list nat) :
  forall st st',
    train_epochs self node_embeds indices es st = Ok st' ->
    exists sts : list TrainState,
      length sts = S (length es)
      /\ sts !! 0%nat = Some st
      /\ sts !! length es = Some st'
      /\ forall i e s s',
           es !! i = Some e -> sts !! i = Some s -> sts !! S i = Some s' ->
           train_epoch self node_embeds indices s e = Ok s'.
Proof.
  induction es as [|e rest IH]; intros st st' Ht; cbn [train_epochs] in Ht.
  - injection Ht as <-. exists [st]. repeat split.
    intros i e s s' Hi. destruct i; discriminate Hi.
  - inv_bind Ht. rename a into st1.
    apply IH in Ht as (sts & Hlen & Hhd & Hlast & Hstep).
    exists (st :: sts). cbn [length]. split; [congruence|].
    split; [reflexivity|]. split; [exact Hlast|].
    intros i e' s s' Hi Hs Hs'. destruct i as [|i].
    + change (Some e = Some e') in Hi. change (Some st = Some s) in Hs.
      change (sts !! 0%nat = Some s') in Hs'. rewrite Hhd in Hs'.
      injection Hi as <-. injection Hs as <-. injection Hs' as <-. exact E.
    + change (rest !! i = Some e') in Hi. change (sts !! i = Some s) in Hs.
      change (sts !! S i = Some s') in Hs'.
      eapply Hstep; eassumption.
Qed.

(** C3. Every epoch that completes has swept all the indices, summed the
    per-example totals (fidelity + size + entropy + connectivity) without
    dividing, run one backward pass on that sum followed by one optimizer
    step, and only then logged the sums divided by the number of indices:
    the function differentiated is the undivided sum of the sweep as a
    function of the parameters, and the parameters and the optimizer state
    after the epoch are one Adam step on its gradient.  A training run that
    completes is the chain of these epochs, numbered from 0, each starting
    from the state the one before left, with as many backward passes and
    optimizer steps as epochs. *)
Theorem train_one_update_per_epoch `{Collaborators} (self : PGExplainer)
    (indices : list nat) :
  (forall (node_embeds : matrix) (st st' : TrainState) (e : nat),
     train_epoch self node_embeds indices st e = Ok st' ->
     exists ls,
       sweep_terms self (explainer_model st) node_embeds
         (temp_schedule (temp self) (epochs self) e) indices (rng st)
         = Ok (ls, rng st')
       /\ length ls = length indices
       /\ trace st' = trace st ++
            [ ZeroGrad;
              Backward (rsum (map terms_total ls));
              OptimizerStep;
              AddScalar "norm loss"
                (rsum (map terms_total ls) / INR (length indices)) e;
              AddScalar "size loss"
                (rsum (map size_of ls) / INR (length indices)) e;
              AddScalar "conn loss"
                (rsum (map conn_of ls) / INR (length indices)) e;
              AddScalar "pred loss"
                (rsum (map cce_of ls) / INR (length indices)) e;
              AddScalar "ent loss"
                (rsum (map ent_of ls) / INR (length indices)) e ]
       /\ exists f : MLP -> result R,
            (forall P',
                f P' = (let* (ls', _) :=
                          sweep_terms self P' node_embeds
                            (temp_schedule (temp self) (epochs self) e)
                            indices (rng st) in
                        Ok (rsum (map terms_total ls'))))
            /\ (optimizer st', explainer_model st')
               = adam_step (optimizer st) (explainer_model st)
                   (autograd f (explainer_model st)))
  /\ (forall (P : MLP) (g : Rng) (st : TrainState),
        train self P g indices = Ok st ->
        (exists lss : list (list terms),
            length lss = epochs self
            /\ Forall (fun ls => length ls = length indices) lss
            /\ trace st
               = concat (zip_with epoch_events (seq 0 (epochs self)) lss))
        /\ count_events is_backward (trace st) = epochs self
        /\ count_events is_step (trace st) = epochs self
        /\ exists sts : list TrainState,
             length sts = S (epochs self)
             /\ sts !! 0%nat
                = Some {| explainer_model := P;
                          optimizer := adam_init (lr self) P;
                          rng := g;
                          trace := [] |}
             /\ sts !! epochs self = Some st
             /\ forall e s s',
                  (e < epochs self)%nat ->
                  sts !! e = Some s -> sts !! S e = Some s' ->
                  train_epoch self (precomputed_embeds self) indices s e
                  = Ok s').
Proof.
  split.
  - intros node_embeds st st' e Ht.
    pose proof (train_epoch_update self node_embeds indices st st' e Ht)
      as Hupd.
    apply train_epoch_events in Ht as (ls & Hls & Hlen & Htr).
    exists ls. split; [exact Hls|]. split; [exact Hlen|].
    split; [|exact Hupd].
    rewrite Htr. unfold epoch_events. rewrite Hlen. reflexivity.
  - intros P g st Ht. unfold train in Ht. cbv zeta in Ht.
    split; [|split; [|split]].
    + apply train_epochs_trace in Ht as (lss & Hlen & Hall & Htr).
      exists lss. rewrite length_seq in Hlen. auto.
    + apply train_epochs_counts in Ht. simpl in Ht.
      rewrite length_seq in Ht. apply Ht.
    + apply train_epochs_counts in Ht. simpl in Ht.
      rewrite length_seq in Ht. apply Ht.
    + apply train_epochs_states in Ht as (sts & Hlen & Hhd & Hlast & Hstep).
      rewrite length_seq in Hlen, Hlast.
      exists sts. split; [exact Hlen|]. split; [exact Hhd|].
      split; [exact Hlast|].
      intros e s s' He Hs Hs'.
      apply (Hstep e e s s'); [|exact Hs|exact Hs'].
      rewrite lookup_seq. split; [reflexivity | exact He].
Qed.

Lemma toy_train_epoch_ok (rc : list R) (size_reg entropy_reg conn_reg : R)
    (k : nat) (st : @TrainState replay) (e : nat) :
  rc !! 0%nat = Some size_reg ->
  rc !! 1%nat = Some entropy_reg ->
  rc !! 2%nat = Some conn_reg ->
  explainer_model st = toy_mlp ->
  exists st',
    @train_epoch replay (toy_explainer [two_cycle] k rc) [] [0%nat] st e
      = Ok st'
    /\ explainer_model st' = toy_mlp.
Proof.
  intros H0 H1 H2 HP.
  destruct (toy_example_terms_ok rc size_reg entropy_reg conn_reg k
              (temp_schedule default_temp k e) (rng st) H0 H1 H2)
    as [l Hl].
  unfold train_epoch. cbv zeta. rewrite HP.
  cbn [sweep].
  change (temp (toy_explainer [two_cycle] k rc)) with default_temp.
  change (epochs (toy_explainer [two_cycle] k rc)) with k.
  rewrite Hl. cbn [bind].
  destruct l as [[[c s] en] cn].
  cbn [accumulate backward requires_grad bind adam_step replay].
  eexists. split; reflexivity.
Qed.

Lemma toy_train_epochs_ok (rc : list R) (size_reg entropy_reg conn_reg : R)
    (k : nat) (es : list nat) :
  rc !! 0%nat = Some size_reg ->
  rc !! 1%nat = Some entropy_reg ->
  rc !! 2%nat = Some conn_reg ->
  forall st : @TrainState replay,
    explainer_model st = toy_mlp ->
    exists st',
      @train_epochs replay (toy_explainer [two_cycle] k rc) [] [0%nat]
        es st = Ok st'.
Proof.
  intros H0 H1 H2.
  induction es as [|e rest IH]; intros st HP; simpl.
  - exists st. reflexivity.
  - destruct (toy_train_epoch_ok rc size_reg entropy_reg conn_reg k
                st e H0 H1 H2 HP) as (st1 & Hst1 & HP1).
    rewrite Hst1. cbn [bind]. apply IH. exact HP1.
Qed.

Lemma toy_train_ok (rc : list R) (size_reg entropy_reg conn_reg : R)
    (k : nat) (tape : list R) :
  rc !! 0%nat = Some size_reg ->
  rc !! 1%nat = Some entropy_reg ->
  rc !! 2%nat = Some conn_reg ->
  exists st,
    @train replay (toy_explainer [two_cycle] k rc) toy_mlp tape [0%nat]
      = Ok st.
Proof.
  intros H0 H1 H2. unfold train.
  eapply toy_train_epochs_ok; [exact H0 | exact H1 | exact H2 | reflexivity].
Qed.

Lemma train_one_update_per_epoch_witness :
  exists st,
    @train replay (toy_explainer [two_cycle] 2 [5 / 100; 1; 1]) toy_mlp
       [1 / 2; 1 / 4; 3 / 4; 1 / 8] [0%nat] = Ok st
    /\ count_events is_backward (trace st) = 2%nat
    /\ count_events is_step (trace st) = 2%nat.
Proof.
  destruct (toy_train_ok [5 / 100; 1; 1] (5 / 100) 1 1 2
              [1 / 2; 1 / 4; 3 / 4; 1 / 8] eq_refl eq_refl eq_refl)
    as [st Hst].
  exists st. split; [exact Hst|].
  destruct (proj2 (@train_one_update_per_epoch replay
                     (toy_explainer [two_cycle] 2 [5 / 100; 1; 1]) [0%nat])
              toy_mlp [1 / 2; 1 / 4; 3 / 4; 1 / 8] st Hst)
    as (_ & Hb & Hs & _).
  split; [exact Hb | exact Hs].
Defined.

(** ** Too few regularization coefficients *)

Lemma connectivity_loss_short_coefs (rc : list R) (graph : Graph)
    (mask : tensor) :
  (length rc < 3)%nat -> _connectivity_loss rc graph mask = Raise IndexError.
Proof.
  intros Hrc. unfold _connectivity_loss, getitem.
  rewrite (lookup_ge_None_2 rc 2) by lia. reflexivity.
Qed.







(** ** The explanation extractor *)

(** C8. [explain] leaves the random generator as it found it, so a second
    call on the same mask predictor, explained model and dataset returns
    the same pair of edge list and weight vector (or raises the same
    exception) as the first; the result does not depend on the generator at
    all. *)
Theorem explain_deterministic `{Collaborators} (self : PGExplainer) (P : MLP)
    (index : nat) :
  (forall g, snd (explain self P index g) = g)
  /\ (forall g,
        explain self P index (snd (explain self P index g))
          = explain self P index g)
  /\ (forall g1 g2,
        fst (explain self P index g1) = fst (explain self P index g2)).
Proof.
  assert (Hsnd : forall g, snd (explain self P index g) = g).
  { intros g. unfold explain.
    destruct (explain_logits self P index) as [[graph ws]|e]; reflexivity. }
  split; [exact Hsnd|].
  split.
  - intros g. rewrite Hsnd. reflexivity.
  - intros g1 g2. unfold explain.
    destruct (explain_logits self P index) as [[graph ws]|e]; reflexivity.
Qed.

(** A single logit is squeezed to a 0-d mask, and [mask.size(0)] raises. *)
Lemma explain_one_logit_raises `{Collaborators} (self : PGExplainer) (P : MLP)
    (index : nat) (g : Rng) (graph : Graph) (w : R) :
  explain_logits self P index = Ok (graph, [w]) ->
  explain self P index g = (Raise IndexError, g).
Proof.
  intros Hl. unfold explain. rewrite Hl. reflexivity.
Qed.

Lemma toy_logits_one_edge (k : nat) (rc : list R) :
  exists w,
    @explain_logits replay (toy_explainer [one_edge] k rc) toy_mlp 0
      = Ok (one_edge, [w]).
Proof.
  unfold explain_logits. cbv zeta.
  cbn [data model_to_explain toy_explainer bind getitem lookup list_lookup
       map fst snd type embedding toy_model].
  change (_create_explainer_input graph_task one_edge [[1]; [2]] 0)
    with (Ok [[1; 2]]).
  cbn [bind].
  unfold explainer_model_apply, toy_mlp, mlp_row.
  cbn -[relu Rplus Rmult Rdiv IZR].
  eexists. reflexivity.
Qed.

(** C4. On the graph task made of the graph with two nodes and the single
    edge (0, 1), [explain 0] does not return a weight vector of length 1: it
    raises IndexError. *)
Theorem explain_single_edge_raises :
  forall (k : nat) (rc : list R) (tape : list R),
    @explain replay (toy_explainer [one_edge] k rc) toy_mlp 0 tape
      = (Raise IndexError, tape).
Proof.
  intros k rc tape.
  destruct (toy_logits_one_edge k rc) as [w Hw].
  apply (explain_one_logit_raises _ _ _ _ _ _ Hw).
Qed.

(** *** The scatter on graphs with more than one edge

    What follows assumes of [index_edge] what the specification says of it:
    it returns the positions of the given edge in the edge list. *)

Lemma index_put_spec (t : list nat) (m : R) :
  forall w : list R,
    Forall (fun j => (j < length w)%nat) t ->
    exists w',
      index_put w t m = Ok w'
      /\ length w' = length w
      /\ forall j, (j ∈ t -> w' !! j = Some m) /\ (j ∉ t -> w' !! j = w !! j).
Proof.
  induction t as [|j0 t IH]; intros w Hin; simpl.
  - exists w. split; [reflexivity|]. split; [reflexivity|].
    intros j. split; [intros Hj; inversion Hj | reflexivity].
  - apply Forall_cons in Hin as [Hj0 Hin].
    apply Nat.ltb_lt in Hj0 as Hj0b. rewrite Hj0b.
    destruct (IH (<[j0 := m]> w)) as (w' & Hw' & Hlen & Hlk).
    { rewrite length_insert. exact Hin. }
    exists w'. split; [exact Hw'|].
    rewrite length_insert in Hlen. split; [exact Hlen|].
    intros j. split.
    + intros Hj. destruct (decide (j ∈ t)) as [Ht|Ht].
      * apply Hlk. exact Ht.
      * apply elem_of_cons in Hj as [->|Hj]; [|contradiction].
        rewrite (proj2 (Hlk j0) Ht). apply list_lookup_insert_eq. exact Hj0.
    + intros Hj. apply not_elem_of_cons in Hj as [Hne Hj].
      rewrite (proj2 (Hlk j) Hj). apply list_lookup_insert_ne. congruence.
Qed.

Lemma scatter_spec `{Collaborators} (graph : Graph) (ms : list R) :
  (forall e t, t ∈ index_edge graph e <-> graph !! t = Some e) ->
  (forall i j e, graph !! i = Some e -> graph !! j = Some e -> ms !! i = ms !! j) ->
  length ms = length graph ->
  forall (cnt k : nat) (w : list R),
    (k + cnt = length graph)%nat ->
    length w = length graph ->
    (forall i j e, (i < k)%nat -> graph !! i = Some e -> graph !! j = Some e ->
                   w !! j = ms !! j) ->
    exists w',
      scatter graph (Vector ms) (seq k cnt) w = Ok w'
      /\ length w' = length graph
      /\ forall j e, graph !! j = Some e -> w' !! j = ms !! j.
Proof.
  intros Hidx Hsame Hms.
  induction cnt as [|cnt IH]; intros k w Hk Hw Hinv; simpl.
  - exists w. split; [reflexivity|]. split; [exact Hw|].
    intros j e Hj. apply (Hinv j j e); [|exact Hj|exact Hj].
    apply lookup_lt_Some in Hj. lia.
  - destruct (getitem_lt graph k ltac:(lia)) as (e & He & Hek).
    rewrite He. cbn [bind].
    destruct (getitem_lt ms k ltac:(lia)) as (m & Hm & Hmk).
    cbn [tensor_getitem]. rewrite Hm. cbn [bind].
    destruct (index_put_spec (index_edge graph e) m w) as (w1 & Hw1 & Hlen1 & Hlk1).
    { apply Forall_forall. intros t Ht. apply Hidx in Ht.
      apply lookup_lt_Some in Ht. lia. }
    rewrite Hw1. cbn [bind].
    apply IH; [lia | congruence |].
    intros i j e' Hi Hie Hje.
    destruct (decide (j ∈ index_edge graph e)) as [Hjt|Hjt].
    + rewrite (proj1 (Hlk1 j) Hjt). apply Hidx in Hjt.
      rewrite <- Hmk. apply (Hsame k j e); assumption.
    + rewrite (proj2 (Hlk1 j) Hjt).
      assert (Hne : e' <> e).
      { intros ->. apply Hjt. apply Hidx. exact Hje. }
      assert (Hik : i <> k) by (intros ->; congruence).
      apply (Hinv i j e'); [lia | exact Hie | exact Hje].
Qed.

(** The rows of the explainer input, and so the logits, depend on the edge
    only: equal edges get equal logits. *)
Lemma explain_logits_per_edge `{Collaborators} (self : PGExplainer) (P : MLP)
    (index : nat) (graph : Graph) (ws : list R) :
  explain_logits self P index = Ok (graph, ws) ->
  length ws = length graph
  /\ forall i j e, graph !! i = Some e -> graph !! j = Some e -> ws !! i = ws !! j.
Proof.
  unfold explain_logits. intros Hl. cbv zeta in Hl.
  inv_bind Hl. destruct a as [graph0 embeds].
  inv_bind Hl. inv_bind Hl. injection Hl as -> ->.
  clear E. rename E0 into Hin. rename E1 into Hws.
  apply mapM_Ok_inv in Hws as [Hlen Hrow].
  unfold _create_explainer_input in Hin. cbv zeta in Hin.
  inv_bind Hin. inv_bind Hin.
  apply mapM_Ok_inv in E as [Hrl Hrk].
  apply mapM_Ok_inv in E0 as [Hcl Hck].
  unfold graph_row0 in Hrl, Hrk. unfold graph_row1 in Hcl, Hck.
  rewrite length_map in Hrl, Hcl.
  assert (Hrows : exists row : nat * nat -> list R,
            length a = length graph
            /\ forall i e, graph !! i = Some e -> a !! i = Some (row e)).
  { destruct (type self).
    - inv_bind Hin. injection Hin as <-.
      exists (fun e => (default [] (embeds !! fst e)
                        ++ default [] (embeds !! snd e)) ++ a2).
      split.
      { unfold cat1. rewrite !length_zip_with, length_replicate.
        unfold graph_row0. rewrite length_map. lia. }
      intros i e Hi.
      destruct (Hrk i (fst e)) as (ru & Hru & Hai);
        [rewrite list_lookup_fmap, Hi; reflexivity|].
      destruct (Hck i (snd e)) as (cv & Hcv & Hbi);
        [rewrite list_lookup_fmap, Hi; reflexivity|].
      apply getitem_Ok in Hru, Hcv. rewrite Hru, Hcv. simpl.
      unfold cat1. rewrite !lookup_zip_with, Hai, Hbi. simpl.
      rewrite lookup_replicate_2; [reflexivity|].
      unfold graph_row0. rewrite length_map.
      apply lookup_lt_Some in Hi. exact Hi.
    - injection Hin as <-.
      exists (fun e => default [] (embeds !! fst e)
                       ++ default [] (embeds !! snd e)).
      split.
      { unfold cat1. rewrite length_zip_with. lia. }
      intros i e Hi.
      destruct (Hrk i (fst e)) as (ru & Hru & Hai);
        [rewrite list_lookup_fmap, Hi; reflexivity|].
      destruct (Hck i (snd e)) as (cv & Hcv & Hbi);
        [rewrite list_lookup_fmap, Hi; reflexivity|].
      apply getitem_Ok in Hru, Hcv. rewrite Hru, Hcv. simpl.
      unfold cat1. rewrite lookup_zip_with, Hai, Hbi. reflexivity. }
  destruct Hrows as (row & Hal & Har).
  split; [congruence|].
  intros i j e Hi Hj.
  destruct (Hrow i (row e) (Har i e Hi)) as (y & Hy & ->).
  destruct (Hrow j (row e) (Har j e Hj)) as (y' & Hy' & ->).
  congruence.
Qed.

(** Apart from the single-edge case, [explain] returns the edge list of the
    graph with one weight per edge, the sigmoid of the logit of that edge. *)
Lemma explain_scatters_sigmoid `{Collaborators} (self : PGExplainer) (P : MLP)
    (index : nat) (g : Rng) (graph : Graph) (ws : list R) :
  (forall graph e t, t ∈ index_edge graph e <-> graph !! t = Some e) ->
  explain_logits self P index = Ok (graph, ws) ->
  length ws <> 1%nat ->
  explain self P index g = (Ok (graph, map sigmoid ws), g)
  /\ length (map sigmoid ws) = length graph.
Proof.
  intros Hidx Hl Hne.
  destruct (explain_logits_per_edge self P index graph ws Hl) as [Hlen Hsame].
  split; [|rewrite length_map; exact Hlen].
  unfold explain. rewrite Hl.
  cbn [_sample_graph].
  assert (Hsq : squeeze (map sigmoid ws) = Vector (map sigmoid ws)).
  { destruct ws as [|w [|w' ws]]; simpl in *; [reflexivity|lia|reflexivity]. }
  rewrite Hsq. cbn [tensor_size0 bind]. rewrite length_map.
  destruct (scatter_spec graph (map sigmoid ws) (Hidx graph))
    with (cnt := length ws) (k := 0%nat) (w := replicate (length graph) 0)
    as (w' & Hw' & Hlen' & Hlk').
  - intros i j e Hi Hj. rewrite !list_lookup_fmap.
    rewrite (Hsame i j e Hi Hj). reflexivity.
  - rewrite length_map. exact Hlen.
  - simpl. exact Hlen.
  - apply length_replicate.
  - intros i j e Hi. lia.
  - rewrite Hw'. cbn [bind]. do 3 f_equal.
    apply list_eq. intros j.
    destruct (graph !! j) as [e|] eqn:Hj.
    + apply (Hlk' j e Hj).
    + apply lookup_ge_None in Hj.
      rewrite (lookup_ge_None_2 w') by lia.
      rewrite (lookup_ge_None_2 (map sigmoid ws)); [reflexivity|].
      rewrite length_map. lia.
Qed.

(** [edge_positions] meets that description of [index_edge]. *)
Lemma edge_positions_spec (graph : Graph) (e : nat * nat) (t : nat) :
  t ∈ edge_positions graph e <-> graph !! t = Some e.
Proof.
  unfold edge_positions. rewrite list_elem_of_filter, elem_of_seq.
  split; [intros [Ht _]; exact Ht|].
  intros Ht. split; [exact Ht|]. apply lookup_lt_Some in Ht. lia.
Qed.

Lemma toy_explain_two_cycle (k : nat) (rc : list R) (tape : list R) :
  exists a b,
    @explain replay (toy_explainer [two_cycle] k rc) toy_mlp 0 tape
      = (Ok (two_cycle, [sigmoid a; sigmoid b]), tape).
Proof.
  destruct toy_logits_ok as (a & b & Hab).
  exists a, b.
  apply (@explain_scatters_sigmoid replay (toy_explainer [two_cycle] k rc)
           toy_mlp 0 tape two_cycle [a; b]).
  - intros graph e t. apply edge_positions_spec.
  - unfold explain_logits. cbv zeta.
    cbn [data model_to_explain toy_explainer bind getitem lookup list_lookup
         map fst snd type embedding toy_model].
    change (_create_explainer_input graph_task two_cycle [[1]; [2]] 0)
      with (Ok [[1; 2]; [2; 1]]).
    cbn [bind]. rewrite Hab. reflexivity.
  - simpl. lia.
Qed.

(** * Further properties of the code *)

(** ** The groups of the connectivity loss *)

Lemma open_runs_nonempty (l : list (nat * R)) :
  forall start_node adjacent_masks, open_runs start_node adjacent_masks l <> [].
Proof.
  induction l as [|sm l IH]; intros start_node adjacent_masks; simpl.
  - discriminate.
  - destruct (start_node =? fst sm)%nat; [apply IH | discriminate].
Qed.

Lemma open_runs_cons (l : list (nat * R)) :
  forall start_node m0 adjacent_masks,
    open_runs start_node (m0 :: adjacent_masks) l
    = match open_runs start_node adjacent_masks l with
      | grp :: rest => (m0 :: grp) :: rest
      | [] => []
      end.
Proof.
  induction l as [|sm l IH]; intros start_node m0 adjacent_masks; simpl.
  - reflexivity.
  - destruct (start_node =? fst sm)%nat; [apply IH | reflexivity].
Qed.

Lemma open_runs_group_runs (l : list (nat * R)) :
  forall s m, open_runs s [m] l = group_runs ((s, m) :: l).
Proof.
  induction l as [|[s' m'] l IH]; intros s m; [reflexivity|].
  cbn [open_runs fst snd app].
  change (group_runs ((s, m) :: (s', m') :: l))
    with (match group_runs ((s', m') :: l) with
          | grp :: rest =>
              if (s =? s')%nat then (m :: grp) :: rest else [m] :: grp :: rest
          | [] => [[m]]
          end).
  rewrite <- IH.
  destruct (s =? s')%nat eqn:Hs.
  - apply Nat.eqb_eq in Hs as ->. rewrite open_runs_cons.
    destruct (open_runs s' [m'] l) eqn:Ho; [|reflexivity].
    exfalso. exact (open_runs_nonempty _ _ _ Ho).
  - destruct (open_runs s' [m'] l) eqn:Ho; [|reflexivity].
    exfalso. exact (open_runs_nonempty _ _ _ Ho).
Qed.

Lemma removelast_cons_nonempty {A : Type} (a : A) (l : list A) :
  l <> [] -> removelast (a :: l) = a :: removelast l.
Proof. destruct l; [congruence | reflexivity]. Qed.

Lemma collect_adjacent_open_runs (starts : list nat) :
  forall (idx : nat) (xs : list R) (start_node : nat)
         (adjacent_masks : list R) (total_mask_score : list (list R)),
    (idx + length starts <= length xs)%nat ->
    collect_adjacent starts idx (Vector xs) start_node adjacent_masks
      total_mask_score
    = Ok (total_mask_score
            ++ removelast (open_runs start_node adjacent_masks
                             (zip starts (drop idx xs)))).
Proof.
  induction starts as [|start rest IH];
    intros idx xs start_node adjacent_masks total_mask_score Hlen.
  - simpl. rewrite app_nil_r. reflexivity.
  - simpl in Hlen.
    destruct (getitem_lt xs idx ltac:(lia)) as (m & Hm & Hlk).
    rewrite (drop_S _ _ _ Hlk).
    cbn [collect_adjacent zip zip_with open_runs fst snd tensor_getitem].
    rewrite Hm.
    destruct (start_node =? start)%nat; cbn [bind].
    + apply IH. lia.
    + rewrite IH by lia.
      rewrite removelast_cons_nonempty by apply open_runs_nonempty.
      rewrite <- app_assoc. reflexivity.
Qed.

Lemma open_runs_groups_nonempty (l : list (nat * R)) :
  forall start_node adjacent_masks,
    adjacent_masks <> [] ->
    Forall (fun masks => masks <> []) (open_runs start_node adjacent_masks l).
Proof.
  induction l as [|sm l IH]; intros start_node adjacent_masks Hne; simpl.
  - repeat constructor. exact Hne.
  - destruct (start_node =? fst sm)%nat.
    + apply IH. destruct adjacent_masks; discriminate.
    + constructor; [exact Hne|]. apply IH. discriminate.
Qed.

Lemma Forall_removelast {A : Type} (P : A -> Prop) (l : list A) :
  Forall P l -> Forall P (removelast l).
Proof.
  induction 1 as [|a l Ha Hl IH]; [constructor|].
  destruct l as [|b l]; [constructor|].
  rewrite removelast_cons_nonempty by discriminate.
  constructor; assumption.
Qed.

Lemma scored_groups_nonempty (graph : Graph) (xs : list R) :
  Forall (fun masks => masks <> []) (scored_groups graph xs).
Proof.
  unfold scored_groups. apply Forall_removelast.
  destruct (zip (graph_row0 graph) xs) as [|[s m] l]; [constructor|].
  rewrite <- open_runs_group_runs. apply open_runs_groups_nonempty. discriminate.
Qed.

Lemma sum_loss_val (pairs : list (R * R)) :
  forall v,
    pynum_val (foldl (fun s p => pynum_add s (pair_loss p)) v pairs)
    = pynum_val v + rsum (map pair_loss pairs).
Proof.
  induction pairs as [|p pairs IH]; intros v.
  - unfold rsum. simpl. lra.
  - cbn [foldl map]. rewrite IH, rsum_cons. cbn [pynum_add pynum_val]. lra.
Qed.

Lemma sum_group_means_val (total_mask_score : list (list R)) :
  Forall (fun masks => masks <> []) total_mask_score ->
  forall v0,
    exists v,
      sum_group_means total_mask_score v0 = Ok v
      /\ pynum_val v = pynum_val v0 + rsum (map group_mean total_mask_score)
      /\ (total_mask_score = [] -> v = v0).
Proof.
  induction 1 as [|masks rest Hne _ IH]; intros v0.
  - exists v0. simpl. unfold rsum. simpl. repeat split; lra.
  - cbn [sum_group_means].
    destruct masks as [|x masks]; [congruence|].
    cbn [stack bind]. cbv zeta.
    match goal with
    | |- exists v, sum_group_means rest ?v1 = Ok v /\ _ =>
        destruct (IH v1) as (v & Hv & Hval & _); exists v
    end.
    split; [exact Hv|]. split; [|discriminate].
    rewrite Hval, map_cons, rsum_cons. unfold group_mean.
    destruct (combinations2 (x :: masks)) as [|p pairs] eqn:Hp.
    + simpl. lra.
    + cbn [length Nat.ltb Nat.leb]. cbn [pynum_add pynum_val].
      rewrite sum_loss_val. simpl pynum_val. lra.
Qed.

Lemma connectivity_loss_by_groups (rc : list R) (conn_reg : R)
    (graph : Graph) (xs : list R) :
  rc !! 2%nat = Some conn_reg ->
  graph <> [] ->
  (length graph <= length xs)%nat ->
  match scored_groups graph xs with
  | [] => _connectivity_loss rc graph (Vector xs) = Raise ZeroDivisionError
  | groups =>
      exists v,
        _connectivity_loss rc graph (Vector xs) = Ok v
        /\ v = conn_reg * (rsum (map group_mean groups) / INR (length groups))
  end.
Proof.
  intros Hrc Hne Hlen.
  pose proof (scored_groups_nonempty graph xs) as Hgroups.
  unfold scored_groups in *.
  destruct graph as [|[s0 d0] rest]; [congruence|].
  simpl in Hlen.
  destruct (getitem_lt xs 0 ltac:(lia)) as (m0 & _ & Hm0).
  assert (Hc : getitem rc 2 = Ok conn_reg) by (apply getitem_Ok; exact Hrc).
  unfold _connectivity_loss. rewrite Hc.
  cbn [bind graph_row0 map fst getitem lookup list_lookup].
  rewrite collect_adjacent_open_runs by (simpl; rewrite length_map; lia).
  rewrite drop_0. cbn [app bind].
  fold (graph_row0 rest) in *.
  destruct xs as [|m xs]; [simpl in Hlen; lia|].
  cbn [zip zip_with open_runs fst snd app] in *.
  rewrite Nat.eqb_refl.
  rewrite open_runs_group_runs.
  change (zip_with pair (graph_row0 rest) xs) with (zip (graph_row0 rest) xs)
    in *.
  change ((s0, m) :: zip (graph_row0 rest) xs)
    with (zip (graph_row0 ((s0, d0) :: rest)) (m :: xs)) in *.
  destruct (sum_group_means_val _ Hgroups (PyInt 0)) as (v & Hv & Hval & Hnil).
  rewrite Hv. cbn [bind].
  destruct (removelast (group_runs (zip (graph_row0 ((s0, d0) :: rest)) (m :: xs))))
    as [|grp groups] eqn:Hg.
  - rewrite (Hnil eq_refl). reflexivity.
  - exists (conn_reg * (pynum_val v / INR (length (grp :: groups)))). split.
    + destruct v; cbn [pynum_div_len length Nat.eqb bind]; reflexivity.
    + rewrite Hval. simpl pynum_val. rewrite Rplus_0_l. reflexivity.
Qed.



Lemma ln_neg (x : R) : 0 < x < 1 -> ln x < 0.
Proof.
  intros [H0 H1]. rewrite <- ln_1. apply ln_increasing; assumption.
Qed.

Lemma pair_loss_nonneg (p : R * R) :
  0 < fst p < 1 -> 0 < snd p < 1 -> 0 <= pair_loss p.
Proof.
  intros Ha Hb. unfold pair_loss.
  pose proof (ln_neg (snd p) Hb).
  pose proof (ln_neg (1 - fst p) ltac:(lra)).
  nra.
Qed.

Lemma rsum_nonneg (l : list R) : Forall (fun x => 0 <= x) l -> 0 <= rsum l.
Proof.
  induction 1 as [|x l Hx _ IH]; [unfold rsum; simpl; lra|].
  rewrite rsum_cons. lra.
Qed.

Lemma combinations2_Forall {A : Type} (P : A -> Prop) (l : list A) :
  Forall P l -> Forall (fun p => P (fst p) /\ P (snd p)) (combinations2 l).
Proof.
  induction 1 as [|x l Hx Hl IH]; simpl; [constructor|].
  apply Forall_app. split; [|exact IH].
  apply Forall_fmap. eapply Forall_impl; [exact Hl|].
  intros y Hy. simpl. split; assumption.
Qed.

Lemma group_mean_nonneg (masks : list R) :
  Forall (fun m => 0 < m < 1) masks -> 0 <= group_mean masks.
Proof.
  intros Hm. unfold group_mean.
  pose proof (combinations2_Forall _ _ Hm) as Hp.
  destruct (combinations2 masks) as [|p pairs]; [lra|].
  apply Rmult_le_pos.
  - apply rsum_nonneg. apply Forall_fmap.
    eapply Forall_impl; [exact Hp|].
    intros q [Hq1 Hq2]. simpl. apply pair_loss_nonneg; assumption.
  - left. apply Rinv_0_lt_compat. apply lt_0_INR. simpl. lia.
Qed.

Lemma open_runs_Forall (P : R -> Prop) (l : list (nat * R)) :
  forall start_node adjacent_masks,
    Forall P adjacent_masks ->
    Forall (fun sm => P (snd sm)) l ->
    Forall (Forall P) (open_runs start_node adjacent_masks l).
Proof.
  induction l as [|sm l IH]; intros start_node adjacent_masks Ha Hl; simpl.
  - repeat constructor. exact Ha.
  - apply Forall_cons in Hl as [Hsm Hl].
    destruct (start_node =? fst sm)%nat.
    + apply IH; [|exact Hl]. apply Forall_app. split; [exact Ha|].
      repeat constructor. exact Hsm.
    + constructor; [exact Ha|]. apply IH; [|exact Hl].
      repeat constructor. exact Hsm.
Qed.

Lemma scored_groups_Forall (P : R -> Prop) (graph : Graph) (xs : list R) :
  Forall P xs -> Forall (Forall P) (scored_groups graph xs).
Proof.
  intros Hxs. unfold scored_groups. apply Forall_removelast.
  assert (Hz : Forall (fun sm : nat * R => P (snd sm))
                 (zip (graph_row0 graph) xs)).
  { apply Forall_lookup_2. intros i [s m] Hi.
    apply lookup_zip_with_Some in Hi as (s' & m' & Heq & _ & Hm).
    injection Heq as -> ->. simpl.
    apply (Forall_lookup_1 _ _ _ _ Hxs Hm). }
  destruct (zip (graph_row0 graph) xs) as [|[s m] l]; [constructor|].
  rewrite <- open_runs_group_runs.
  apply Forall_cons in Hz as [Hm Hl].
  apply open_runs_Forall; [repeat constructor; exact Hm | exact Hl].
Qed.

Lemma collect_adjacent_short_mask (starts : list nat) :
  forall (idx : nat) (xs : list R) (start_node : nat)
         (adjacent_masks : list R) (total_mask_score : list (list R)),
    starts <> [] ->
    (length xs < idx + length starts)%nat ->
    collect_adjacent starts idx (Vector xs) start_node adjacent_masks
      total_mask_score = Raise IndexError.
Proof.
  induction starts as [|start rest IH];
    intros idx xs start_node adjacent_masks total_mask_score Hne Hlen;
    [congruence|].
  simpl in Hlen. cbn [collect_adjacent tensor_getitem].
  destruct (xs !! idx) as [m|] eqn:Hm.
  - rewrite (proj2 (getitem_Ok xs idx m) Hm).
    apply lookup_lt_Some in Hm.
    destruct (start_node =? start)%nat; cbn [bind];
      (apply IH; [destruct rest; [simpl in Hlen; lia | discriminate] | lia]).
  - unfold getitem. rewrite Hm.
    destruct (start_node =? start)%nat; reflexivity.
Qed.

Lemma connectivity_loss_raises_index (rc : list R) :
  (3 <= length rc)%nat ->
  (forall mask, _connectivity_loss rc [] mask = Raise IndexError)
  /\ (forall graph x,
        graph <> [] -> _connectivity_loss rc graph (Scalar x) = Raise IndexError)
  /\ (forall graph xs,
        (length xs < length graph)%nat ->
        _connectivity_loss rc graph (Vector xs) = Raise IndexError).
Proof.
  intros Hrc.
  destruct (getitem_lt rc 2 ltac:(lia)) as (conn_reg & Hc & _).
  split; [|split].
  - intros mask. unfold _connectivity_loss. rewrite Hc. reflexivity.
  - intros [|[s0 d0] rest] x Hne; [congruence|].
    unfold _connectivity_loss. rewrite Hc.
    cbn [bind graph_row0 map fst getitem lookup list_lookup collect_adjacent
         tensor_getitem].
    destruct (s0 =? s0)%nat; reflexivity.
  - intros [|[s0 d0] rest] xs Hlen; [simpl in Hlen; lia|].
    unfold _connectivity_loss. rewrite Hc.
    cbn [bind graph_row0 map fst getitem lookup list_lookup].
    rewrite collect_adjacent_short_mask; [reflexivity | discriminate |].
    simpl. rewrite length_map. simpl in Hlen. lia.
Qed.

(** X2. What makes the connectivity loss raise IndexError when there are
    three coefficients: an empty graph, a 0-d mask on a non-empty graph (the
    squeezed mask of a single edge), or a 1-d mask with fewer entries than
    the graph has edges. *)
Theorem connectivity_loss_index_errors (rc : list R) :
  (3 <= length rc)%nat ->
  (forall mask, _connectivity_loss rc [] mask = Raise IndexError)
  /\ (forall graph x,
        graph <> [] -> _connectivity_loss rc graph (Scalar x) = Raise IndexError)
  /\ (forall graph xs,
        (length xs < length graph)%nat ->
        _connectivity_loss rc graph (Vector xs) = Raise IndexError).
Proof. apply connectivity_loss_raises_index. Qed.

Lemma connectivity_loss_index_errors_witness :
  (forall mask, _connectivity_loss [5 / 100; 1; 1] [] mask = Raise IndexError)
  /\ (forall graph x,
        graph <> [] ->
        _connectivity_loss [5 / 100; 1; 1] graph (Scalar x) = Raise IndexError)
  /\ (forall graph xs,
        (length xs < length graph)%nat ->
        _connectivity_loss [5 / 100; 1; 1] graph (Vector xs) = Raise IndexError).
Proof.
  apply (connectivity_loss_index_errors [5 / 100; 1; 1]). simpl. lia.
Defined.

Lemma connectivity_loss_ge_0 (rc : list R) (graph : Graph)
    (xs : list R) (v : R) :
  (forall conn_reg, rc !! 2%nat = Some conn_reg -> 0 <= conn_reg) ->
  Forall (fun m => 0 < m < 1) xs ->
  _connectivity_loss rc graph (Vector xs) = Ok v ->
  0 <= v.
Proof.
  intros Hreg Hxs Hv.
  destruct (connectivity_loss_inv _ _ _ _ Hv) as (conn_reg & mc & Hc & _).
  assert (Hrc : (3 <= length rc)%nat) by (apply lookup_lt_Some in Hc; lia).
  destruct (connectivity_loss_raises_index rc Hrc) as (Hempty & _ & Hshort).
  assert (Hne : graph <> []).
  { intros ->. rewrite Hempty in Hv. discriminate. }
  assert (Hlen : (length graph <= length xs)%nat).
  { destruct (le_lt_dec (length graph) (length xs)) as [Hle|Hlt]; [exact Hle|].
    rewrite (Hshort graph xs Hlt) in Hv. discriminate. }
  pose proof (connectivity_loss_by_groups rc conn_reg graph xs Hc Hne Hlen) as Hf.
  pose proof (scored_groups_Forall _ graph xs Hxs) as Hg.
  destruct (scored_groups graph xs) as [|grp groups].
  - rewrite Hf in Hv. discriminate.
  - destruct Hf as (v' & Hv' & ->). rewrite Hv' in Hv. injection Hv as <-.
    assert (Hsum : 0 <= rsum (map group_mean (grp :: groups))).
    { apply rsum_nonneg. apply Forall_fmap.
      eapply Forall_impl; [exact Hg|].
      intros masks Hm. simpl. apply group_mean_nonneg. exact Hm. }
    assert (Hn : 0 < / INR (length (grp :: groups))).
    { apply Rinv_0_lt_compat. apply lt_0_INR. simpl. lia. }
    apply Rmult_le_pos; [apply Hreg; exact Hc|].
    apply Rmult_le_pos; [exact Hsum | left; exact Hn].
Qed.

(** X3. Whenever the connectivity loss of a 1-d mask with entries strictly
    between 0 and 1 is computed with a non-negative coefficient, it is
    non-negative. *)
Theorem connectivity_loss_nonneg (rc : list R) (graph : Graph)
    (xs : list R) (v : R) :
  (forall conn_reg, rc !! 2%nat = Some conn_reg -> 0 <= conn_reg) ->
  Forall (fun m => 0 < m < 1) xs ->
  _connectivity_loss rc graph (Vector xs) = Ok v ->
  0 <= v.
Proof. apply connectivity_loss_ge_0. Qed.

Lemma connectivity_loss_nonneg_witness :
  exists v,
    _connectivity_loss [0; 0; 2] [(0, 1); (0, 2); (1, 0); (2, 0)]%nat
      (Vector [1 / 2; 1 / 4; 1 / 3; 1 / 5]) = Ok v
    /\ 0 <= v.
Proof.
  destruct (connectivity_loss_by_groups [0; 0; 2] 2
              [(0, 1); (0, 2); (1, 0); (2, 0)]%nat [1 / 2; 1 / 4; 1 / 3; 1 / 5]
              eq_refl ltac:(discriminate) ltac:(simpl; lia))
    as (v & Hv & _).
  exists v. split; [exact Hv|].
  apply (connectivity_loss_nonneg [0; 0; 2]
           [(0, 1); (0, 2); (1, 0); (2, 0)]%nat
           [1 / 2; 1 / 4; 1 / 3; 1 / 5] v).
  - intros conn_reg Hc. injection Hc as <-. lra.
  - repeat constructor; lra.
  - exact Hv.
Defined.

Lemma group_runs_one_run (l : list (nat * R)) (s : nat) :
  l <> [] -> Forall (fun sm => fst sm = s) l -> group_runs l = [map snd l].
Proof.
  induction l as [|sm l IH]; intros Hne Hall; [congruence|].
  apply Forall_cons in Hall as [Hs Hall].
  destruct l as [|sm' l]; [reflexivity|].
  change (group_runs (sm :: sm' :: l))
    with (match group_runs (sm' :: l) with
          | grp :: rest =>
              if (fst sm =? fst sm')%nat then (snd sm :: grp) :: rest
              else [snd sm] :: grp :: rest
          | [] => [[snd sm]]
          end).
  rewrite IH by (discriminate || exact Hall).
  apply Forall_cons in Hall as [Hs' _].
  rewrite Hs, Hs', Nat.eqb_refl. reflexivity.
Qed.

(** The runs of [l1 ++ l2] and of [l1 ++ l2'] differ in their last run only,
    when [l2] and [l2'] have the same sources, all equal. *)
Lemma group_runs_trailing_run (l1 l2 l2' : list (nat * R)) (s : nat) :
  l2 <> [] ->
  Forall (fun sm => fst sm = s) l2 ->
  map fst l2' = map fst l2 ->
  exists front last last',
    group_runs (l1 ++ l2) = front ++ [last]
    /\ group_runs (l1 ++ l2') = front ++ [last'].
Proof.
  intros Hne Hall Hsrc.
  assert (Hne' : l2' <> []).
  { destruct l2, l2'; simpl in Hsrc; congruence. }
  assert (Hall' : Forall (fun sm => fst sm = s) l2').
  { apply Forall_lookup_2. intros i sm' Hi.
    assert (Hi' : map fst l2' !! i = Some (fst sm'))
      by (rewrite list_lookup_fmap, Hi; reflexivity).
    rewrite Hsrc, list_lookup_fmap in Hi'.
    destruct (l2 !! i) as [sm|] eqn:Hsm; [|discriminate].
    injection Hi' as <-. apply (Forall_lookup_1 _ _ _ _ Hall Hsm). }
  induction l1 as [|sm l1 (front & last & last' & HL & HL')].
  - exists [], (map snd l2), (map snd l2'). simpl.
    rewrite (group_runs_one_run l2 s Hne Hall).
    rewrite (group_runs_one_run l2' s Hne' Hall'). split; reflexivity.
  - assert (Hhead : exists sm1 t1 sm1' t1',
              l1 ++ l2 = sm1 :: t1 /\ l1 ++ l2' = sm1' :: t1'
              /\ fst sm1 = fst sm1').
    { destruct l1 as [|x l1].
      - destruct l2 as [|y l2]; [congruence|].
        destruct l2' as [|y' l2']; [congruence|].
        simpl in Hsrc. injection Hsrc as Hy _.
        exists y, l2, y', l2'. repeat split. symmetry. exact Hy.
      - exists x, (l1 ++ l2), x, (l1 ++ l2'). repeat split. }
    destruct Hhead as (sm1 & t1 & sm1' & t1' & E1 & E1' & Hfst).
    change ((sm :: l1) ++ l2) with (sm :: (l1 ++ l2)).
    change ((sm :: l1) ++ l2') with (sm :: (l1 ++ l2')).
    assert (Hstep : forall L sm0 t0,
              L = sm0 :: t0 ->
              group_runs (sm :: L)
              = match group_runs L with
                | grp :: rest =>
                    if (fst sm =? fst sm0)%nat then (snd sm :: grp) :: rest
                    else [snd sm] :: grp :: rest
                | [] => [[snd sm]]
                end).
    { intros L sm0 t0 ->. reflexivity. }
    rewrite (Hstep _ _ _ E1), (Hstep _ _ _ E1'), HL, HL', <- Hfst.
    destruct front as [|f fs]; simpl.
    + destruct (fst sm =? fst sm1)%nat.
      * exists [], (snd sm :: last), (snd sm :: last'). split; reflexivity.
      * exists [[snd sm]], last, last'. split; reflexivity.
    + destruct (fst sm =? fst sm1)%nat.
      * exists ((snd sm :: f) :: fs), last, last'. split; reflexivity.
      * exists ([snd sm] :: f :: fs), last, last'. split; reflexivity.
Qed.

Lemma connectivity_loss_trailing_masks (rc : list R) (g1 g2 : Graph)
    (x1 x2 y2 : list R) (s : nat) :
  g2 <> [] ->
  Forall (fun e => fst e = s) g2 ->
  length x1 = length g1 ->
  length x2 = length g2 ->
  length y2 = length g2 ->
  _connectivity_loss rc (g1 ++ g2) (Vector (x1 ++ x2))
    = _connectivity_loss rc (g1 ++ g2) (Vector (x1 ++ y2)).
Proof.
  intros Hne Hall H1 H2 H2'.
  destruct (rc !! 2%nat) as [conn_reg|] eqn:Hc.
  2: { apply lookup_ge_None in Hc.
       rewrite !connectivity_loss_short_coefs by lia. reflexivity. }
  assert (Hg : g1 ++ g2 <> []) by (destruct g1, g2; simpl; congruence).
  pose proof (connectivity_loss_by_groups rc conn_reg (g1 ++ g2) (x1 ++ x2)
                Hc Hg ltac:(rewrite !length_app; lia)) as Hx.
  pose proof (connectivity_loss_by_groups rc conn_reg (g1 ++ g2) (x1 ++ y2)
                Hc Hg ltac:(rewrite !length_app; lia)) as Hy.
  assert (Heq : scored_groups (g1 ++ g2) (x1 ++ x2)
                = scored_groups (g1 ++ g2) (x1 ++ y2)).
  { unfold scored_groups, graph_row0. rewrite map_app.
    assert (Hl1 : length (map fst g1) = length x1) by (rewrite length_map; lia).
    rewrite (zip_with_app pair (map fst g1) (map fst g2) x1 x2 Hl1).
    rewrite (zip_with_app pair (map fst g1) (map fst g2) x1 y2 Hl1).
    destruct (group_runs_trailing_run
                (zip_with pair (map fst g1) x1)
                (zip_with pair (map fst g2) x2)
                (zip_with pair (map fst g2) y2) s)
      as (front & last & last' & -> & ->).
    - destruct g2 as [|e g2]; [congruence|].
      destruct x2; [simpl in H2; lia | discriminate].
    - apply Forall_lookup_2. intros i [a b] Hi.
      apply lookup_zip_with_Some in Hi as (a' & b' & Hab & Ha & _).
      injection Hab as -> ->. simpl.
      rewrite list_lookup_fmap in Ha.
      destruct (g2 !! i) as [e|] eqn:He; [|discriminate].
      injection Ha as <-. apply (Forall_lookup_1 _ _ _ _ Hall He).
    - change (fst <$> zip_with pair (map fst g2) y2
              = fst <$> zip_with pair (map fst g2) x2).
      rewrite !fst_zip by (rewrite length_map; lia). reflexivity.
    - rewrite !removelast_last. reflexivity. }
  rewrite Heq in Hx.
  destruct (scored_groups (g1 ++ g2) (x1 ++ y2)).
  - rewrite Hx, Hy. reflexivity.
  - destruct Hx as (v & -> & ->). destruct Hy as (v' & -> & ->). reflexivity.
Qed.

(** X4. The mask entries of the last edges of the edge list, as far back as
    they all leave the same node, never influence the connectivity loss:
    replacing them by any other values gives the same result (value or
    exception). *)
Theorem connectivity_loss_ignores_last_run (rc : list R) (g1 g2 : Graph)
    (x1 x2 y2 : list R) (s : nat) :
  g2 <> [] ->
  Forall (fun e => fst e = s) g2 ->
  length x1 = length g1 ->
  length x2 = length g2 ->
  length y2 = length g2 ->
  _connectivity_loss rc (g1 ++ g2) (Vector (x1 ++ x2))
    = _connectivity_loss rc (g1 ++ g2) (Vector (x1 ++ y2)).
Proof. apply connectivity_loss_trailing_masks. Qed.

Lemma connectivity_loss_ignores_last_run_witness :
  _connectivity_loss [0; 0; 2] ([(0, 1); (0, 2)] ++ [(1, 0); (1, 2)])%nat
    (Vector ([1 / 2; 1 / 4] ++ [1 / 3; 1 / 5]))
  = _connectivity_loss [0; 0; 2] ([(0, 1); (0, 2)] ++ [(1, 0); (1, 2)])%nat
      (Vector ([1 / 2; 1 / 4] ++ [9 / 10; 1 / 10])).
Proof.
  apply (connectivity_loss_ignores_last_run [0; 0; 2]
           [(0, 1); (0, 2)]%nat [(1, 0); (1, 2)]%nat
           [1 / 2; 1 / 4] [1 / 3; 1 / 5] [9 / 10; 1 / 10] 1%nat).
  - discriminate.
  - repeat constructor.
  - reflexivity.
  - reflexivity.
  - reflexivity.
Defined.

(** X5. On every non-empty graph whose edges all leave the same node (a
    single edge, a star around a hub), given three coefficients and a 1-d
    mask with an entry per edge, the connectivity loss raises
    ZeroDivisionError. *)
Theorem connectivity_loss_hub_raises (rc : list R) (graph : Graph)
    (xs : list R) (s : nat) :
  (3 <= length rc)%nat ->
  graph <> [] ->
  Forall (fun e => fst e = s) graph ->
  (length graph <= length xs)%nat ->
  _connectivity_loss rc graph (Vector xs) = Raise ZeroDivisionError.
Proof. apply connectivity_loss_one_run_raises. Qed.

Lemma connectivity_loss_hub_raises_witness :
  _connectivity_loss [5 / 100; 1; 1] [(0, 1); (0, 2); (0, 3)]%nat
    (Vector [1 / 2; 1 / 4; 1 / 3]) = Raise ZeroDivisionError.
Proof.
  apply (connectivity_loss_hub_raises [5 / 100; 1; 1]
           [(0, 1); (0, 2); (0, 3)]%nat [1 / 2; 1 / 4; 1 / 3] 0%nat).
  - simpl. lia.
  - discriminate.
  - repeat constructor.
  - simpl. lia.
Defined.

(** X6. On a graph with at least two edges whose sources are pairwise
    distinct, given three coefficients and a 1-d mask with an entry per
    edge, the connectivity loss is defined and equal to 0, whatever the mask
    values and the coefficient. *)
Theorem connectivity_loss_zero_without_shared_source (rc : list R)
    (graph : Graph) (xs : list R) :
  (3 <= length rc)%nat ->
  NoDup (graph_row0 graph) ->
  (2 <= length graph)%nat ->
  (length graph <= length xs)%nat ->
  exists v, _connectivity_loss rc graph (Vector xs) = Ok v /\ v = 0.
Proof. apply connectivity_loss_distinct_sources. Qed.

Lemma connectivity_loss_zero_without_shared_source_witness :
  exists v,
    _connectivity_loss [5 / 100; 1; 7] [(0, 1); (1, 2); (2, 0)]%nat
      (Vector [1 / 2; 1 / 4; 1 / 3]) = Ok v
    /\ v = 0.
Proof.
  apply (connectivity_loss_zero_without_shared_source [5 / 100; 1; 7]
           [(0, 1); (1, 2); (2, 0)]%nat [1 / 2; 1 / 4; 1 / 3]).
  - simpl. lia.
  - apply (bool_decide_unpack _). reflexivity.
  - simpl. lia.
  - simpl. lia.
Defined.

(** ** Bounds on the terms of [_loss] *)

Lemma ln_le_sub1 (x : R) : 0 < x -> ln x <= x - 1.
Proof.
  intros Hx. pose proof (exp_ineq1_le (ln x)) as He.
  rewrite exp_ln in He by exact Hx. lra.
Qed.

Lemma ln_monotone (x y : R) : 0 < x -> x <= y -> ln x <= ln y.
Proof.
  intros Hx [Hlt| ->]; [left; apply ln_increasing; assumption | right; reflexivity].
Qed.

Lemma binary_entropy_bounds (m : R) :
  0 < m < 1 -> 0 <= binary_entropy m <= ln 2.
Proof.
  intros [H0 H1]. unfold binary_entropy.
  pose proof (ln_neg m ltac:(lra)) as Hm.
  pose proof (ln_neg (1 - m) ltac:(lra)) as Hm'.
  split; [nra|].
  assert (Ha : ln (/ (2 * m)) <= / (2 * m) - 1)
    by (apply ln_le_sub1; apply Rinv_0_lt_compat; lra).
  assert (Hb : ln (/ (2 * (1 - m))) <= / (2 * (1 - m)) - 1)
    by (apply ln_le_sub1; apply Rinv_0_lt_compat; lra).
  rewrite ln_Rinv, ln_mult in Ha by lra.
  rewrite ln_Rinv, ln_mult in Hb by lra.
  assert (Hma : m * (- (ln 2 + ln m)) <= m * (/ (2 * m) - 1))
    by (apply Rmult_le_compat_l; lra).
  assert (Hmb : (1 - m) * (- (ln 2 + ln (1 - m)))
                <= (1 - m) * (/ (2 * (1 - m)) - 1))
    by (apply Rmult_le_compat_l; lra).
  assert (Hia : m * (/ (2 * m) - 1) = 1 / 2 - m) by (field; lra).
  assert (Hib : (1 - m) * (/ (2 * (1 - m)) - 1) = 1 / 2 - (1 - m))
    by (field; lra).
  lra.
Qed.

Lemma rsum_bounds (lo hi : R) (l : list R) :
  Forall (fun x => lo <= x <= hi) l ->
  INR (length l) * lo <= rsum l <= INR (length l) * hi.
Proof.
  induction 1 as [|x l Hx _ IH].
  - unfold rsum. simpl. lra.
  - rewrite rsum_cons. change (length (x :: l)) with (S (length l)).
    rewrite S_INR. lra.
Qed.

Lemma rmean_bounds (lo hi : R) (l : list R) :
  l <> [] ->
  Forall (fun x => lo <= x <= hi) l ->
  lo <= rmean l <= hi.
Proof.
  intros Hne Hall. unfold rmean.
  pose proof (rsum_bounds lo hi l Hall) as [Hlo Hhi].
  assert (Hn : 0 < INR (length l)).
  { apply lt_0_INR. destruct l; [congruence | simpl; lia]. }
  split.
  - apply Rmult_le_reg_r with (INR (length l)); [exact Hn|].
    unfold Rdiv. rewrite Rmult_assoc, Rinv_l by lra. lra.
  - apply Rmult_le_reg_r with (INR (length l)); [exact Hn|].
    unfold Rdiv. rewrite Rmult_assoc, Rinv_l by lra. lra.
Qed.

Lemma exp_le_rsum (l : list R) (c : nat) (x : R) :
  l !! c = Some x -> exp x <= rsum (map exp l).
Proof.
  revert c. induction l as [|y l IH]; intros c Hc; [discriminate|].
  rewrite map_cons, rsum_cons.
  assert (Hpos : 0 <= rsum (map exp l)).
  { apply rsum_nonneg. apply Forall_fmap. apply Forall_forall.
    intros z _. simpl. left. apply exp_pos. }
  destruct c as [|c]; simpl in Hc.
  - injection Hc as ->. lra.
  - pose proof (IH c Hc). pose proof (exp_pos y). lra.
Qed.

Lemma nll_row_nonneg (rc : list R * nat) (v : R) :
  nll_row rc = Ok v -> 0 <= v.
Proof.
  unfold nll_row. intros Hn. inv_bind Hn. injection Hn as <-.
  apply getitem_Ok in E.
  pose proof (exp_le_rsum _ _ _ E) as Hle.
  pose proof (ln_monotone _ _ (exp_pos a) Hle) as Hln.
  rewrite ln_exp in Hln. lra.
Qed.

Lemma mapM_Forall {A B : Type} (f : A -> result B) (Q : B -> Prop)
    (l : list A) (out : list B) :
  (forall a b, f a = Ok b -> Q b) -> mapM f l = Ok out -> Forall Q out.
Proof.
  intros Hf. revert out. induction l as [|a l IH]; intros out Hm; simpl in Hm.
  - injection Hm as <-. constructor.
  - inv_bind Hm. inv_bind Hm. injection Hm as <-.
    constructor; [eapply Hf; eassumption | apply IH; reflexivity].
Qed.

Lemma cross_entropy_nonneg (input : matrix) (target : list nat) (v : R) :
  cross_entropy input target = Ok v -> 0 <= v.
Proof.
  unfold cross_entropy. intros Hc.
  destruct (length input =? length target)%nat; [|discriminate].
  inv_bind Hc. injection Hc as <-.
  apply (mapM_Forall _ (fun x => 0 <= x)) in E; [|apply nll_row_nonneg].
  unfold rmean. apply Rmult_le_pos; [apply rsum_nonneg; exact E|].
  destruct a as [|x a]; simpl length.
  - simpl. rewrite Rinv_0. lra.
  - left. apply Rinv_0_lt_compat. apply lt_0_INR. lia.
Qed.

Lemma loss_terms_bounds (masked_pred : matrix) (original_pred : list nat)
    (mask : tensor) (rc : list R) (size_reg entropy_reg : R)
    (cce_loss size_loss mask_ent_loss : R) :
  rc !! 0%nat = Some size_reg -> 0 <= size_reg ->
  rc !! 1%nat = Some entropy_reg -> 0 <= entropy_reg ->
  elems mask <> [] ->
  Forall (fun m => 0 < m < 1) (elems mask) ->
  _loss masked_pred original_pred mask rc
    = Ok (cce_loss, size_loss, mask_ent_loss) ->
  0 <= cce_loss
  /\ 0 <= size_loss <= size_reg * INR (length (elems mask))
  /\ 0 <= mask_ent_loss <= entropy_reg * ln 2.
Proof.
  intros H0 Hs H1 He Hne Hm Hl.
  apply loss_inv in Hl as (sr & er & Hsr & Her & Hce & -> & ->).
  rewrite H0 in Hsr. rewrite H1 in Her.
  injection Hsr as <-. injection Her as <-.
  split; [eapply cross_entropy_nonneg; exact Hce|].
  assert (Hsum : INR (length (elems mask)) * 0 <= rsum (elems mask)
                 <= INR (length (elems mask)) * 1).
  { apply rsum_bounds. eapply Forall_impl; [exact Hm|]. intros x Hx. simpl. lra. }
  assert (Hent : 0 <= rmean (map binary_entropy (elems mask)) <= ln 2).
  { apply rmean_bounds.
    - destruct (elems mask); [congruence | discriminate].
    - apply Forall_fmap. eapply Forall_impl; [exact Hm|].
      intros x Hx. simpl. apply binary_entropy_bounds. exact Hx. }
  split; split; nra.
Qed.

(** X7. For a non-empty batch of predictions, a non-empty mask with entries
    strictly between 0 and 1 and non-negative coefficients, the three terms returned by [_loss] are
    bounded: the cross-entropy is non-negative, the size loss lies between 0
    and size_reg times the number of edges, and the entropy loss lies
    between 0 and entropy_reg times log 2. *)
Theorem loss_terms_bounded (masked_pred : matrix) (original_pred : list nat)
    (mask : tensor) (rc : list R) (size_reg entropy_reg : R)
    (cce_loss size_loss mask_ent_loss : R) :
  masked_pred <> [] ->
  rc !! 0%nat = Some size_reg -> 0 <= size_reg ->
  rc !! 1%nat = Some entropy_reg -> 0 <= entropy_reg ->
  elems mask <> [] ->
  Forall (fun m => 0 < m < 1) (elems mask) ->
  _loss masked_pred original_pred mask rc
    = Ok (cce_loss, size_loss, mask_ent_loss) ->
  0 <= cce_loss
  /\ 0 <= size_loss <= size_reg * INR (length (elems mask))
  /\ 0 <= mask_ent_loss <= entropy_reg * ln 2.
Proof. intros _. apply loss_terms_bounds. Qed.

Lemma loss_terms_bounded_witness :
  exists cce_loss size_loss mask_ent_loss,
    _loss [[0; 1]] [1%nat] (Vector [1 / 2; 1 / 4]) [5 / 100; 1]
      = Ok (cce_loss, size_loss, mask_ent_loss)
    /\ 0 <= cce_loss
    /\ 0 <= size_loss <= 5 / 100 * INR 2
    /\ 0 <= mask_ent_loss <= 1 * ln 2.
Proof.
  eexists _, _, _. split; [reflexivity|].
  apply (loss_terms_bounded [[0; 1]] [1%nat] (Vector [1 / 2; 1 / 4])
           [5 / 100; 1] (5 / 100) 1).
  - discriminate.
  - reflexivity.
  - lra.
  - reflexivity.
  - lra.
  - discriminate.
  - repeat constructor; lra.
  - reflexivity.
Defined.

(** X8. How [_loss] fails: with fewer than two coefficients it raises
    IndexError whatever the predictions; with two, a batch of predictions
    whose size differs from the number of targets raises ValueError, and a
    target class beyond the width of the prediction raises IndexError. *)
Theorem loss_errors (mask : tensor) (rc : list R) :
  ((length rc < 2)%nat ->
   forall masked_pred original_pred,
     _loss masked_pred original_pred mask rc = Raise IndexError)
  /\ ((2 <= length rc)%nat ->
      forall masked_pred original_pred,
        length masked_pred <> length original_pred ->
        _loss masked_pred original_pred mask rc = Raise ValueError)
  /\ ((2 <= length rc)%nat ->
      forall row target,
        (length row <= target)%nat ->
        _loss [row] [target] mask rc = Raise IndexError).
Proof.
  split; [|split].
  - intros Hrc masked_pred original_pred. unfold _loss, getitem.
    destruct rc as [|a [|b rc]]; simpl in Hrc; [reflexivity | reflexivity | lia].
  - intros Hrc masked_pred original_pred Hne. unfold _loss.
    destruct (getitem_lt rc 0 ltac:(lia)) as (a & -> & _).
    destruct (getitem_lt rc 1 ltac:(lia)) as (b & -> & _).
    cbn [bind]. unfold cross_entropy.
    apply Nat.eqb_neq in Hne. rewrite Hne. reflexivity.
  - intros Hrc row target Hge. unfold _loss.
    destruct (getitem_lt rc 0 ltac:(lia)) as (a & -> & _).
    destruct (getitem_lt rc 1 ltac:(lia)) as (b & -> & _).
    cbn [bind]. unfold cross_entropy, nll_row, getitem.
    cbn [length Nat.eqb zip zip_with mapM fst snd bind].
    rewrite (lookup_ge_None_2 row target Hge). reflexivity.
Qed.

Lemma loss_errors_witness :
  _loss [[0; 1]] [1%nat] (Vector [1 / 2]) [5 / 100] = Raise IndexError
  /\ _loss [[0; 1]; [1; 0]] [1%nat] (Vector [1 / 2]) [5 / 100; 1]
     = Raise ValueError
  /\ _loss [[0; 1]] [2%nat] (Vector [1 / 2]) [5 / 100; 1] = Raise IndexError.
Proof.
  split; [|split].
  - apply (proj1 (loss_errors (Vector [1 / 2]) [5 / 100])). simpl. lia.
  - apply (proj1 (proj2 (loss_errors (Vector [1 / 2]) [5 / 100; 1]))).
    + simpl. lia.
    + simpl. lia.
  - apply (proj2 (proj2 (loss_errors (Vector [1 / 2]) [5 / 100; 1]))).
    + simpl. lia.
    + simpl. lia.
Defined.

(** ** More on the sampler *)

Lemma sigmoid_monotone (x y : R) : x <= y -> sigmoid x <= sigmoid y.
Proof.
  intros Hxy. unfold sigmoid.
  pose proof (exp_pos (- x)) as Hx. pose proof (exp_pos (- y)) as Hy.
  assert (Hexp : exp (- y) <= exp (- x)).
  { destruct Hxy as [Hlt| ->]; [left; apply exp_increasing; lra | right; reflexivity]. }
  unfold Rdiv. rewrite !Rmult_1_l.
  apply Rinv_le_contravar; lra.
Qed.

Lemma zip_with_gate_monotone (temperature : R) (us : list R) :
  0 < temperature ->
  forall ws ws',
    Forall2 Rle ws ws' ->
    Forall2 Rle (zip_with (training_gate temperature) us ws)
                (zip_with (training_gate temperature) us ws').
Proof.
  intros Ht. induction us as [|u us IH]; intros ws ws' Hle.
  - constructor.
  - destruct Hle as [|w w' ws ws' Hw Hle]; [constructor|].
    cbn [zip_with]. constructor; [|apply IH; exact Hle].
    unfold training_gate. apply sigmoid_monotone.
    apply Rmult_le_compat_r; [left; apply Rinv_0_lt_compat; exact Ht | lra].
Qed.

(** X9. The sampler is monotone in the logits: with the same random draws
    and a positive temperature, raising logits never lowers any mask entry,
    in training mode and in inference mode alike. *)
Theorem sample_graph_monotone `{Collaborators} (ws ws' : list R)
    (temperature bias : R) (training : bool) (g : Rng) :
  0 < temperature ->
  Forall2 Rle ws ws' ->
  Forall2 Rle (fst (_sample_graph ws temperature bias training g))
              (fst (_sample_graph ws' temperature bias training g)).
Proof.
  intros Ht Hle. destruct training.
  - rewrite !training_mode_unfold. cbn [fst].
    rewrite <- (Forall2_length _ _ _ Hle).
    apply zip_with_gate_monotone; assumption.
  - cbn [_sample_graph fst].
    induction Hle as [|w w' ws ws' Hw _ IH]; [constructor|].
    cbn [map]. constructor; [apply sigmoid_monotone; exact Hw | exact IH].
Qed.

Lemma sample_graph_monotone_witness :
  Forall2 Rle (fst (@_sample_graph replay [0; 1] 5 0 true [1 / 2; 1 / 4]))
              (fst (@_sample_graph replay [1; 1] 5 0 true [1 / 2; 1 / 4])).
Proof.
  apply (@sample_graph_monotone replay [0; 1] [1; 1] 5 0 true [1 / 2; 1 / 4]).
  - lra.
  - repeat constructor; lra.
Defined.

(** ** More on the explainer input *)

Lemma getitem_Raise {A : Type} (l : list A) (i : nat) (e : exn) :
  getitem l i = Raise e -> e = IndexError /\ (length l <= i)%nat.
Proof.
  unfold getitem. destruct (l !! i) eqn:Hl; [discriminate|].
  intros Hr. injection Hr as <-. split; [reflexivity|].
  apply lookup_ge_None. exact Hl.
Qed.

Lemma mapM_Raise_inv {A B : Type} (f : A -> result B) (l : list A) (e : exn) :
  mapM f l = Raise e -> exists a, a ∈ l /\ f a = Raise e.
Proof.
  induction l as [|a l IH]; simpl; [discriminate|].
  destruct (f a) as [b|e'] eqn:Hfa; cbn [bind].
  - destruct (mapM f l) as [bs|e'] eqn:Hm; cbn [bind]; [discriminate|].
    intros Hr. injection Hr as ->.
    destruct (IH eq_refl) as (a' & Hin & Ha'). exists a'.
    split; [right; exact Hin | exact Ha'].
  - intros Hr. injection Hr as ->. exists a. split; [left | exact Hfa].
Qed.

Lemma index_select_Raise (embeds : matrix) (rows : list nat) (e : exn) :
  index_select embeds rows = Raise e ->
  e = IndexError /\ exists r, r ∈ rows /\ (length embeds <= r)%nat.
Proof.
  intros Hr. apply mapM_Raise_inv in Hr as (r & Hin & Hr).
  apply getitem_Raise in Hr as [-> Hge].
  split; [reflexivity|]. exists r. split; assumption.
Qed.

Lemma index_select_Ok (embeds : matrix) (rows : list nat) (out : matrix) :
  index_select embeds rows = Ok out ->
  Forall (fun r => (r < length embeds)%nat) rows.
Proof.
  intros Ho. apply mapM_Ok_inv in Ho as [_ Hlk].
  apply Forall_lookup_2. intros i r Hi.
  destruct (Hlk i r Hi) as (b & Hb & _).
  apply getitem_Ok in Hb. apply lookup_lt_Some in Hb. exact Hb.
Qed.

Lemma create_explainer_input_Ok_covered (ty : task) (pair : Graph)
    (embeds : matrix) (node_id : nat) (input_expl : matrix) :
  _create_explainer_input ty pair embeds node_id = Ok input_expl ->
  covered ty pair embeds node_id.
Proof.
  unfold _create_explainer_input. intros Hc. cbv zeta in Hc.
  inv_bind Hc. inv_bind Hc.
  apply index_select_Ok in E, E0.
  unfold graph_row0 in E. unfold graph_row1 in E0.
  split.
  - apply Forall_lookup_2. intros i e Hi. split.
    + apply (Forall_lookup_1 _ _ i _ E).
      rewrite list_lookup_fmap, Hi. reflexivity.
    + apply (Forall_lookup_1 _ _ i _ E0).
      rewrite list_lookup_fmap, Hi. reflexivity.
  - intros ->. inv_bind Hc. apply getitem_Ok in E1.
    apply lookup_lt_Some in E1. exact E1.
Qed.

Lemma create_explainer_input_Raise (ty : task) (pair : Graph)
    (embeds : matrix) (node_id : nat) (e : exn) :
  _create_explainer_input ty pair embeds node_id = Raise e ->
  e = IndexError /\ ~ covered ty pair embeds node_id.
Proof.
  unfold _create_explainer_input. intros Hc. cbv zeta in Hc.
  destruct (index_select embeds (graph_row0 pair)) as [re|e1] eqn:Hre;
    cbn [bind] in Hc.
  2: { injection Hc as ->.
       apply index_select_Raise in Hre as [-> (r & Hin & Hge)].
       split; [reflexivity|]. intros [Hcov _].
       unfold graph_row0 in Hin. apply list_elem_of_fmap in Hin as (x & -> & Hx).
       apply list_elem_of_lookup in Hx as [i Hi].
       apply (Forall_lookup_1 _ _ _ _ Hcov) in Hi as [Hlt _]. lia. }
  destruct (index_select embeds (graph_row1 pair)) as [ce|e1] eqn:Hce;
    cbn [bind] in Hc.
  2: { injection Hc as ->.
       apply index_select_Raise in Hce as [-> (r & Hin & Hge)].
       split; [reflexivity|]. intros [Hcov _].
       unfold graph_row1 in Hin. apply list_elem_of_fmap in Hin as (x & -> & Hx).
       apply list_elem_of_lookup in Hx as [i Hi].
       apply (Forall_lookup_1 _ _ _ _ Hcov) in Hi as [_ Hlt]. lia. }
  destruct ty; [|discriminate].
  destruct (getitem embeds node_id) as [en|e1] eqn:Hen; cbn [bind] in Hc;
    [discriminate|].
  injection Hc as ->. apply getitem_Raise in Hen as [-> Hge].
  split; [reflexivity|]. intros [_ Hn]. specialize (Hn eq_refl). lia.
Qed.

(** X10. The input builder succeeds exactly when the embedding matrix has a
    row for every endpoint of the edge list (and for the explained node, in
    a node task); otherwise it raises IndexError, and it raises nothing
    else. *)
Theorem create_explainer_input_fails_iff_uncovered (ty : task) (pair : Graph)
    (embeds : matrix) (node_id : nat) :
  ((exists input_expl,
       _create_explainer_input ty pair embeds node_id = Ok input_expl)
   <-> covered ty pair embeds node_id)
  /\ (_create_explainer_input ty pair embeds node_id = Raise IndexError
      <-> ~ covered ty pair embeds node_id)
  /\ (forall e, _create_explainer_input ty pair embeds node_id = Raise e ->
                e = IndexError).
Proof.
  assert (Hok : (exists input_expl,
                    _create_explainer_input ty pair embeds node_id = Ok input_expl)
                <-> covered ty pair embeds node_id).
  { split.
    - intros [input_expl Hi]. eapply create_explainer_input_Ok_covered, Hi.
    - intros Hcov.
      destruct (_create_explainer_input ty pair embeds node_id) as [i|e] eqn:Hc.
      + exists i. reflexivity.
      + apply create_explainer_input_Raise in Hc as [_ Hn]. contradiction. }
  split; [exact Hok|]. split.
  - split.
    + intros Hr. apply create_explainer_input_Raise in Hr as [_ Hn]. exact Hn.
    + intros Hn.
      destruct (_create_explainer_input ty pair embeds node_id) as [i|e] eqn:Hc.
      * exfalso. apply Hn. apply Hok. exists i. reflexivity.
      * apply create_explainer_input_Raise in Hc as [-> _]. reflexivity.
  - intros e Hr. apply create_explainer_input_Raise in Hr as [-> _]. reflexivity.
Qed.

Lemma create_explainer_input_fails_iff_uncovered_witness :
  _create_explainer_input graph_task [(0, 5)]%nat [[1]; [2]] 0
    = Raise IndexError
  /\ exists input_expl,
       _create_explainer_input node [(0, 1)]%nat [[1]; [2]] 1 = Ok input_expl.
Proof.
  split.
  - apply (proj1 (proj2 (create_explainer_input_fails_iff_uncovered
                            graph_task [(0, 5)]%nat [[1]; [2]] 0))).
    intros [Hcov _]. apply Forall_cons in Hcov as [[_ Hlt] _].
    simpl in Hlt. lia.
  - apply (proj1 (create_explainer_input_fails_iff_uncovered
                    node [(0, 1)]%nat [[1]; [2]] 1)).
    split; [repeat constructor; simpl; lia | intros _; simpl; lia].
Defined.

Lemma cat1_replicate (m : matrix) (en : list R) :
  cat1 m (replicate (length m) en) = map (fun row => row ++ en) m.
Proof.
  unfold cat1. induction m as [|row m IH]; [reflexivity|].
  simpl. f_equal. exact IH.
Qed.

(** X11. The input of a node task is the input of the graph task on the same
    edge list and embeddings, with the embedding of the explained node
    appended to every row. *)
Theorem create_explainer_input_node_extends_graph (pair : Graph)
    (embeds : matrix) (node_id : nat) (input_node : matrix) :
  _create_explainer_input node pair embeds node_id = Ok input_node ->
  exists input_graph en,
    _create_explainer_input graph_task pair embeds node_id = Ok input_graph
    /\ embeds !! node_id = Some en
    /\ input_node = map (fun row => row ++ en) input_graph.
Proof.
  unfold _create_explainer_input. intros Hc. cbv zeta in Hc. cbv zeta.
  inv_bind Hc. inv_bind Hc. inv_bind Hc. injection Hc as <-.
  exists (cat1 a a0), a1. split; [reflexivity|].
  split; [apply getitem_Ok; exact E1|].
  apply mapM_Ok_inv in E as [Hla _]. apply mapM_Ok_inv in E0 as [Hlb _].
  rewrite <- cat1_replicate. f_equal. f_equal.
  unfold cat1. rewrite length_zip_with.
  unfold graph_row0, graph_row1 in *. rewrite length_map in *. lia.
Qed.

Lemma create_explainer_input_node_extends_graph_witness :
  exists input_graph en,
    _create_explainer_input graph_task [(0, 1); (1, 0)]%nat [[1; 2]; [3; 4]] 1
      = Ok input_graph
    /\ [[1; 2]; [3; 4]] !! 1%nat = Some en
    /\ [[1; 2; 3; 4; 3; 4]; [3; 4; 1; 2; 3; 4]]
       = map (fun row => row ++ en) input_graph.
Proof.
  apply (create_explainer_input_node_extends_graph [(0, 1); (1, 0)]%nat
           [[1; 2]; [3; 4]] 1 [[1; 2; 3; 4; 3; 4]; [3; 4; 1; 2; 3; 4]]).
  reflexivity.
Defined.

(** ** The mask predictor and its shapes *)

Lemma dot_Ok (w x : list R) :
  length w = length x -> dot w x = Ok (rsum (zip_with Rmult w x)).
Proof.
  intros Hl. unfold dot. apply Nat.eqb_eq in Hl. rewrite Hl. reflexivity.
Qed.

Lemma dot_Raise (w x : list R) :
  length w <> length x -> dot w x = Raise RuntimeError.
Proof.
  intros Hl. unfold dot. apply Nat.eqb_neq in Hl. rewrite Hl. reflexivity.
Qed.

Lemma neuron_apply_Raise (x : list R) (nb : neuron) (e : exn) :
  neuron_apply x nb = Raise e ->
  e = RuntimeError /\ length (fst nb) <> length x.
Proof.
  unfold neuron_apply, dot.
  destruct (length (fst nb) =? length x)%nat eqn:Hl; cbn [bind]; [discriminate|].
  intros Hr. injection Hr as <-. apply Nat.eqb_neq in Hl. split; [reflexivity|exact Hl].
Qed.

Lemma linear_Ok (layer : list neuron) (x : list R) :
  Forall (fun nb => length (fst nb) = length x) layer ->
  exists h, linear layer x = Ok h /\ length h = length layer.
Proof.
  intros Hall. unfold linear.
  destruct (mapM_total (neuron_apply x) layer) as [h Hh].
  { eapply Forall_impl; [exact Hall|]. intros nb Hnb.
    unfold neuron_apply. rewrite (dot_Ok _ _ Hnb). eexists. reflexivity. }
  exists h. split; [exact Hh|]. apply (mapM_Ok_inv _ _ _ Hh).
Qed.

Lemma mlp_shape_inv (P : MLP) (h d : nat) :
  mlp_shape P = (replicate h d, h) ->
  Forall (fun nb => length (fst nb) = d) (fc1 P)
  /\ length (fc1 P) = h
  /\ length (fst (fc2 P)) = h.
Proof.
  unfold mlp_shape. intros Hs. injection Hs as Hw Hh.
  assert (Hlen : length (fc1 P) = h).
  { apply (f_equal length) in Hw.
    rewrite length_map, length_replicate in Hw. exact Hw. }
  split; [|split; assumption].
  apply Forall_lookup_2. intros i nb Hi.
  assert (Hi' : map (fun nb => length (fst nb)) (fc1 P) !! i
                = Some (length (fst nb)))
    by (rewrite list_lookup_fmap, Hi; reflexivity).
  rewrite Hw in Hi'. apply lookup_replicate in Hi' as [Hd _]. exact Hd.
Qed.

Lemma mlp_row_Ok (P : MLP) (h d : nat) (x : list R) :
  mlp_shape P = (replicate h d, h) -> length x = d ->
  exists y, mlp_row P x = Ok y.
Proof.
  intros Hs Hx. apply mlp_shape_inv in Hs as (Hw & Hl & H2).
  destruct (linear_Ok (fc1 P) x) as (hid & Hhid & Hlen).
  { eapply Forall_impl; [exact Hw|]. intros nb Hnb. simpl. congruence. }
  unfold mlp_row. rewrite Hhid. cbn [bind].
  unfold neuron_apply. rewrite dot_Ok; [eexists; reflexivity|].
  rewrite length_map. congruence.
Qed.

Lemma mlp_row_Raise (P : MLP) (x : list R) (e : exn) :
  mlp_row P x = Raise e -> e = RuntimeError.
Proof.
  unfold mlp_row. intros Hr.
  destruct (linear (fc1 P) x) as [hid|e1] eqn:Hl; cbn [bind] in Hr.
  - apply neuron_apply_Raise in Hr as [-> _]. reflexivity.
  - injection Hr as ->. apply mapM_Raise_inv in Hl as (nb & _ & Hnb).
    apply neuron_apply_Raise in Hnb as [-> _]. reflexivity.
Qed.

Lemma mlp_row_wrong_width (P : MLP) (h d : nat) (x : list R) :
  mlp_shape P = (replicate h d, h) -> (0 < h)%nat -> length x <> d ->
  mlp_row P x = Raise RuntimeError.
Proof.
  intros Hs Hh Hx. apply mlp_shape_inv in Hs as (Hw & Hl & _).
  destruct (fc1 P) as [|nb layer] eqn:Hfc; [simpl in Hl; lia|].
  apply Forall_cons in Hw as [Hnb _].
  unfold mlp_row, linear. rewrite Hfc. cbn [mapM].
  unfold neuron_apply at 1. rewrite dot_Raise by congruence. reflexivity.
Qed.

Lemma explainer_model_apply_shapes (P : MLP) (h d : nat) (input_expl : matrix) :
  mlp_shape P = (replicate h d, h) ->
  (0 < h)%nat ->
  (Forall (fun row => length row = d) input_expl ->
   exists ws,
     explainer_model_apply P input_expl = Ok ws
     /\ length ws = length input_expl)
  /\ (~ Forall (fun row => length row = d) input_expl ->
      explainer_model_apply P input_expl = Raise RuntimeError).
Proof.
  intros Hs Hh. unfold explainer_model_apply. split.
  - intros Hall.
    destruct (mapM_total (mlp_row P) input_expl) as [ws Hws].
    { eapply Forall_impl; [exact Hall|]. intros row Hrow.
      apply (mlp_row_Ok P h d row Hs Hrow). }
    exists ws. split; [exact Hws|]. apply (mapM_Ok_inv _ _ _ Hws).
  - intros Hn.
    destruct (mapM (mlp_row P) input_expl) as [ws|e] eqn:Hm.
    + exfalso. apply Hn. apply mapM_Ok_inv in Hm as [_ Hlk].
      apply Forall_lookup_2. intros i row Hi.
      destruct (Hlk i row Hi) as (y & Hy & _).
      destruct (Nat.eq_dec (length row) d) as [Heq|Hne]; [exact Heq|].
      rewrite (mlp_row_wrong_width P h d row Hs Hh Hne) in Hy. discriminate.
    + apply mapM_Raise_inv in Hm as (row & _ & Hrow).
      apply mlp_row_Raise in Hrow as ->. reflexivity.
Qed.

(** X12. A mask predictor with [h] > 0 hidden neurons of input width [d]
    (the layout [prepare] builds, with h = 64) returns one logit per row
    when every row of its input has width [d], and raises RuntimeError as
    soon as one row has another width. *)
Theorem mask_predictor_shapes (P : MLP) (h d : nat) (input_expl : matrix) :
  mlp_shape P = (replicate h d, h) ->
  (0 < h)%nat ->
  (Forall (fun row => length row = d) input_expl ->
   exists ws,
     explainer_model_apply P input_expl = Ok ws
     /\ length ws = length input_expl)
  /\ (~ Forall (fun row => length row = d) input_expl ->
      explainer_model_apply P input_expl = Raise RuntimeError).
Proof. apply explainer_model_apply_shapes. Qed.

Lemma mask_predictor_shapes_witness :
  (exists ws,
      explainer_model_apply toy_mlp [[1; 2]; [2; 1]] = Ok ws
      /\ length ws = 2%nat)
  /\ explainer_model_apply toy_mlp [[1; 2]; [2; 1; 0]] = Raise RuntimeError.
Proof.
  split.
  - apply (proj1 (mask_predictor_shapes toy_mlp 64 2 [[1; 2]; [2; 1]]
                    eq_refl ltac:(lia))).
    repeat constructor.
  - apply (proj2 (mask_predictor_shapes toy_mlp 64 2 [[1; 2]; [2; 1; 0]]
                    eq_refl ltac:(lia))).
    intros Hall. apply Forall_cons in Hall as [_ Hall].
    apply Forall_cons in Hall as [Hrow _]. simpl in Hrow. lia.
Defined.

(** ** More on the explanation extractor *)

Lemma index_select_width (embeds : matrix) (rows : list nat) (out : matrix)
    (d : nat) :
  Forall (fun row => length row = d) embeds ->
  index_select embeds rows = Ok out ->
  Forall (fun row => length row = d) out.
Proof.
  intros Hw Ho. unfold index_select in Ho.
  apply (mapM_Forall _ (fun row => length row = d)) in Ho; [exact Ho|].
  intros r row Hr. apply getitem_Ok in Hr.
  apply (Forall_lookup_1 _ _ _ _ Hw Hr).
Qed.

Lemma cat1_width (a b : matrix) (da db : nat) :
  Forall (fun row => length row = da) a ->
  Forall (fun row => length row = db) b ->
  Forall (fun row => length row = (da + db)%nat) (cat1 a b).
Proof.
  intros Ha Hb. unfold cat1. apply Forall_lookup_2. intros i row Hi.
  apply lookup_zip_with_Some in Hi as (ra & rb & -> & Hra & Hrb).
  rewrite length_app.
  rewrite (Forall_lookup_1 _ _ _ _ Ha Hra), (Forall_lookup_1 _ _ _ _ Hb Hrb).
  reflexivity.
Qed.

Lemma create_explainer_input_width (ty : task) (pair : Graph)
    (embeds : matrix) (node_id d : nat) (input_expl : matrix) :
  Forall (fun row => length row = d) embeds ->
  _create_explainer_input ty pair embeds node_id = Ok input_expl ->
  Forall (fun row => length row = expl_embedding ty d) input_expl
  /\ length input_expl = length pair.
Proof.
  intros Hw Hc. unfold _create_explainer_input in Hc. cbv zeta in Hc.
  inv_bind Hc. inv_bind Hc.
  pose proof (index_select_width _ _ _ _ Hw E) as Ha.
  pose proof (index_select_width _ _ _ _ Hw E0) as Hb.
  apply mapM_Ok_inv in E as [Hla _]. apply mapM_Ok_inv in E0 as [Hlb _].
  unfold graph_row0, graph_row1 in *. rewrite length_map in *.
  destruct ty.
  - inv_bind Hc. injection Hc as <-. apply getitem_Ok in E.
    split.
    + replace (expl_embedding node d) with ((d + d) + d)%nat
        by (unfold expl_embedding; lia).
      apply cat1_width; [apply cat1_width; assumption|].
      apply Forall_forall. intros row Hrow.
      apply elem_of_replicate in Hrow as [-> _].
      apply (Forall_lookup_1 _ _ _ _ Hw E).
    + unfold cat1. rewrite !length_zip_with, length_replicate. lia.
  - injection Hc as <-. split.
    + replace (expl_embedding graph_task d) with (d + d)%nat
        by (unfold expl_embedding; lia).
      apply cat1_width; assumption.
    + unfold cat1. rewrite length_zip_with. lia.
Qed.

(** The graph and the embeddings that [explain] and [train] work on for an
    index. *)
Lemma explain_logits_total `{Collaborators} (self : PGExplainer) (P : MLP)
    (index h d : nat) (graph : Graph) (embeds : matrix) :
  match data self with
  | NodeData features graphs =>
      graph = k_hop_subgraph index 3 graphs
      /\ embeds = embedding (model_to_explain self) features graphs
  | GraphData samples =>
      exists feats,
        samples !! index = Some (feats, graph)
        /\ embeds = embedding (model_to_explain self) feats graph
  end ->
  Forall (fun row => length row = d) embeds ->
  covered (type self) graph embeds index ->
  mlp_shape P = (replicate h (expl_embedding (type self) d), h) ->
  (0 < h)%nat ->
  exists ws,
    explain_logits self P index = Ok (graph, ws) /\ length ws = length graph.
Proof.
  intros Hdata Hw Hcov Hs Hh.
  assert (Hin : exists input_expl,
            _create_explainer_input (type self) graph embeds index
            = Ok input_expl).
  { destruct (_create_explainer_input (type self) graph embeds index)
      as [i|e] eqn:Hc; [exists i; reflexivity|].
    apply create_explainer_input_Raise in Hc as [_ Hn]. contradiction. }
  destruct Hin as [input_expl Hin].
  destruct (create_explainer_input_width _ _ _ _ _ _ Hw Hin) as [Hrows Hlen].
  destruct (proj1 (explainer_model_apply_shapes P h _ input_expl Hs Hh) Hrows)
    as (ws & Hws & Hwl).
  exists ws. split; [|congruence].
  unfold explain_logits. cbv zeta. unfold type in Hin |- *.
  destruct (data self) as [features graphs|samples].
  - destruct Hdata as [-> ->]. cbn [bind].
    rewrite Hin. cbn [bind]. rewrite Hws. reflexivity.
  - destruct Hdata as (feats & Hs' & ->).
    rewrite (proj2 (getitem_Ok samples index (feats, graph)) Hs').
    cbn [bind fst snd]. rewrite Hin. cbn [bind]. rewrite Hws. reflexivity.
Qed.

(** X13. [explain] succeeds by construction away from the single-edge case:
    when the embeddings of the explained model have rows of one width [d]
    and cover the graph of the index, the mask predictor has the layout for
    that width, [index_edge] returns the positions of an edge in the edge
    list, and the graph does not have exactly one edge, [explain] returns
    that graph with one weight per edge, each the sigmoid of the logit of
    its edge and between 0 and 1, and leaves the generator alone. *)
Theorem explain_total `{Collaborators} (self : PGExplainer) (P : MLP)
    (index h d : nat) (g : Rng) (graph : Graph) (embeds : matrix) :
  (forall graph e t, t ∈ index_edge graph e <-> graph !! t = Some e) ->
  match data self with
  | NodeData features graphs =>
      graph = k_hop_subgraph index 3 graphs
      /\ embeds = embedding (model_to_explain self) features graphs
  | GraphData samples =>
      exists feats,
        samples !! index = Some (feats, graph)
        /\ embeds = embedding (model_to_explain self) feats graph
  end ->
  Forall (fun row => length row = d) embeds ->
  covered (type self) graph embeds index ->
  mlp_shape P = (replicate h (expl_embedding (type self) d), h) ->
  (0 < h)%nat ->
  length graph <> 1%nat ->
  exists ws,
    explain_logits self P index = Ok (graph, ws)
    /\ explain self P index g = (Ok (graph, map sigmoid ws), g)
    /\ length (map sigmoid ws) = length graph
    /\ Forall (fun w => 0 <= w <= 1) (map sigmoid ws).
Proof.
  intros Hidx Hdata Hw Hcov Hs Hh Hne.
  destruct (explain_logits_total self P index h d graph embeds
              Hdata Hw Hcov Hs Hh) as (ws & Hl & Hlen).
  exists ws. split; [exact Hl|].
  destruct (explain_scatters_sigmoid self P index g graph ws Hidx Hl
              ltac:(congruence)) as [He Hlen'].
  split; [exact He|]. split; [exact Hlen'|].
  eapply Forall_impl; [apply Forall_map_sigmoid|].
  intros w Hw'. cbv beta in Hw'. lra.
Qed.

Lemma explain_total_witness :
  exists ws,
    @explain_logits replay (toy_explainer [two_cycle] 1 default_reg_coefs)
       toy_mlp 0 = Ok (two_cycle, ws)
    /\ @explain replay (toy_explainer [two_cycle] 1 default_reg_coefs)
          toy_mlp 0 [1 / 2]
       = (Ok (two_cycle, map sigmoid ws), [1 / 2])
    /\ length (map sigmoid ws) = length two_cycle
    /\ Forall (fun w => 0 <= w <= 1) (map sigmoid ws).
Proof.
  apply (@explain_total replay (toy_explainer [two_cycle] 1 default_reg_coefs)
           toy_mlp 0 64 1 [1 / 2] two_cycle [[1]; [2]]).
  - intros graph e t. apply edge_positions_spec.
  - exists [[1]; [2]]. split; reflexivity.
  - repeat constructor.
  - split; [repeat constructor | discriminate].
  - reflexivity.
  - lia.
  - simpl. lia.
Defined.

(** X14. For a graph task, [explain] of an index beyond the dataset raises
    IndexError and leaves the generator alone. *)
Theorem explain_index_out_of_range `{Collaborators} (self : PGExplainer)
    (P : MLP) (index : nat) (g : Rng) (samples : list (matrix * Graph)) :
  data self = GraphData samples ->
  (length samples <= index)%nat ->
  explain self P index g = (Raise IndexError, g).
Proof.
  intros Hd Hge. unfold explain, explain_logits. cbv zeta.
  rewrite Hd. unfold getitem. rewrite (lookup_ge_None_2 samples index Hge).
  reflexivity.
Qed.

Lemma explain_index_out_of_range_witness :
  @explain replay (toy_explainer [two_cycle] 1 default_reg_coefs) toy_mlp 1
     [1 / 2] = (Raise IndexError, [1 / 2]).
Proof.
  apply (@explain_index_out_of_range replay
           (toy_explainer [two_cycle] 1 default_reg_coefs) toy_mlp 1 [1 / 2]
           [([[1]; [2]], two_cycle)]).
  - reflexivity.
  - simpl. lia.
Defined.

(** ** More on the training loop *)



Lemma rsum_terms_total (ls : list terms) :
  rsum (map terms_total ls)
  = rsum (map cce_of ls) + rsum (map size_of ls) + rsum (map ent_of ls)
    + rsum (map conn_of ls).
Proof.
  induction ls as [|[[[c s] en] k] ls IH].
  - unfold rsum. simpl. lra.
  - rewrite !map_cons, !rsum_cons, IH.
    cbn [terms_total cce_of size_of ent_of conn_of fst snd]. lra.
Qed.

(** X16. In every completed epoch the logged "norm loss" is the sum of the
    logged "pred loss", "size loss", "ent loss" and "conn loss" of that
    epoch, and the loss passed to the backward pass is that sum times the
    number of indices. *)
Theorem train_epoch_logged_total `{Collaborators} (self : PGExplainer)
    (node_embeds : matrix) (indices : list nat) (st st' : TrainState) (e : nat) :
  indices <> [] ->
  train_epoch self node_embeds indices st e = Ok st' ->
  exists norm pred size ent conn,
    trace st' = trace st ++
      [ ZeroGrad; Backward (norm * INR (length indices)); OptimizerStep;
        AddScalar "norm loss" norm e; AddScalar "size loss" size e;
        AddScalar "conn loss" conn e; AddScalar "pred loss" pred e;
        AddScalar "ent loss" ent e ]
    /\ norm = pred + size + ent + conn.
Proof.
  intros Hne Ht.
  apply train_epoch_events in Ht as (ls & _ & Hlen & Htr).
  assert (Hn : INR (length indices) <> 0).
  { apply not_0_INR. destruct indices; [congruence | simpl; lia]. }
  exists (rsum (map terms_total ls) / INR (length indices)),
         (rsum (map cce_of ls) / INR (length indices)),
         (rsum (map size_of ls) / INR (length indices)),
         (rsum (map ent_of ls) / INR (length indices)),
         (rsum (map conn_of ls) / INR (length indices)).
  split.
  - rewrite Htr. unfold epoch_events. rewrite Hlen.
    replace (rsum (map terms_total ls) / INR (length indices)
             * INR (length indices))
      with (rsum (map terms_total ls)) by (field; exact Hn).
    reflexivity.
  - rewrite rsum_terms_total. field. exact Hn.
Qed.

Lemma train_epoch_logged_total_witness :
  exists st' norm pred size ent conn,
    @train_epoch replay (toy_explainer [two_cycle] 2 [5 / 100; 1; 1]) []
       [0%nat] (@Build_TrainState replay toy_mlp tt [1 / 2; 1 / 4] []) 0
      = Ok st'
    /\ trace st' =
         [ ZeroGrad; Backward (norm * INR 1); OptimizerStep;
           AddScalar "norm loss" norm 0; AddScalar "size loss" size 0;
           AddScalar "conn loss" conn 0; AddScalar "pred loss" pred 0;
           AddScalar "ent loss" ent 0 ]
    /\ norm = pred + size + ent + conn.
Proof.
  destruct (toy_train_epoch_ok [5 / 100; 1; 1] (5 / 100) 1 1 2
              (@Build_TrainState replay toy_mlp tt [1 / 2; 1 / 4] []) 0
              eq_refl eq_refl eq_refl eq_refl) as (st' & Hst' & _).
  exists st'.
  destruct (@train_epoch_logged_total replay
              (toy_explainer [two_cycle] 2 [5 / 100; 1; 1]) [] [0%nat]
              (@Build_TrainState replay toy_mlp tt [1 / 2; 1 / 4] []) st' 0
              ltac:(discriminate) Hst')
    as (norm & pred & size & ent & conn & Htr & Hsum).
  exists norm, pred, size, ent, conn.
  split; [exact Hst'|]. split; [exact Htr | exact Hsum].
Defined.

Lemma sweep_fails `{Collaborators} (self : PGExplainer) (P : MLP)
    (node_embeds : matrix) (t : R) (n : nat) (indices : list nat) :
  (forall g, exists e, example_terms self P node_embeds t n g = Raise e) ->
  n ∈ indices ->
  forall acc g, exists e, sweep self P node_embeds t indices acc g = Raise e.
Proof.
  intros Hbad. induction indices as [|m rest IH]; intros Hin acc g.
  - inversion Hin.
  - cbn [sweep].
    destruct (example_terms self P node_embeds t m g) as [[l g']|e] eqn:Hm;
      cbn [bind]; [|exists e; reflexivity].
    apply elem_of_cons in Hin as [->|Hin].
    + destruct (Hbad g) as [e He]. rewrite He in Hm. discriminate.
    + apply IH. exact Hin.
Qed.

Lemma train_fails_on_bad_index `{Collaborators} (self : PGExplainer)
    (P : MLP) (g : Rng) (n : nat) (indices : list nat) :
  (forall P node_embeds t g,
     exists e, example_terms self P node_embeds t n g = Raise e) ->
  n ∈ indices ->
  (1 <= epochs self)%nat ->
  exists e, train self P g indices = Raise e.
Proof.
  intros Hbad Hin Hep. unfold train. cbv zeta.
  destruct (epochs self) as [|k] eqn:Hk; [lia|].
  cbn [seq train_epochs]. unfold train_epoch. cbv zeta.
  cbn [explainer_model rng].
  match goal with
  | |- context [sweep ?s ?p ?ne ?t ?ix ?acc ?g0] =>
      destruct (sweep_fails s p ne t n ix (Hbad p ne t) Hin acc g0) as [e He];
      rewrite He
  end.
  exists e. reflexivity.
Qed.

Ltac inv_bind_as H E :=
  match type of H with
  | bind ?m _ = Ok _ =>
      destruct m eqn:E; cbn [bind] in H; [|discriminate H]
  end.

Lemma create_explainer_input_length (ty : task) (pair : Graph)
    (embeds : matrix) (node_id : nat) (input_expl : matrix) :
  _create_explainer_input ty pair embeds node_id = Ok input_expl ->
  length input_expl = length pair.
Proof.
  intros Hc. unfold _create_explainer_input in Hc. cbv zeta in Hc.
  inv_bind Hc. inv_bind Hc.
  apply mapM_Ok_inv in E as [Hla _]. apply mapM_Ok_inv in E0 as [Hlb _].
  unfold graph_row0, graph_row1 in *. rewrite length_map in *.
  destruct ty.
  - inv_bind Hc. injection Hc as <-.
    unfold cat1. rewrite !length_zip_with, length_replicate. lia.
  - injection Hc as <-. unfold cat1. rewrite length_zip_with. lia.
Qed.

Lemma example_forward_inv `{Collaborators} (self : PGExplainer) (P : MLP)
    (node_embeds : matrix) (t : R) (n : nat) (g g' : Rng) (graph : Graph)
    (mask : tensor) (l : R * R * R) :
  example_forward self P node_embeds t n g = Ok (graph, mask, l, g') ->
  exists embeds input_expl ws,
    match data self with
    | NodeData _ graphs => graph = k_hop_subgraph n 3 graphs
    | GraphData samples => exists feats, samples !! n = Some (feats, graph)
    end
    /\ _create_explainer_input (type self) graph embeds n = Ok input_expl
    /\ explainer_model_apply P input_expl = Ok ws
    /\ mask = squeeze (fst (_sample_graph ws t (sample_bias self) true g)).
Proof.
  unfold example_forward. intros Hf. cbv zeta in Hf.
  inv_bind_as Hf Hdata. destruct a as [[feats graph0] embeds].
  inv_bind_as Hf Hin. inv_bind_as Hf Hws.
  destruct (_sample_graph a0 t (sample_bias self) true g) as [m g1] eqn:Hs.
  inv_bind_as Hf Hpred. destruct a1 as [masked_pred original_pred].
  inv_bind_as Hf Harg. inv_bind_as Hf Hloss. injection Hf as <- <- <- <-.
  exists embeds, a, a0. rewrite Hs. cbn [fst].
  split; [|repeat split; assumption].
  destruct (data self) as [features graphs|samples].
  - injection Hdata as _ <- _. reflexivity.
  - inv_bind_as Hdata Hget. injection Hdata as <- <- _. exists (fst a3).
    apply getitem_Ok in Hget. destruct a3. exact Hget.
Qed.

Lemma example_terms_single_edge `{Collaborators} (self : PGExplainer)
    (P : MLP) (node_embeds : matrix) (t : R) (n : nat) (g : Rng)
    (edge : nat * nat) :
  match data self with
  | NodeData _ graphs => k_hop_subgraph n 3 graphs = [edge]
  | GraphData samples => exists feats, samples !! n = Some (feats, [edge])
  end ->
  exists e, example_terms self P node_embeds t n g = Raise e.
Proof.
  intros Hdata. unfold example_terms.
  destruct (example_forward self P node_embeds t n g)
    as [[[[graph mask] [[c s] en]] g']|e] eqn:Hf; cbn [bind];
    [|exists e; reflexivity].
  apply example_forward_inv in Hf
    as (embeds & input_expl & ws & Hgraph & Hin & Hws & Hmask).
  assert (Hg : graph = [edge]).
  { destruct (data self) as [features graphs|samples].
    - congruence.
    - destruct Hdata as (feats & Hs1). destruct Hgraph as (feats' & Hs2).
      congruence. }
  subst graph.
  destruct (le_lt_dec 3 (length (reg_coefs self))) as [Hrc|Hrc].
  2: { rewrite connectivity_loss_short_coefs by exact Hrc.
       exists IndexError. reflexivity. }
  destruct (connectivity_loss_raises_index (reg_coefs self) Hrc)
    as (_ & Hscalar & Hshort).
  assert (Hlen : (length (fst (_sample_graph ws t (sample_bias self) true g))
                  <= 1)%nat).
  { rewrite training_mode_unfold. cbn [fst]. rewrite length_zip_with.
    apply mapM_Ok_inv in Hws as [Hwl _].
    apply create_explainer_input_length in Hin. simpl in Hin. lia. }
  exists IndexError.
  destruct (fst (_sample_graph ws t (sample_bias self) true g))
    as [|m [|m' ms]] eqn:Hm; simpl in Hlen; try lia; subst mask;
    cbn [squeeze].
  - rewrite Hshort by (simpl; lia). reflexivity.
  - rewrite Hscalar by discriminate. reflexivity.
Qed.

(** X17. Training never gets past an index whose graph has exactly one
    edge: the squeezed mask of that graph cannot be indexed by the
    connectivity loss, so with at least one epoch [train] fails whatever the
    coefficients, the mask predictor and the random draws. *)
Theorem train_single_edge_graph_fails `{Collaborators} (self : PGExplainer)
    (P : MLP) (g : Rng) (n : nat) (indices : list nat) (edge : nat * nat) :
  match data self with
  | NodeData _ graphs => k_hop_subgraph n 3 graphs = [edge]
  | GraphData samples => exists feats, samples !! n = Some (feats, [edge])
  end ->
  n ∈ indices ->
  (1 <= epochs self)%nat ->
  exists e, train self P g indices = Raise e.
Proof.
  intros Hdata Hin Hep.
  apply (train_fails_on_bad_index self P g n indices); [|exact Hin|exact Hep].
  intros P' node_embeds t g'.
  apply (example_terms_single_edge self P' node_embeds t n g' edge Hdata).
Qed.

Lemma train_single_edge_graph_fails_witness :
  exists e,
    @train replay (toy_explainer [two_cycle; one_edge] 1 [5 / 100; 1; 1])
       toy_mlp [1 / 2; 1 / 4; 3 / 4] [0; 1]%nat = Raise e.
Proof.
  apply (@train_single_edge_graph_fails replay
           (toy_explainer [two_cycle; one_edge] 1 [5 / 100; 1; 1]) toy_mlp
           [1 / 2; 1 / 4; 3 / 4] 1%nat [0; 1]%nat (0, 1)%nat).
  - exists [[1]; [2]]. reflexivity.
  - apply (bool_decide_unpack _). reflexivity.
  - simpl. lia.
Defined.




(** ** Saving, loading and [prepare] *)

Lemma string_length_app (a b : string) :
  String.length (a +:+ b) = (String.length a + String.length b)%nat.
Proof. induction a as [|c a IH]; simpl; [reflexivity | rewrite IH; reflexivity]. Qed.

Lemma string_app_inj_r (s a b : string) : a +:+ s = b +:+ s -> a = b.
Proof.
  revert b. induction a as [|c a IH]; intros b Heq.
  - destruct b as [|c' b]; [reflexivity|].
    apply (f_equal String.length) in Heq.
    rewrite !string_length_app in Heq. simpl in Heq. lia.
  - destruct b as [|c' b].
    + apply (f_equal String.length) in Heq.
      rewrite !string_length_app in Heq. simpl in Heq. lia.
    + simpl in Heq. injection Heq as -> Heq. f_equal. apply IH. exact Heq.
Qed.

Lemma model_path_inj (seed seed' : Z) :
  model_path seed = model_path seed' -> seed = seed'.
Proof.
  unfold model_path. intros Heq.
  apply (inj (String.append "./explainer_model/model")) in Heq.
  apply string_app_inj_r in Heq.
  apply (inj pretty) in Heq. exact Heq.
Qed.

Lemma load_after_save (P : MLP) (seed : Z) (fs fs' : ModelDir) :
  save_model P seed fs = Return fs' ->
  path_exists (model_path seed) fs' = true
  /\ (forall current,
        load_model current seed fs'
        = if bool_decide (mlp_shape current = mlp_shape P) then Return P
          else Throw (Torch RuntimeError))
  /\ (forall seed' current,
        seed' <> seed ->
        load_model current seed' fs' = load_model current seed' fs
        /\ path_exists (model_path seed') fs'
           = path_exists (model_path seed') fs).
Proof.
  unfold save_model. destruct fs as [stored|]; [|discriminate].
  intros Hs. injection Hs as <-. split; [|split].
  - unfold path_exists. apply bool_decide_eq_true.
    rewrite lookup_insert_eq. eexists. reflexivity.
  - intros current. unfold load_model. cbn [mbind option_bind].
    rewrite lookup_insert_eq. reflexivity.
  - intros seed' current Hne.
    assert (Hp : model_path seed <> model_path seed').
    { intros Heq. apply model_path_inj in Heq. congruence. }
    unfold load_model, path_exists. cbn [mbind option_bind].
    rewrite lookup_insert_ne by exact Hp. split; reflexivity.
Qed.

(** X19. Saving then loading is a round trip: after [save_model] succeeds
    the file of the seed exists, [load_model] for that seed gives back the
    saved parameters when the current model has the same shapes and raises
    RuntimeError when it has not, and the files of all other seeds are as
    before. *)
Theorem save_load_round_trip (P : MLP) (seed : Z) (fs fs' : ModelDir) :
  save_model P seed fs = Return fs' ->
  path_exists (model_path seed) fs' = true
  /\ (forall current,
        mlp_shape current = mlp_shape P ->
        load_model current seed fs' = Return P)
  /\ (forall current,
        mlp_shape current <> mlp_shape P ->
        load_model current seed fs' = Throw (Torch RuntimeError))
  /\ (forall seed' current,
        seed' <> seed ->
        load_model current seed' fs' = load_model current seed' fs
        /\ path_exists (model_path seed') fs'
           = path_exists (model_path seed') fs).
Proof.
  intros Hs. destruct (load_after_save P seed fs fs' Hs) as (He & Hl & Hf).
  split; [exact He|]. split; [|split; [|exact Hf]].
  - intros current Hc. rewrite Hl, bool_decide_eq_true_2 by exact Hc.
    reflexivity.
  - intros current Hc. rewrite Hl, bool_decide_eq_false_2 by exact Hc.
    reflexivity.
Qed.

Lemma save_load_round_trip_witness :
  path_exists (model_path 7) (Some (<[model_path 7 := toy_mlp]> ∅)) = true
  /\ (forall current,
        mlp_shape current = mlp_shape toy_mlp ->
        load_model current 7 (Some (<[model_path 7 := toy_mlp]> ∅))
        = Return toy_mlp)
  /\ (forall current,
        mlp_shape current <> mlp_shape toy_mlp ->
        load_model current 7 (Some (<[model_path 7 := toy_mlp]> ∅))
        = Throw (Torch RuntimeError))
  /\ (forall seed' current,
        seed' <> 7%Z ->
        load_model current seed' (Some (<[model_path 7 := toy_mlp]> ∅))
        = load_model current seed' (Some ∅)
        /\ path_exists (model_path seed') (Some (<[model_path 7 := toy_mlp]> ∅))
           = path_exists (model_path seed') (Some ∅)).
Proof.
  apply (save_load_round_trip toy_mlp 7 (Some ∅)). reflexivity.
Defined.

(** *** The initialiser of the replay collaborators *)

Lemma replay_rand_length (tape : list R) (n : nat) :
  length (fst (replay_rand tape n)) = n.
Proof.
  unfold replay_rand. cbn [fst].
  rewrite length_take, length_app, length_replicate. lia.
Qed.

Lemma replay_neurons_shape (d n : nat) (tape : list R) :
  map (fun nb : neuron => length (fst nb)) (fst (replay_neurons d n tape))
  = replicate n d.
Proof.
  unfold replay_neurons. generalize 0%nat as start.
  induction n as [|n IH]; intros start; [reflexivity|].
  cbn [seq foldr].
  destruct (replay_rand _ d) as [u tape'] eqn:Hu.
  cbn [fst map replicate]. f_equal; [|apply IH].
  rewrite length_map.
  pose proof (replay_rand_length
                (snd (foldr (fun _ acc =>
                        let (u0, tape'0) := replay_rand (snd acc) d in
                        ((map (fun r => (2 * r - 1) / 8) u0, 0) :: fst acc, tape'0))
                      ([], tape) (seq (S start) n))) d) as Hl.
  rewrite Hu in Hl. exact Hl.
Qed.

Lemma replay_predictor_shape (d : nat) (tape : list R) :
  mlp_shape (fst (replay_predictor d tape)) = (replicate 64 d, 64%nat).
Proof.
  unfold replay_predictor.
  pose proof (replay_neurons_shape d 64 tape) as Hn.
  destruct (replay_neurons d 64 tape) as [l1 tape1].
  pose proof (replay_rand_length tape1 64) as Hl.
  destruct (replay_rand tape1 64) as [u tape2].
  unfold mlp_shape. cbn [fst fc1 fc2] in *.
  rewrite Hn, length_map, Hl. reflexivity.
Qed.

Lemma replay_init_predictor :
  @new_mask_predictor replay replay_init = replay_predictor.
Proof. reflexivity. Qed.

Lemma toy_expl_embedding (graphs : list Graph) (k : nat) (rc : list R) :
  expl_embedding (type (toy_explainer graphs k rc))
    (embedding_size (model_to_explain (toy_explainer graphs k rc))) = 2%nat.
Proof. reflexivity. Qed.

Lemma prepare_cached `{Initializer} (self : PGExplainer) (seed : Z)
    (indices : option (list nat)) (g : Rng) (stored : gmap string MLP)
    (saved : MLP) :
  stored !! model_path seed = Some saved ->
  let fresh :=
    new_mask_predictor
      (expl_embedding (type self) (embedding_size (model_to_explain self))) g in
  prepare self seed indices g (Some stored)
  = (if bool_decide (mlp_shape (fst fresh) = mlp_shape saved)
     then Return (saved, snd fresh, [])
     else Throw (Torch RuntimeError),
     Some stored).
Proof.
  intros Hs fresh. unfold prepare. fold fresh.
  destruct fresh as [P0 g0]. cbn [fst snd].
  unfold path_exists. rewrite bool_decide_eq_true_2 by (rewrite Hs; eexists; reflexivity).
  unfold load_model. cbn [mbind option_bind]. rewrite Hs.
  destruct (bool_decide (mlp_shape P0 = mlp_shape saved)); reflexivity.
Qed.

(** X20. When the file of the seed exists and holds parameters of the shapes
    of a freshly built mask predictor, [prepare] returns the stored
    parameters without training: no event is emitted, the file system is
    unchanged, the generator has only served the initialisation, and
    neither the indices nor the hyper-parameters of the explainer matter.
    With other shapes it raises RuntimeError. *)
Theorem prepare_uses_saved_model `{Initializer} (self : PGExplainer)
    (seed : Z) (indices : option (list nat)) (g : Rng)
    (stored : gmap string MLP) (saved : MLP) :
  stored !! model_path seed = Some saved ->
  let fresh :=
    new_mask_predictor
      (expl_embedding (type self) (embedding_size (model_to_explain self))) g in
  (mlp_shape (fst fresh) = mlp_shape saved ->
   prepare self seed indices g (Some stored)
   = (Return (saved, snd fresh, []), Some stored))
  /\ (mlp_shape (fst fresh) <> mlp_shape saved ->
      prepare self seed indices g (Some stored)
      = (Throw (Torch RuntimeError), Some stored)).
Proof.
  intros Hs fresh. pose proof (prepare_cached self seed indices g stored saved Hs) as Hp.
  cbv zeta in Hp. fold fresh in Hp. split; intros Hshape; rewrite Hp.
  - rewrite bool_decide_eq_true_2 by exact Hshape. reflexivity.
  - rewrite bool_decide_eq_false_2 by exact Hshape. reflexivity.
Qed.

Lemma prepare_uses_saved_model_witness :
  @prepare replay replay_init (toy_explainer [two_cycle] 30 default_reg_coefs)
     3 (Some [5%nat]) [1 / 2] (Some (<[model_path 3 := toy_mlp]> ∅))
  = (Return (toy_mlp, snd (replay_predictor 2 [1 / 2]), []),
     Some (<[model_path 3 := toy_mlp]> ∅)).
Proof.
  pose proof (@prepare_uses_saved_model replay replay_init
                (toy_explainer [two_cycle] 30 default_reg_coefs) 3
                (Some [5%nat]) [1 / 2] (<[model_path 3 := toy_mlp]> ∅)
                toy_mlp (lookup_insert_eq _ _ _)) as Hp.
  cbv zeta in Hp. destruct Hp as [Hp _].
  rewrite replay_init_predictor, toy_expl_embedding in Hp.
  apply Hp.
  transitivity (replicate 64 2%nat, 64%nat).
  - exact (replay_predictor_shape 2 [1 / 2]).
  - reflexivity.
Defined.

Lemma prepare_frame `{Initializer} (self : PGExplainer) (seed : Z)
    (indices : option (list nat)) (g : Rng) (fs fs' : ModelDir)
    (r : outcome (MLP * Rng * list event)) :
  prepare self seed indices g fs = (r, fs') ->
  (forall e, r = Throw e -> fs' = fs)
  /\ (fs = None -> fs' = None /\ exists e, r = Throw e)
  /\ (forall seed' current,
        seed' <> seed ->
        load_model current seed' fs' = load_model current seed' fs
        /\ path_exists (model_path seed') fs'
           = path_exists (model_path seed') fs).
Proof.
  unfold prepare.
  destruct (new_mask_predictor _ g) as [P0 g0].
  destruct (path_exists (model_path seed) fs) eqn:Hex.
  - destruct (load_model P0 seed fs) as [P|e]; intros Hp;
      injection Hp as <- <-.
    + split; [discriminate|]. split; [|intros; split; reflexivity].
      intros ->. discriminate.
    + split; [reflexivity|]. split; [|intros; split; reflexivity].
      intros ->. discriminate.
  - destruct (train self P0 g0 _) as [st|e].
    + destruct (save_model (explainer_model st) seed fs) as [fs1|e] eqn:Hsave;
        intros Hp; injection Hp as <- <-.
      * split; [discriminate|]. split.
        -- intros ->. discriminate.
        -- intros seed' current Hne.
           apply (load_after_save _ _ _ _ Hsave). exact Hne.
      * split; [reflexivity|]. split; [|intros; split; reflexivity].
        intros _. split; [|eexists; reflexivity].
        destruct fs; [discriminate | reflexivity].
    + intros Hp. injection Hp as <- <-.
      split; [reflexivity|]. split; [|intros; split; reflexivity].
      intros Hn. split; [exact Hn | eexists; reflexivity].
Qed.

(** X21. What [prepare] leaves of the directory [./explainer_model] of
    saved models (the tensorboard logs that [train] writes under [runs/]
    are not part of it): a call that raises has stored nothing there;
    without the directory every call raises (after training, if training
    succeeds); and whatever happens, the saved models of all other seeds are
    as before. *)
Theorem prepare_saved_models `{Initializer} (self : PGExplainer) (seed : Z)
    (indices : option (list nat)) (g : Rng) (fs fs' : ModelDir)
    (r : outcome (MLP * Rng * list event)) :
  prepare self seed indices g fs = (r, fs') ->
  (forall e, r = Throw e -> fs' = fs)
  /\ (fs = None -> fs' = None /\ exists e, r = Throw e)
  /\ (forall seed' current,
        seed' <> seed ->
        load_model current seed' fs' = load_model current seed' fs
        /\ path_exists (model_path seed') fs'
           = path_exists (model_path seed') fs).
Proof. apply prepare_frame. Qed.

Lemma prepare_saved_models_witness :
  exists r fs',
    @prepare replay replay_init
       (toy_explainer [two_cycle] 1 [5 / 100; 1; 1]) 3 (Some [0%nat])
       [1 / 2] None = (r, fs')
    /\ fs' = None
    /\ exists e, r = Throw e.
Proof.
  destruct (@prepare replay replay_init
              (toy_explainer [two_cycle] 1 [5 / 100; 1; 1]) 3 (Some [0%nat])
              [1 / 2] None) as [r fs'] eqn:Hp.
  exists r, fs'. split; [reflexivity|].
  apply (proj1 (proj2 (@prepare_saved_models replay replay_init
                         (toy_explainer [two_cycle] 1 [5 / 100; 1; 1]) 3
                         (Some [0%nat]) [1 / 2] None fs' r Hp))).
  reflexivity.
Defined.

Lemma prepare_Return_stored `{Initializer} (self : PGExplainer) (seed : Z)
    (indices : option (list nat)) (g : Rng) (fs fs1 : ModelDir)
    (P1 : MLP) (g1 : Rng) (tr : list event) :
  prepare self seed indices g fs = (Return (P1, g1, tr), fs1) ->
  exists stored1, fs1 = Some stored1 /\ stored1 !! model_path seed = Some P1.
Proof.
  unfold prepare.
  destruct (new_mask_predictor _ g) as [P0 g0].
  destruct (path_exists (model_path seed) fs) eqn:Hex.
  - unfold load_model.
    destruct fs as [stored|]; [|discriminate].
    cbn [mbind option_bind].
    destruct (stored !! model_path seed) as [saved|] eqn:Hs.
    + destruct (bool_decide (mlp_shape P0 = mlp_shape saved));
        intros Hp; [|discriminate].
      injection Hp as <- _ _ <-. exists stored. split; [reflexivity|exact Hs].
    + discriminate.
  - destruct (train self P0 g0 _) as [st|e]; [|discriminate].
    unfold save_model. destruct fs as [stored|]; [|discriminate].
    intros Hp. injection Hp as <- _ _ <-.
    eexists. split; [reflexivity|]. apply lookup_insert_eq.
Qed.

(** X22. The saved parameters are keyed by the seed alone: once a call of
    [prepare] has returned, any later call with the same seed, whatever its
    indices, generator, hyper-parameters, explained model or dataset,
    returns the parameters of the first call without training and without
    touching the files, as long as its freshly built mask predictor has the
    shapes of those parameters. *)
Theorem prepare_again_reuses_model `{Initializer} (self self' : PGExplainer)
    (seed : Z) (indices indices' : option (list nat)) (g g' : Rng)
    (fs fs1 : ModelDir) (P1 : MLP) (g1 : Rng) (tr : list event) :
  prepare self seed indices g fs = (Return (P1, g1, tr), fs1) ->
  let fresh :=
    new_mask_predictor
      (expl_embedding (type self') (embedding_size (model_to_explain self')))
      g' in
  mlp_shape (fst fresh) = mlp_shape P1 ->
  prepare self' seed indices' g' fs1 = (Return (P1, snd fresh, []), fs1).
Proof.
  intros Hp fresh Hshape.
  apply prepare_Return_stored in Hp as (stored1 & -> & Hs).
  pose proof (prepare_cached self' seed indices' g' stored1 P1 Hs) as Hc.
  cbv zeta in Hc. fold fresh in Hc.
  rewrite Hc, bool_decide_eq_true_2 by exact Hshape. reflexivity.
Qed.

(** *** A closed call of [prepare] *)

Lemma shaped_logits_ok (P : MLP) (h : nat) :
  mlp_shape P = (replicate h 2%nat, h) -> (0 < h)%nat ->
  exists a b, explainer_model_apply P [[1; 2]; [2; 1]] = Ok [a; b].
Proof.
  intros Hs Hh.
  destruct (proj1 (explainer_model_apply_shapes P h 2%nat [[1; 2]; [2; 1]] Hs Hh))
    as (ws & Hws & Hlen); [repeat constructor|].
  destruct ws as [|a [|b [|c ws]]]; simpl in Hlen; try lia.
  exists a, b. exact Hws.
Qed.

Lemma shaped_example_terms_ok (P : MLP) (h : nat) (rc : list R)
    (size_reg entropy_reg conn_reg : R) (k : nat) (t : R) (tape : list R) :
  mlp_shape P = (replicate h 2%nat, h) -> (0 < h)%nat ->
  rc !! 0%nat = Some size_reg ->
  rc !! 1%nat = Some entropy_reg ->
  rc !! 2%nat = Some conn_reg ->
  exists l, @example_terms replay (toy_explainer [two_cycle] k rc)
              P [] t 0 tape = Ok (l, drop 2 tape).
Proof.
  intros Hs Hh H0 H1 H2.
  destruct (shaped_logits_ok P h Hs Hh) as (a & b & Hab).
  destruct (replay_sample_two a b t default_sample_bias tape)
    as (m1 & m2 & Hm).
  destruct (connectivity_loss_distinct_sources rc two_cycle [m1; m2])
    as (v & Hv & _).
  { apply lookup_lt_Some in H2. lia. }
  { apply (bool_decide_unpack _). reflexivity. }
  { simpl. lia. }
  { simpl. lia. }
  unfold example_terms, example_forward, toy_explainer.
  cbn [data model_to_explain bind getitem lookup list_lookup map fst snd type
       reg_coefs sample_bias embedding forward toy_model].
  change (_create_explainer_input graph_task two_cycle [[1]; [2]] 0)
    with (Ok [[1; 2]; [2; 1]]).
  cbn [bind]. rewrite Hab. cbn [bind]. rewrite Hm.
  cbn [squeeze concat app]. rewrite argmax_0_1. cbn [bind].
  unfold _loss, getitem. rewrite H0, H1. cbn [bind].
  unfold cross_entropy, nll_row.
  cbn [length Nat.eqb zip zip_with mapM bind fst snd getitem lookup list_lookup].
  rewrite Hv. cbn [bind]. eexists. reflexivity.
Qed.

Lemma shaped_train_epochs_ok (P : MLP) (h : nat) (rc : list R)
    (size_reg entropy_reg conn_reg : R) (k : nat) (es : list nat) :
  mlp_shape P = (replicate h 2%nat, h) -> (0 < h)%nat ->
  rc !! 0%nat = Some size_reg ->
  rc !! 1%nat = Some entropy_reg ->
  rc !! 2%nat = Some conn_reg ->
  forall st : @TrainState replay,
    explainer_model st = P ->
    exists st',
      @train_epochs replay (toy_explainer [two_cycle] k rc) [] [0%nat]
        es st = Ok st'
      /\ explainer_model st' = P.
Proof.
  intros Hs Hh H0 H1 H2.
  induction es as [|e rest IH]; intros st HP; cbn [train_epochs].
  - exists st. split; [reflexivity | exact HP].
  - destruct (shaped_example_terms_ok P h rc size_reg entropy_reg conn_reg k
                (temp_schedule default_temp k e) (rng st) Hs Hh H0 H1 H2)
      as [l Hl].
    unfold train_epoch. cbv zeta. rewrite HP. cbn [sweep].
    change (temp (toy_explainer [two_cycle] k rc)) with default_temp.
    change (epochs (toy_explainer [two_cycle] k rc)) with k.
    rewrite Hl. cbn [bind].
    destruct l as [[[c s] en] cn].
    cbn [accumulate backward requires_grad bind adam_step replay].
    apply IH. reflexivity.
Qed.

Lemma toy_prepare_trains (tape : list R) :
  exists P1 g1 tr fs1,
    @prepare replay replay_init
      (toy_explainer [two_cycle] 2 [5 / 100; 1; 1]) 3 (Some [0%nat])
      tape (Some ∅)
    = (Return (P1, g1, tr), fs1)
    /\ mlp_shape P1 = (replicate 64 2%nat, 64%nat).
Proof.
  pose proof (replay_predictor_shape 2 tape) as Hshape.
  unfold prepare.
  rewrite replay_init_predictor, toy_expl_embedding.
  destruct (replay_predictor 2 tape) as [P0 g0].
  cbn [fst] in Hshape.
  change (path_exists (model_path 3) (Some ∅)) with false. cbv iota.
  unfold train. cbv zeta.
  destruct (shaped_train_epochs_ok P0 64 [5 / 100; 1; 1] (5 / 100) 1 1 2
              (seq 0 2) Hshape ltac:(lia) eq_refl eq_refl eq_refl
              (@Build_TrainState replay P0 tt g0 []) eq_refl)
    as (st & Hst & HP).
  change (epochs (toy_explainer [two_cycle] 2 [5 / 100; 1; 1])) with 2%nat.
  change (precomputed_embeds (toy_explainer [two_cycle] 2 [5 / 100; 1; 1]))
    with (@nil (list R)).
  change (@adam_init replay (lr (toy_explainer [two_cycle] 2 [5 / 100; 1; 1])) P0)
    with tt.
  rewrite Hst. cbn [save_model].
  eexists _, _, _, _. split; [reflexivity|]. rewrite HP. exact Hshape.
Qed.

Lemma prepare_again_reuses_model_witness :
  exists P1 g1 tr fs1,
    @prepare replay replay_init
       (toy_explainer [two_cycle] 2 [5 / 100; 1; 1]) 3 (Some [0%nat])
       [1 / 2; 1 / 4] (Some ∅)
    = (Return (P1, g1, tr), fs1)
    /\ @prepare replay replay_init
         (toy_explainer [two_cycle; one_edge] 30 default_reg_coefs) 3 None
         [3 / 4] fs1
       = (Return (P1, snd (replay_predictor 2 [3 / 4]), []), fs1).
Proof.
  destruct (toy_prepare_trains [1 / 2; 1 / 4])
    as (P1 & g1 & tr & fs1 & Hp & HP1).
  exists P1, g1, tr, fs1. split; [exact Hp|].
  pose proof (@prepare_again_reuses_model replay replay_init
                (toy_explainer [two_cycle] 2 [5 / 100; 1; 1])
                (toy_explainer [two_cycle; one_edge] 30 default_reg_coefs)
                3 (Some [0%nat]) None [1 / 2; 1 / 4] [3 / 4] (Some ∅) fs1
                P1 g1 tr Hp) as Hagain.
  cbv zeta in Hagain.
  rewrite replay_init_predictor, toy_expl_embedding in Hagain.
  apply Hagain.
  transitivity (replicate 64 2%nat, 64%nat).
  - exact (replay_predictor_shape 2 [3 / 4]).
  - symmetry. exact HP1.
Defined.

(** ** The temperature schedule in general *)

(** X23. For every start temperature above a positive end temperature and
    every positive number of epochs, the schedule starts at the start
    temperature, is strictly decreasing in the epoch, stays above the end
    temperature during training (epochs 0 .. epochs - 1), and would reach
    the end temperature only at epoch [epochs], which training never runs. *)
Theorem temp_schedule_anneals (s f : R) (n : nat) :
  0 < f < s ->
  (0 < n)%nat ->
  temp_schedule (s, f) n 0 = s
  /\ temp_schedule (s, f) n n = f
  /\ (forall e e', (e < e')%nat ->
        temp_schedule (s, f) n e' < temp_schedule (s, f) n e)
  /\ (forall e, (e < n)%nat -> f < temp_schedule (s, f) n e <= s).
Proof.
  intros [Hf Hs] Hn.
  assert (Hstart : temp_schedule (s, f) n 0 = s).
  { apply temp_schedule_start. apply Rdiv_lt_0_compat; lra. }
  assert (Hend : temp_schedule (s, f) n n = f).
  { apply temp_schedule_end; [lra | lra | exact Hn]. }
  assert (Hdec : forall e e', (e < e')%nat ->
            temp_schedule (s, f) n e' < temp_schedule (s, f) n e).
  { intros e e' He. apply temp_schedule_decreasing; [lra | exact Hn | exact He]. }
  split; [exact Hstart|]. split; [exact Hend|]. split; [exact Hdec|].
  intros e He. split.
  - rewrite <- Hend at 1. apply Hdec. exact He.
  - destruct e as [|e]; [rewrite Hstart; lra|].
    left. rewrite <- Hstart at 2. apply Hdec. lia.
Qed.

Lemma temp_schedule_anneals_witness :
  temp_schedule (5, 2) 30 0 = 5
  /\ temp_schedule (5, 2) 30 30 = 2
  /\ (forall e e', (e < e')%nat ->
        temp_schedule (5, 2) 30 e' < temp_schedule (5, 2) 30 e)
  /\ (forall e, (e < 30)%nat -> 2 < temp_schedule (5, 2) 30 e <= 5).
Proof.
  apply (temp_schedule_anneals 5 2 30); [lra | lia].
Defined.

(** * Floats *)

(** ** Rounding to the nearest integer *)

Lemma Int_part_bounds (x : R) : IZR (Int_part x) <= x < IZR (Int_part x) + 1.
Proof. pose proof (base_Int_part x) as [H1 H2]. lra. Qed.

Lemma Int_part_unique (x : R) (z : Z) : IZR z <= x < IZR z + 1 -> Int_part x = z.
Proof. intros H. symmetry. apply Int_part_spec. lra. Qed.

Lemma Int_part_ge (x : R) (n : Z) : IZR n <= x -> (n <= Int_part x)%Z.
Proof.
  intros H. pose proof (Int_part_bounds x) as [_ Hu].
  assert (Hlt : IZR n < IZR (Int_part x + 1)) by (rewrite plus_IZR; lra).
  apply lt_IZR in Hlt. lia.
Qed.

Lemma Int_part_le (x : R) (n : Z) : x < IZR n -> (Int_part x < n)%Z.
Proof.
  intros H. pose proof (Int_part_bounds x) as [Hl _].
  apply lt_IZR. lra.
Qed.

Lemma nearest_even_range (x : R) :
  (Int_part x <= nearest_even x <= Int_part x + 1)%Z.
Proof.
  unfold nearest_even. cbv zeta.
  destruct (Rlt_dec _ _); [lia|].
  destruct (Rlt_dec _ _); [lia|].
  destruct (Z.even _); lia.
Qed.

Lemma nearest_even_ge (x : R) (n : Z) : IZR n <= x -> (n <= nearest_even x)%Z.
Proof.
  intros H. pose proof (Int_part_ge x n H). pose proof (nearest_even_range x). lia.
Qed.

Lemma nearest_even_le (x : R) (n : Z) : x <= IZR n -> (nearest_even x <= n)%Z.
Proof.
  intros H. destruct (Req_dec x (IZR n)) as [->|Hne].
  - unfold nearest_even. cbv zeta.
    rewrite (Int_part_unique (IZR n) n) by lra.
    destruct (Rlt_dec _ _) as [_|Hn]; [lia|]. exfalso. apply Hn. lra.
  - assert (Hlt : x < IZR n) by lra.
    pose proof (Int_part_le x n Hlt). pose proof (nearest_even_range x). lia.
Qed.

Lemma nearest_even_near (x : R) (n : Z) :
  IZR n <= x < IZR n + 1 / 2 -> nearest_even x = n.
Proof.
  intros [Hl Hu]. unfold nearest_even. cbv zeta.
  rewrite (Int_part_unique x n) by lra.
  destruct (Rlt_dec _ _) as [_|Hn]; [reflexivity|]. exfalso. apply Hn. lra.
Qed.

(** *** Powers of two *)

Lemma ln2_pos : 0 < ln 2.
Proof. pose proof ln_lt_2. lra. Qed.

Lemma pow2_exp (k : Z) : powerRZ 2 k = exp (IZR k * ln 2).
Proof. rewrite powerRZ_Rpower by lra. reflexivity. Qed.

Lemma pow2_pos (k : Z) : 0 < powerRZ 2 k.
Proof. apply powerRZ_lt. lra. Qed.

Lemma pow2_add (a b : Z) : powerRZ 2 (a + b) = powerRZ 2 a * powerRZ 2 b.
Proof. apply powerRZ_add. lra. Qed.

Lemma pow2_le (a b : Z) : (a <= b)%Z -> powerRZ 2 a <= powerRZ 2 b.
Proof.
  intros Hab. rewrite !pow2_exp.
  destruct (Z.eq_dec a b) as [->|Hne]; [lra|].
  left. apply exp_increasing. apply Rmult_lt_compat_r; [apply ln2_pos|].
  apply IZR_lt. lia.
Qed.

Lemma pow2_lt (a b : Z) : (a < b)%Z -> powerRZ 2 a < powerRZ 2 b.
Proof.
  intros Hab. rewrite !pow2_exp.
  apply exp_increasing. apply Rmult_lt_compat_r; [apply ln2_pos|].
  apply IZR_lt. exact Hab.
Qed.

Lemma pow2_lt_inv (a b : Z) : powerRZ 2 a < powerRZ 2 b -> (a < b)%Z.
Proof.
  intros H. destruct (Z_lt_le_dec a b) as [Hlt|Hle]; [exact Hlt|].
  apply pow2_le in Hle. lra.
Qed.

Lemma pow2_IZR (n : Z) : (0 <= n)%Z -> powerRZ 2 n = IZR (2 ^ n).
Proof.
  intros Hn. rewrite <- (Z2Nat.id n Hn) at 1.
  rewrite <- pow_powerRZ, pow_IZR, Z2Nat.id by exact Hn. reflexivity.
Qed.

Lemma pow2_ln (k : Z) : ln (powerRZ 2 k) = IZR k * ln 2.
Proof. rewrite pow2_exp. apply ln_exp. Qed.

(** *** The binary exponent *)

Lemma mag2_spec (x : R) :
  0 < x -> powerRZ 2 (mag2 x) <= x < powerRZ 2 (mag2 x + 1).
Proof.
  intros Hx. unfold mag2. rewrite (Rabs_pos_eq x) by lra.
  pose proof (Int_part_bounds (ln x / ln 2)) as [Hl Hu].
  pose proof ln2_pos as H2.
  set (e := Int_part (ln x / ln 2)) in *.
  assert (Hl' : IZR e * ln 2 <= ln x).
  { apply Rmult_le_compat_r with (r := ln 2) in Hl; [|lra].
    replace (ln x / ln 2 * ln 2) with (ln x) in Hl by (field; lra). exact Hl. }
  assert (Hu' : ln x < IZR (e + 1) * ln 2).
  { rewrite plus_IZR.
    apply Rmult_lt_compat_r with (r := ln 2) in Hu; [|lra].
    replace (ln x / ln 2 * ln 2) with (ln x) in Hu by (field; lra). exact Hu. }
  rewrite !pow2_exp. split.
  - rewrite <- (exp_ln x Hx) at 1.
    destruct Hl' as [Hlt|Heq]; [left; apply exp_increasing; exact Hlt|].
    rewrite Heq. lra.
  - rewrite <- (exp_ln x Hx) at 1. apply exp_increasing. exact Hu'.
Qed.

Lemma mag2_unique (x : R) (k : Z) :
  powerRZ 2 k <= x < powerRZ 2 (k + 1) -> mag2 x = k.
Proof.
  intros [Hl Hu].
  assert (Hx : 0 < x) by (pose proof (pow2_pos k); lra).
  destruct (mag2_spec x Hx) as [Hl' Hu'].
  assert (H1 : (k < mag2 x + 1)%Z) by (apply pow2_lt_inv; lra).
  assert (H2 : (mag2 x < k + 1)%Z) by (apply pow2_lt_inv; lra).
  lia.
Qed.

Lemma mag2_ge (x : R) (k : Z) : powerRZ 2 k <= x -> (k <= mag2 x)%Z.
Proof.
  intros Hl.
  assert (Hx : 0 < x) by (pose proof (pow2_pos k); lra).
  destruct (mag2_spec x Hx) as [_ Hu'].
  assert (H1 : (k < mag2 x + 1)%Z) by (apply pow2_lt_inv; lra).
  lia.
Qed.

Lemma mag2_le (x : R) (k : Z) : 0 < x <= powerRZ 2 k -> (mag2 x <= k)%Z.
Proof.
  intros [Hx Hu].
  destruct (mag2_spec x Hx) as [Hl' _].
  destruct (Z_le_gt_dec (mag2 x) k) as [Hle|Hgt]; [exact Hle|].
  exfalso.
  destruct Hu as [Hu|Hu].
  - assert (H1 : (mag2 x < k)%Z) by (apply pow2_lt_inv; lra). lia.
  - assert (Hm : mag2 x = k).
    { apply mag2_unique. split; [lra|]. rewrite Hu. apply pow2_lt. lia. }
    lia.
Qed.

(** *** Rounding to float32 *)

Lemma ulp32_pos (x : R) : 0 < ulp32 x.
Proof. apply pow2_pos. Qed.

Lemma rnd32_0 : rnd32 0 = 0.
Proof.
  unfold rnd32. replace (0 / ulp32 0) with 0 by (unfold Rdiv; lra).
  rewrite (nearest_even_near 0 0) by lra. lra.
Qed.

Lemma rnd32_nonneg (x : R) : 0 <= x -> 0 <= rnd32 x.
Proof.
  intros Hx. unfold rnd32. pose proof (ulp32_pos x) as Hu.
  apply Rmult_le_pos; [|lra].
  apply IZR_le. apply nearest_even_ge.
  apply Rmult_le_pos; [exact Hx|]. left. apply Rinv_0_lt_compat. exact Hu.
Qed.

(** Rounding never crosses a power of two that is itself a float32. *)
Lemma rnd32_ge_pow2 (x : R) (k : Z) :
  (-126 <= k)%Z -> powerRZ 2 k <= x -> powerRZ 2 k <= rnd32 x.
Proof.
  intros Hk Hx.
  pose proof (mag2_ge x k Hx) as He.
  assert (Hx0 : 0 < x) by (pose proof (pow2_pos k); lra).
  destruct (mag2_spec x Hx0) as [Hl _].
  unfold rnd32, ulp32. rewrite Z.max_l by lia.
  set (e := mag2 x) in *.
  pose proof (pow2_pos (e - 23)) as Hu.
  assert (Hq : IZR (2 ^ 23) <= x / powerRZ 2 (e - 23)).
  { rewrite <- pow2_IZR by lia.
    apply Rmult_le_reg_r with (powerRZ 2 (e - 23)); [exact Hu|].
    rewrite <- pow2_add. replace (23 + (e - 23))%Z with e by lia.
    replace (x / powerRZ 2 (e - 23) * powerRZ 2 (e - 23)) with x
      by (field; lra).
    exact Hl. }
  apply nearest_even_ge, IZR_le in Hq.
  apply Rle_trans with (powerRZ 2 e); [apply pow2_le; exact He|].
  assert (Heq : powerRZ 2 e = IZR (2 ^ 23) * powerRZ 2 (e - 23)).
  { rewrite <- pow2_IZR, <- pow2_add by lia. f_equal. lia. }
  rewrite Heq. apply Rmult_le_compat_r; [lra | exact Hq].
Qed.

Lemma rnd32_le_pow2 (x : R) (k : Z) :
  (-149 <= k)%Z -> 0 <= x <= powerRZ 2 k -> rnd32 x <= powerRZ 2 k.
Proof.
  intros Hk [Hx0 Hx].
  destruct Hx0 as [Hx0|<-];
    [|rewrite rnd32_0; left; apply pow2_pos].
  pose proof (mag2_le x k (conj Hx0 Hx)) as He.
  unfold rnd32, ulp32.
  set (E := Z.max (mag2 x) (-126)).
  assert (HE : (E - 23 <= k)%Z) by (unfold E; lia).
  pose proof (pow2_pos (E - 23)) as Hu.
  assert (Hq : x / powerRZ 2 (E - 23) <= IZR (2 ^ (k - (E - 23)))).
  { rewrite <- pow2_IZR by lia.
    apply Rmult_le_reg_r with (powerRZ 2 (E - 23)); [exact Hu|].
    rewrite <- pow2_add. replace (k - (E - 23) + (E - 23))%Z with k by lia.
    replace (x / powerRZ 2 (E - 23) * powerRZ 2 (E - 23)) with x
      by (field; lra).
    exact Hx. }
  apply nearest_even_le, IZR_le in Hq.
  assert (Heq : powerRZ 2 k
                = IZR (2 ^ (k - (E - 23))) * powerRZ 2 (E - 23)).
  { rewrite <- pow2_IZR, <- pow2_add by lia. f_equal. lia. }
  rewrite Heq. apply Rmult_le_compat_r; [lra | exact Hq].
Qed.

(** The powers of two from 2^-126 on are float32 numbers. *)
Lemma rnd32_pow2 (k : Z) : (-126 <= k)%Z -> rnd32 (powerRZ 2 k) = powerRZ 2 k.
Proof.
  intros Hk. apply Rle_antisym.
  - apply rnd32_le_pow2; [lia|]. pose proof (pow2_pos k). lra.
  - apply rnd32_ge_pow2; [exact Hk | lra].
Qed.

Lemma rnd32_1 : rnd32 1 = 1.
Proof. exact (rnd32_pow2 0 ltac:(lia)). Qed.

(** Just above 1 the float32 numbers are 2^-23 apart: what is within a
    quarter of that of 1 rounds to 1. *)
Lemma rnd32_near_1 (y : R) : 0 <= y <= powerRZ 2 (-25) -> rnd32 (1 + y) = 1.
Proof.
  intros [Hy0 Hy].
  assert (H25 : powerRZ 2 (-25) < 1).
  { change 1 with (powerRZ 2 0). apply pow2_lt. lia. }
  assert (Hm : mag2 (1 + y) = 0%Z).
  { apply mag2_unique. change (powerRZ 2 0) with 1.
    change (powerRZ 2 (0 + 1)) with (2 * 1). lra. }
  unfold rnd32, ulp32. rewrite Hm. rewrite Z.max_l by lia.
  change (0 - 23)%Z with (-23)%Z.
  pose proof (pow2_pos (-23)) as Hu.
  assert (Hinv : 1 / powerRZ 2 (-23) = IZR (2 ^ 23)).
  { rewrite <- pow2_IZR by lia.
    apply Rmult_eq_reg_r with (powerRZ 2 (-23)); [|lra].
    rewrite <- pow2_add. change (powerRZ 2 (23 + -23)) with 1.
    field. lra. }
  assert (Hq : y / powerRZ 2 (-23) <= 1 / 4).
  { apply Rmult_le_reg_r with (powerRZ 2 (-23)); [exact Hu|].
    replace (y / powerRZ 2 (-23) * powerRZ 2 (-23)) with y by (field; lra).
    replace (1 / 4 * powerRZ 2 (-23)) with (powerRZ 2 (-25)); [exact Hy|].
    replace (-25)%Z with (-2 + -23)%Z by lia. rewrite pow2_add.
    change (powerRZ 2 (-2)) with (/ (2 * (2 * 1))). lra. }
  assert (Hq0 : 0 <= y / powerRZ 2 (-23)).
  { apply Rmult_le_pos; [exact Hy0|]. left. apply Rinv_0_lt_compat. exact Hu. }
  rewrite (nearest_even_near _ (2 ^ 23)).
  - rewrite <- Hinv. field. lra.
  - replace ((1 + y) / powerRZ 2 (-23))
      with (1 / powerRZ 2 (-23) + y / powerRZ 2 (-23)) by (field; lra).
    rewrite Hinv. lra.
Qed.

(** *** Overflow *)

Lemma max32_bounds : 1 <= max32 /\ max32 < powerRZ 2 128.
Proof.
  unfold max32.
  assert (H23 : 0 < powerRZ 2 (-23) < 1).
  { split; [apply pow2_pos|]. change 1 with (powerRZ 2 0). apply pow2_lt. lia. }
  assert (H127 : 1 <= powerRZ 2 127).
  { change 1 with (powerRZ 2 0). apply pow2_le. lia. }
  assert (H128 : powerRZ 2 128 = 2 * powerRZ 2 127).
  { replace 128%Z with (1 + 127)%Z by lia. rewrite pow2_add.
    change (powerRZ 2 1) with (2 * 1). lra. }
  rewrite H128. split; nra.
Qed.

Lemma max32_ge_2 : 2 <= max32.
Proof.
  unfold max32.
  assert (H23 : 0 < powerRZ 2 (-23) < 1).
  { split; [apply pow2_pos|]. change 1 with (powerRZ 2 0). apply pow2_lt. lia. }
  assert (H127 : powerRZ 2 1 <= powerRZ 2 127) by (apply pow2_le; lia).
  change (powerRZ 2 1) with (2 * 1) in H127. nra.
Qed.

Lemma round32_Finite (x : R) :
  - max32 <= rnd32 x <= max32 -> round32 x = Finite (rnd32 x).
Proof.
  intros [Hl Hu]. unfold round32. cbv zeta.
  destruct (Rlt_dec max32 (rnd32 x)) as [H|_]; [lra|].
  destruct (Rlt_dec (rnd32 x) (- max32)) as [H|_]; [lra|]. reflexivity.
Qed.



(** *** The exponential at the integers *)

Lemma exp_INR_ge (n : nat) : 2 ^ n <= exp (INR n).
Proof.
  induction n as [|n IH].
  - simpl. rewrite exp_0. lra.
  - rewrite S_INR, exp_plus. simpl.
    pose proof (exp_ineq1_le 1) as H1. pose proof (exp_pos (INR n)) as Hp.
    assert (H2 : 0 <= 2 ^ n) by (apply pow_le; lra).
    rewrite Rmult_comm. apply Rmult_le_compat; lra.
Qed.

Lemma exp_ge_pow2 (n : nat) (x : R) : INR n <= x -> powerRZ 2 (Z.of_nat n) <= exp x.
Proof.
  intros Hx. rewrite <- pow_powerRZ.
  apply Rle_trans with (exp (INR n)); [apply exp_INR_ge|].
  destruct Hx as [Hx | <-]; [left; apply exp_increasing; exact Hx | lra].
Qed.

Lemma exp_le_pow2 (n : nat) (x : R) :
  INR n <= x -> exp (- x) <= powerRZ 2 (- Z.of_nat n).
Proof.
  intros Hx. rewrite exp_Ropp, powerRZ_neg'.
  apply Rinv_le_contravar; [apply pow2_pos | apply exp_ge_pow2; exact Hx].
Qed.

(** *** The float32 sigmoid *)


(** From a logit of 40 on the float32 sigmoid is exactly 1: [exp (-x)] is
    below a quarter of the spacing of the floats above 1. *)
Lemma sigmoid32_saturates_1 (x : R) : 40 <= x -> sigmoid32 x = 1.
Proof.
  intros Hx. unfold sigmoid32, expf32.
  assert (He : 0 <= exp (- x) <= powerRZ 2 (-25)).
  { split; [left; apply exp_pos|].
    apply Rle_trans with (powerRZ 2 (- Z.of_nat 40)).
    - apply exp_le_pow2. rewrite INR_IZR_INZ.
      change (IZR (Z.of_nat 40)) with 40. exact Hx.
    - apply pow2_le. lia. }
  pose proof max32_bounds as [Hm _].
  assert (Hy : 0 <= rnd32 (exp (- x)) <= powerRZ 2 (-25)).
  { split; [apply rnd32_nonneg; lra|]. apply rnd32_le_pow2; [lia | exact He]. }
  assert (H25 : powerRZ 2 (-25) < 1).
  { change 1 with (powerRZ 2 0). apply pow2_lt. lia. }
  rewrite round32_Finite by lra.
  rewrite round32_Finite; rewrite (rnd32_near_1 _ Hy); [|lra].
  replace (1 / 1) with 1 by lra. apply rnd32_1.
Qed.


(** At the logit 0 every step is exact: [exp 0 = 1], [1 + 1 = 2] and
    [1 / 2] are float32 numbers. *)
Lemma sigmoid32_at_0 : sigmoid32 0 = 1 / 2.
Proof.
  assert (Hhalf : powerRZ 2 (-1) = 1 / 2).
  { change (powerRZ 2 (-1)) with (/ (2 * 1)). lra. }
  assert (Htwo : powerRZ 2 1 = 1 + 1).
  { change (powerRZ 2 1) with (2 * 1). lra. }
  pose proof max32_ge_2 as Hm.
  unfold sigmoid32, expf32. rewrite Ropp_0, exp_0.
  rewrite round32_Finite; rewrite rnd32_1; [|lra].
  rewrite <- Htwo.
  rewrite round32_Finite; rewrite (rnd32_pow2 1) by lia;
    [|change (powerRZ 2 1) with (2 * 1); lra].
  replace (1 / powerRZ 2 1) with (powerRZ 2 (-1))
    by (rewrite Hhalf; change (powerRZ 2 1) with (2 * 1); lra).
  rewrite (rnd32_pow2 (-1)) by lia. exact Hhalf.
Qed.

(** ** The sampler in inference mode *)

Lemma sample_graph_with_sigmoid `{Collaborators} (ws : list R)
    (temperature bias : R) (training : bool) (g : Rng) :
  _sample_graph_with sigmoid ws temperature bias training g
  = _sample_graph ws temperature bias training g.
Proof. reflexivity. Qed.




(** ** The loss with the special values *)

Lemma ieee_sum_Finite (l : list R) : ieee_sum (map Finite l) = Finite (rsum l).
Proof.
  induction l as [|x l IH]; [reflexivity|].
  cbn [map ieee_sum foldr]. fold (ieee_sum (map Finite l)). rewrite IH.
  reflexivity.
Qed.

Lemma ieee_log_pos (x : R) : 0 < x -> ieee_log (Finite x) = Finite (ln x).
Proof.
  intros Hx. unfold ieee_log.
  destruct (Rlt_dec 0 x) as [_|Hn]; [reflexivity | contradiction].
Qed.

Lemma ieee_log_0 : ieee_log (Finite 0) = NInf.
Proof.
  unfold ieee_log.
  destruct (Rlt_dec 0 0) as [H|_]; [lra|].
  destruct (Req_dec_T 0 0) as [_|Hn]; [reflexivity | contradiction].
Qed.

Lemma ieee_mul_0_NInf : ieee_mul (Finite 0) NInf = NaN.
Proof.
  unfold ieee_mul, ieee_mul_inf.
  destruct (Req_dec_T 0 0) as [_|Hn]; [reflexivity | contradiction].
Qed.

(** Line 107 on an entry strictly between 0 and 1: both logarithms are of
    positive numbers and the value is the one of the real-number reading. *)
Lemma binary_entropy_ieee_finite (m : R) :
  0 < m < 1 -> binary_entropy_ieee m = Finite (binary_entropy m).
Proof.
  intros [H0 H1]. unfold binary_entropy_ieee, binary_entropy.
  cbn [ieee_sub ieee_neg ieee_add].
  rewrite ieee_log_pos by exact H0.
  replace (1 + - m) with (1 - m) by lra.
  rewrite ieee_log_pos by lra.
  cbn [ieee_mul ieee_neg ieee_add]. f_equal; lra.
Qed.

(** Line 107 on a saturated entry: [0 * log 0] is NaN. *)
Lemma binary_entropy_ieee_saturated (m : R) :
  m = 0 \/ m = 1 -> binary_entropy_ieee m = NaN.
Proof.
  intros [Hm | Hm]; subst m; unfold binary_entropy_ieee.
  - rewrite ieee_log_0.
    replace (ieee_neg (Finite 0)) with (Finite 0)
      by (cbn [ieee_neg]; f_equal; lra).
    rewrite ieee_mul_0_NInf. reflexivity.
  - replace (ieee_sub (Finite 1) (Finite 1)) with (Finite 0)
      by (cbn [ieee_sub ieee_neg ieee_add]; f_equal; lra).
    rewrite ieee_log_0, ieee_mul_0_NInf. unfold ieee_sub. cbn [ieee_neg].
    destruct (ieee_mul _ (ieee_log (Finite 1))); reflexivity.
Qed.

(** Line 137 on entries strictly between 0 and 1. *)
Lemma pair_loss_ieee_finite (p : R * R) :
  0 < fst p < 1 -> 0 < snd p ->
  pair_loss_ieee p = Finite (pair_loss p).
Proof.
  intros [H0 H1] H2. unfold pair_loss_ieee, pair_loss.
  cbn [ieee_sub ieee_neg ieee_add].
  rewrite ieee_log_pos by exact H2.
  replace (1 + - fst p) with (1 - fst p) by lra.
  rewrite ieee_log_pos by lra.
  cbn [ieee_mul ieee_neg ieee_add]. f_equal; lra.
Qed.

Lemma ieee_sum_entropy_finite (l : list R) :
  Forall (fun m => 0 < m < 1) l ->
  ieee_sum (map binary_entropy_ieee l) = Finite (rsum (map binary_entropy l)).
Proof.
  induction 1 as [|m l Hm _ IH]; [reflexivity|].
  cbn [map ieee_sum foldr]. fold (ieee_sum (map binary_entropy_ieee l)).
  rewrite IH, binary_entropy_ieee_finite by exact Hm. reflexivity.
Qed.

(** On a non-empty mask without saturated entries [_loss] meets no special
    value: the three terms are the finite ones of the real-number
    reading. *)
Lemma loss_ieee_agrees (masked_pred : matrix) (original_pred : list nat)
    (mask : tensor) (rc : list R) :
  elems mask <> [] ->
  Forall (fun m => 0 < m < 1) (elems mask) ->
  _loss_ieee masked_pred original_pred mask rc
  = (let* l := _loss masked_pred original_pred mask rc in
     Ok (Finite (fst (fst l)), Finite (snd (fst l)), Finite (snd l))).
Proof.
  intros Hne Hm. unfold _loss_ieee, _loss.
  destruct (getitem rc 0) as [size_reg|e]; cbn [bind]; [|reflexivity].
  destruct (getitem rc 1) as [entropy_reg|e]; cbn [bind]; [|reflexivity].
  destruct (cross_entropy masked_pred original_pred) as [cce|e];
    cbn [bind fst snd]; [|reflexivity].
  rewrite ieee_sum_Finite. unfold ieee_mean.
  rewrite ieee_sum_entropy_finite by exact Hm.
  rewrite !length_map. unfold ieee_div_count.
  destruct (length (elems mask)) as [|k] eqn:Hlen.
  - destruct (elems mask); [congruence | discriminate Hlen].
  - cbn [Nat.eqb ieee_mul]. unfold rmean. rewrite length_map, Hlen.
    reflexivity.
Qed.

(** ** The loss of an example with all coefficients 0 *)

(** The loss of an example is [masked_terms] at the mask that was
    sampled. *)
Lemma example_terms_masked `{Collaborators} (self : PGExplainer) (P : MLP)
    (node_embeds : matrix) (t : R) (n : nat) (g : Rng) :
  example_terms self P node_embeds t n g
  = (let* (feats, graph, mask, g') :=
       example_mask self P node_embeds t n g in
     let* l := masked_terms self feats graph n mask in
     Ok (l, g')).
Proof.
  unfold example_terms, example_forward, example_mask, masked_terms,
    predictions.
  cbv zeta.
  destruct (match data self with
            | NodeData features graphs =>
                Ok (features, k_hop_subgraph n 3 graphs, node_embeds)
            | GraphData samples =>
                let* fg := getitem samples n in
                Ok (fst fg, snd fg,
                    embedding (model_to_explain self) (fst fg) (snd fg))
            end) as [[[feats graph] embeds]|e]; cbn [bind]; [|reflexivity].
  destruct (_create_explainer_input (type self) graph embeds n)
    as [input_expl|e]; cbn [bind]; [|reflexivity].
  destruct (explainer_model_apply P input_expl) as [ws|e]; cbn [bind];
    [|reflexivity].
  destruct (_sample_graph ws t (sample_bias self) true g) as [m g'].
  cbn [bind].
  destruct (match type self with
            | node =>
                let* mp :=
                  getitem (forward (model_to_explain self) feats graph
                             (Some (squeeze m))) n in
                let* op :=
                  getitem (forward (model_to_explain self) feats graph None) n in
                Ok ([mp], op)
            | graph_task =>
                Ok (forward (model_to_explain self) feats graph
                      (Some (squeeze m)),
                    concat (forward (model_to_explain self) feats graph None))
            end) as [[masked_pred original_pred]|e]; cbn [bind]; [|reflexivity].
  destruct (argmax original_pred) as [target|e]; cbn [bind]; [|reflexivity].
  destruct (_loss masked_pred [target] (squeeze m) (reg_coefs self))
    as [[[c s] en]|e]; cbn [bind]; [|reflexivity].
  destruct (_connectivity_loss (reg_coefs self) graph (squeeze m))
    as [k|e]; reflexivity.
Qed.

(** A mask that [_connectivity_loss] accepts has an entry for every edge of
    a non-empty graph. *)
Lemma connectivity_loss_Ok_mask (rc : list R) (graph : Graph) (mask : tensor)
    (connectivity_loss : R) :
  _connectivity_loss rc graph mask = Ok connectivity_loss ->
  graph <> [] /\ elems mask <> []
  /\ (length graph <= length (elems mask))%nat.
Proof.
  intros Hc.
  assert (Hrc : (3 <= length rc)%nat).
  { apply connectivity_loss_inv in Hc as (cr & mc & Hcr & _).
    apply lookup_lt_Some in Hcr. lia. }
  destruct (connectivity_loss_raises_index rc Hrc) as (Hnil & Hscalar & Hshort).
  assert (Hg : graph <> []).
  { intros ->. rewrite Hnil in Hc. discriminate Hc. }
  destruct mask as [x|xs].
  - rewrite (Hscalar graph x Hg) in Hc. discriminate Hc.
  - cbn [elems].
    assert (Hlen : (length graph <= length xs)%nat).
    { destruct (le_lt_dec (length graph) (length xs)) as [Hle|Hlt];
        [exact Hle|].
      rewrite (Hshort graph xs Hlt) in Hc. discriminate Hc. }
    split; [exact Hg|]. split; [|exact Hlen].
    intros ->. destruct graph; [congruence | simpl in Hlen; lia].
Qed.

(** C9. With the size, entropy and connectivity coefficients all 0, the
    total loss of an example whose sampled mask has no saturated entry
    (every entry strictly between 0 and 1) is exactly its fidelity term:
    the cross-entropy of the prediction of the explained model under that
    mask against the argmax class of its prediction without a mask.  The
    size, entropy and connectivity terms are 0, also with the special
    values of floats, and the loss of every example of [train] is this
    function of the mask that was sampled for it. *)
Theorem zero_coefficients_loss_is_fidelity (self : PGExplainer) :
  reg_coefs self !! 0%nat = Some 0 ->
  reg_coefs self !! 1%nat = Some 0 ->
  reg_coefs self !! 2%nat = Some 0 ->
  (forall (feats : matrix) (graph : Graph) (n : nat) (mask : tensor)
          (cce_loss size_loss mask_ent_loss connectivity_loss : R),
      Forall (fun m => 0 < m < 1) (elems mask) ->
      masked_terms self feats graph n mask
        = Ok (cce_loss, size_loss, mask_ent_loss, connectivity_loss) ->
      (exists (masked_pred : matrix) (original_pred : list R) (target : nat),
          match type self with
          | node =>
              exists mp,
                forward (model_to_explain self) feats graph (Some mask) !! n
                  = Some mp
                /\ masked_pred = [mp]
                /\ forward (model_to_explain self) feats graph None !! n
                   = Some original_pred
          | graph_task =>
              masked_pred
                = forward (model_to_explain self) feats graph (Some mask)
              /\ original_pred
                 = concat (forward (model_to_explain self) feats graph None)
          end
          /\ argmax original_pred = Ok target
          /\ cross_entropy masked_pred [target] = Ok cce_loss
          /\ _loss_ieee masked_pred [target] mask (reg_coefs self)
             = Ok (Finite cce_loss, Finite 0, Finite 0))
      /\ size_loss = 0 /\ mask_ent_loss = 0 /\ connectivity_loss = 0
      /\ terms_total (cce_loss, size_loss, mask_ent_loss, connectivity_loss)
         = cce_loss
      /\ terms_total_ieee
           (Finite cce_loss, Finite size_loss, Finite mask_ent_loss,
            Finite connectivity_loss)
         = Finite cce_loss)
  /\ (forall `{Collaborators} (P : MLP) (node_embeds : matrix) (t : R)
             (n : nat) (g : Rng),
        example_terms self P node_embeds t n g
        = (let* (feats, graph, mask, g') :=
             example_mask self P node_embeds t n g in
           let* l := masked_terms self feats graph n mask in
           Ok (l, g'))).
Proof.
  intros H0 H1 H2. split; [|intros; apply example_terms_masked].
  intros feats graph n mask c s e k Hm Ht.
  unfold masked_terms in Ht.
  inv_bind_as Ht Hp. destruct a as [masked_pred original_pred].
  inv_bind_as Ht Harg. rename a into target.
  inv_bind_as Ht Hl. destruct a as [[c' s'] e'].
  inv_bind_as Ht Hc. injection Ht as -> -> -> ->.
  pose proof (connectivity_loss_Ok_mask _ _ _ _ Hc) as (_ & Hne & _).
  pose proof (loss_ieee_agrees masked_pred [target] mask (reg_coefs self)
                Hne Hm) as Hieee.
  rewrite Hl in Hieee. cbn [bind fst snd] in Hieee.
  apply loss_inv in Hl as (sr & er & Hsr & Her & Hce & Hs & He).
  apply connectivity_loss_inv in Hc as (cr & mc & Hcr & Hk).
  rewrite H0 in Hsr. rewrite H1 in Her. rewrite H2 in Hcr.
  injection Hsr as <-. injection Her as <-. injection Hcr as <-.
  assert (Hs0 : s = 0) by (subst; lra).
  assert (He0 : e = 0) by (subst; lra).
  assert (Hk0 : k = 0) by (subst; lra).
  split; [|split; [exact Hs0|split; [exact He0|split; [exact Hk0|]]]].
  - exists masked_pred, original_pred, target.
    split; [|split; [exact Harg|split; [exact Hce|]]].
    + unfold predictions in Hp. cbv zeta in Hp.
      destruct (type self).
      * inv_bind_as Hp Hmp. inv_bind_as Hp Hop. injection Hp as <- <-.
        apply getitem_Ok in Hmp, Hop.
        eexists. split; [exact Hmp|]. split; [reflexivity | exact Hop].
      * injection Hp as <- <-. split; reflexivity.
    + rewrite Hieee, Hs0, He0. reflexivity.
  - rewrite Hs0, He0, Hk0. unfold terms_total, terms_total_ieee.
    cbn [ieee_add]. split; [lra | f_equal; lra].
Qed.

Lemma toy_masked_terms_ok (m1 m2 : R) :
  exists cce_loss size_loss mask_ent_loss connectivity_loss,
    masked_terms (toy_explainer [two_cycle] 1 [0; 0; 0]) [[1]; [2]] two_cycle
      0 (Vector [m1; m2])
    = Ok (cce_loss, size_loss, mask_ent_loss, connectivity_loss).
Proof.
  destruct (connectivity_loss_distinct_sources [0; 0; 0] two_cycle [m1; m2])
    as (v & Hv & _).
  { simpl. lia. }
  { apply (bool_decide_unpack _). reflexivity. }
  { simpl. lia. }
  { simpl. lia. }
  unfold masked_terms, predictions, toy_explainer.
  cbn [type data model_to_explain reg_coefs forward toy_model bind concat app].
  rewrite argmax_0_1. cbn [bind].
  unfold _loss, getitem.
  cbn [lookup list_lookup bind].
  unfold cross_entropy, nll_row.
  cbn [length Nat.eqb zip zip_with mapM bind fst snd getitem lookup list_lookup].
  rewrite Hv. cbn [bind]. eexists _, _, _, _. reflexivity.
Qed.

Lemma zero_coefficients_loss_is_fidelity_witness :
  exists cce_loss size_loss mask_ent_loss connectivity_loss,
    masked_terms (toy_explainer [two_cycle] 1 [0; 0; 0]) [[1]; [2]] two_cycle
      0 (Vector [1 / 2; 1 / 4])
    = Ok (cce_loss, size_loss, mask_ent_loss, connectivity_loss)
    /\ size_loss = 0 /\ mask_ent_loss = 0 /\ connectivity_loss = 0
    /\ terms_total (cce_loss, size_loss, mask_ent_loss, connectivity_loss)
       = cce_loss
    /\ terms_total_ieee
         (Finite cce_loss, Finite size_loss, Finite mask_ent_loss,
          Finite connectivity_loss)
       = Finite cce_loss.
Proof.
  destruct (toy_masked_terms_ok (1 / 2) (1 / 4)) as (c & s & e & k & Ht).
  exists c, s, e, k. split; [exact Ht|].
  assert (Hm : Forall (fun m => 0 < m < 1) (elems (Vector [1 / 2; 1 / 4]))).
  { cbn [elems]. repeat constructor; lra. }
  exact (proj2 (proj1 (zero_coefficients_loss_is_fidelity
                         (toy_explainer [two_cycle] 1 [0; 0; 0])
                         eq_refl eq_refl eq_refl)
                  [[1]; [2]] two_cycle 0%nat (Vector [1 / 2; 1 / 4])
                  c s e k Hm Ht)).
Defined.

(** C9 as stated fails with a saturated mask entry: the float32 sigmoid of
    the logits 40 and 0 is the mask 1, 1/2; on that mask line 107 computes
    [0 * log 0], the entropy term is NaN although its coefficient is 0, and
    the total is NaN whatever the connectivity term, not the fidelity
    term. *)
Lemma zero_coefficients_saturated_mask_nan :
  map sigmoid32 [40; 0] = [1; 1 / 2]
  /\ exists cce_loss size_loss,
       _loss_ieee
         (forward toy_model [[1]; [2]] two_cycle (Some (Vector [1; 1 / 2])))
         [1%nat] (Vector [1; 1 / 2]) [0; 0; 0]
       = Ok (Finite cce_loss, size_loss, NaN)
       /\ forall connectivity_loss,
            terms_total_ieee
              (Finite cce_loss, size_loss, NaN, connectivity_loss)
            = NaN
            /\ terms_total_ieee
                 (Finite cce_loss, size_loss, NaN, connectivity_loss)
               <> Finite cce_loss.
Proof.
  split.
  { cbn [map]. rewrite (sigmoid32_saturates_1 40) by lra.
    rewrite sigmoid32_at_0. reflexivity. }
  assert (Hent : ieee_mul (Finite 0)
                   (ieee_mean (map binary_entropy_ieee [1; 1 / 2])) = NaN).
  { cbn [map]. rewrite (binary_entropy_ieee_saturated 1) by (right; reflexivity).
    unfold ieee_mean, ieee_sum. cbn [foldr ieee_add].
    destruct (binary_entropy_ieee (1 / 2)); reflexivity. }
  unfold _loss_ieee, getitem.
  cbn [lookup list_lookup bind elems forward toy_model].
  rewrite Hent.
  unfold cross_entropy, nll_row.
  cbn [length Nat.eqb zip zip_with mapM bind fst snd getitem lookup list_lookup].
  eexists _, _. split; [reflexivity|].
  intros k.
  assert (Hnan : forall a b, terms_total_ieee (a, b, NaN, k) = NaN).
  { intros a b. unfold terms_total_ieee.
    destruct (ieee_add a b), k; reflexivity. }
  rewrite Hnan. split; [reflexivity | discriminate].
Qed.

(** ** When the entropy term is NaN *)

Lemma ieee_add_NaN_r (a : ieee) : ieee_add a NaN = NaN.
Proof. destruct a; reflexivity. Qed.

Lemma binary_entropy_ieee_cases (m : R) :
  0 <= m <= 1 ->
  (0 < m < 1 /\ binary_entropy_ieee m = Finite (binary_entropy m))
  \/ ((m = 0 \/ m = 1) /\ binary_entropy_ieee m = NaN).
Proof.
  intros [H0 H1].
  destruct H0 as [H0 | H0]; [destruct H1 as [H1 | H1]|].
  - left. split; [lra|]. apply binary_entropy_ieee_finite. lra.
  - right. split; [right; exact H1|].
    apply binary_entropy_ieee_saturated. right. exact H1.
  - right. split; [left; symmetry; exact H0|].
    apply binary_entropy_ieee_saturated. left. symmetry. exact H0.
Qed.

Lemma ieee_sum_entropy_cases (l : list R) :
  Forall (fun m => 0 <= m <= 1) l ->
  (Forall (fun m => 0 < m < 1) l
   /\ ieee_sum (map binary_entropy_ieee l)
      = Finite (rsum (map binary_entropy l)))
  \/ (Exists (fun m => m = 0 \/ m = 1) l
      /\ ieee_sum (map binary_entropy_ieee l) = NaN).
Proof.
  induction 1 as [|m l Hm _ IH].
  - left. split; [constructor | reflexivity].
  - cbn [map ieee_sum foldr]. fold (ieee_sum (map binary_entropy_ieee l)).
    destruct (binary_entropy_ieee_cases m Hm) as [[Hin ->] | [Hsat ->]].
    + destruct IH as [[Hall ->] | [Hex ->]].
      * left. split; [constructor; assumption | reflexivity].
      * right. split; [apply Exists_cons_tl; exact Hex | reflexivity].
    + right. split; [apply Exists_cons_hd; exact Hsat | reflexivity].
Qed.

(** X24. With the special values of floats, [_loss] on a non-empty mask with
    entries between 0 and 1 returns a finite size term, and its entropy
    term is NaN exactly when some entry is saturated (equal to 0 or to 1),
    whatever the entropy coefficient, 0 included; without a saturated entry
    it is the finite value of the real-number reading. *)
Theorem loss_entropy_nan_iff_saturated (masked_pred : matrix)
    (original_pred : list nat) (mask : tensor) (rc : list R)
    (size_reg entropy_reg cce_loss : R) :
  rc !! 0%nat = Some size_reg ->
  rc !! 1%nat = Some entropy_reg ->
  elems mask <> [] ->
  Forall (fun m => 0 <= m <= 1) (elems mask) ->
  cross_entropy masked_pred original_pred = Ok cce_loss ->
  exists mask_ent_loss,
    _loss_ieee masked_pred original_pred mask rc
    = Ok (Finite cce_loss, Finite (rsum (elems mask) * size_reg),
          mask_ent_loss)
    /\ ((Exists (fun m => m = 0 \/ m = 1) (elems mask)
         /\ mask_ent_loss = NaN)
        \/ (Forall (fun m => 0 < m < 1) (elems mask)
            /\ mask_ent_loss
               = Finite (entropy_reg
                         * rmean (map binary_entropy (elems mask)))
            /\ _loss masked_pred original_pred mask rc
               = Ok (cce_loss, rsum (elems mask) * size_reg,
                     entropy_reg * rmean (map binary_entropy (elems mask))))).
Proof.
  intros H0 H1 Hne Hm Hce.
  unfold _loss_ieee, _loss.
  rewrite (proj2 (getitem_Ok rc 0 size_reg) H0).
  rewrite (proj2 (getitem_Ok rc 1 entropy_reg) H1).
  cbn [bind]. rewrite Hce. cbn [bind].
  rewrite ieee_sum_Finite. cbn [ieee_mul].
  eexists. split; [reflexivity|].
  unfold ieee_mean. rewrite length_map.
  destruct (ieee_sum_entropy_cases (elems mask) Hm) as [[Hall ->] | [Hex ->]].
  - right. split; [exact Hall|]. split; [|reflexivity].
    unfold ieee_div_count.
    destruct (length (elems mask)) as [|k] eqn:Hlen.
    + destruct (elems mask); [congruence | discriminate Hlen].
    + cbn [Nat.eqb ieee_mul]. unfold rmean. rewrite length_map, Hlen.
      reflexivity.
  - left. split; [exact Hex | reflexivity].
Qed.

Lemma loss_entropy_nan_iff_saturated_witness :
  exists mask_ent_loss,
    _loss_ieee [[0; 3 / 2]] [1%nat] (Vector [1; 1 / 2]) [0; 0; 0]
    = Ok (Finite (ln (rsum (map exp [0; 3 / 2])) - 3 / 2) ,
          Finite (rsum [1; 1 / 2] * 0), mask_ent_loss)
    /\ mask_ent_loss = NaN.
Proof.
  assert (Hce : cross_entropy [[0; 3 / 2]] [1%nat]
                = Ok (ln (rsum (map exp [0; 3 / 2])) - 3 / 2)).
  { unfold cross_entropy, nll_row, rmean.
    cbn [length Nat.eqb zip zip_with mapM bind fst snd getitem lookup
         list_lookup rsum foldr].
    f_equal. simpl. field. }
  destruct (loss_entropy_nan_iff_saturated [[0; 3 / 2]] [1%nat]
              (Vector [1; 1 / 2]) [0; 0; 0] 0 0 _ eq_refl eq_refl
              ltac:(discriminate)
              ltac:(cbn [elems]; repeat constructor; lra) Hce)
    as (ent & Hl & [[_ Hnan] | [Hall _]]).
  - exists ent. split; [exact Hl | exact Hnan].
  - exfalso. cbn [elems] in Hall. apply Forall_cons in Hall as [H1 _]. lra.
Defined.
